(** * Claspy: a shallow embedding of the rule compiler

    Claspy compiles boolean, bounded-integer and enumerated-value
    expressions into ground rules in the lparse/smodels internal format.
    The Python module keeps all of its state in module-level globals; the
    embedding threads one explicit [state] record through a small
    state-and-exception monad.  Every definition below is a transcription
    of the function of the same name in [claspy.py]. *)

From Equations Require Import Equations.
From stdpp Require Import gmap strings list sorting.

Open Scope Z_scope.

(** ** Python values that reach the compiler *)

(** Host values stored in a MultiVar.  A Python [bool] hashes and compares
    like the integers 0 and 1, so it is a [HNum] here. *)
Inductive host :=
  | HNum (z : Z)
  | HStr (s : string).

(** What [hash_object] returns: the object itself for host values, a tagged
    tuple for the three variable kinds. *)
Inductive hashobj :=
  | KNone
  | KNum (z : Z)
  | KNotImplemented
  | KStr (s : string)
  | KBoolVar (index : Z)                 (* ('BoolVar', index) *)
  | KIntVar (bits : list Z)              (* ('IntVar', b0, b1, ...) *)
  | KMultiVar (vals : list (host * Z)).  (* ('MultiVar', (v, index), ...) *)

(** Dynamically typed operands.  A BoolVar handle carries only its signed
    [index]; an IntVar is the list of its bits' indices, least significant
    first; a MultiVar is its value -> BoolVar dictionary, listed in the
    dictionary's iteration order. *)
Inductive obj :=
  | PyNone
  | PyBool (b : bool)
  | PyInt (z : Z)
  | PyStr (s : string)
  | PyList (l : list Z)                  (* a list of ints: unhashable *)
  | PyNotImplemented
  | OBoolVar (index : Z)
  | OIntVar (bits : list Z)
  | OMultiVar (vals : list (host * Z)).

#[global] Instance host_eq_dec : EqDecision host.
Proof. solve_decision. Defined.
#[global] Instance hashobj_eq_dec : EqDecision hashobj.
Proof. solve_decision. Defined.
#[global] Instance obj_eq_dec : EqDecision obj.
Proof. solve_decision. Defined.

#[global] Instance host_countable : Countable host.
Proof.
  refine (inj_countable'
    (fun h => match h with HNum z => inl z | HStr s => inr s end)
    (fun x => match x with inl z => HNum z | inr s => HStr s end) _).
  by intros [].
Defined.

#[global] Instance hashobj_countable : Countable hashobj.
Proof.
  refine (inj_countable'
    (fun k => match k with
              | KNum z => inl (inl z)
              | KNone => inl (inr false)
              | KNotImplemented => inl (inr true)
              | KStr s => inr (inl s)
              | KBoolVar i => inr (inr (inl i))
              | KIntVar l => inr (inr (inr (inl l)))
              | KMultiVar l => inr (inr (inr (inr l)))
              end)
    (fun x => match x with
              | inl (inl z) => KNum z
              | inl (inr false) => KNone
              | inl (inr true) => KNotImplemented
              | inr (inl s) => KStr s
              | inr (inr (inl i)) => KBoolVar i
              | inr (inr (inr (inl l))) => KIntVar l
              | inr (inr (inr (inr l))) => KMultiVar l
              end) _).
  by intros [].
Defined.

Inductive exn :=
  | RuntimeError
  | TypeError
  | ValueError
  | IndexError
  | AssertionError
  | AttributeError
  | NameError
  | OutsideModel.   (* not a Python exception: the embedding stops here, on
                       an operand combination it does not cover; each use
                       says which *)

(** ** Process-wide state *)

(** The memoization dictionaries.  Each decorated function owns one
    dictionary; here the dictionaries of the functions returning the same
    kind of value are kept in one map, keyed by the function's name and the
    argument key. *)
Abbreviation memo_key := (string * list hashobj)%type.

Record state := mkState {
  last_bool : Z;                    (* used to set the indexes of BoolVars *)
  clasp_rules : list (list Z);      (* the rule buffer, oldest rule first *)
  single_vars : gset Z;             (* literals known unconditionally true *)
  NUM_BITS : Z;
  TRUE_BOOL : Z;                    (* TRUE_BOOL.index *)
  FALSE_BOOL : Z;                   (* FALSE_BOOL.index *)
  solution : gset Z;                (* indices of the true variables *)
  memo_caches : gmap memo_key obj;
}.

Definition set_last_bool (v : Z) (s : state) : state :=
  mkState v (clasp_rules s) (single_vars s) (NUM_BITS s) (TRUE_BOOL s)
          (FALSE_BOOL s) (solution s) (memo_caches s).
Definition set_clasp_rules (v : list (list Z)) (s : state) : state :=
  mkState (last_bool s) v (single_vars s) (NUM_BITS s) (TRUE_BOOL s)
          (FALSE_BOOL s) (solution s) (memo_caches s).
Definition set_single_vars (v : gset Z) (s : state) : state :=
  mkState (last_bool s) (clasp_rules s) v (NUM_BITS s) (TRUE_BOOL s)
          (FALSE_BOOL s) (solution s) (memo_caches s).
Definition set_NUM_BITS (v : Z) (s : state) : state :=
  mkState (last_bool s) (clasp_rules s) (single_vars s) v (TRUE_BOOL s)
          (FALSE_BOOL s) (solution s) (memo_caches s).
Definition set_TRUE_BOOL (v : Z) (s : state) : state :=
  mkState (last_bool s) (clasp_rules s) (single_vars s) (NUM_BITS s) v
          (FALSE_BOOL s) (solution s) (memo_caches s).
Definition set_FALSE_BOOL (v : Z) (s : state) : state :=
  mkState (last_bool s) (clasp_rules s) (single_vars s) (NUM_BITS s)
          (TRUE_BOOL s) v (solution s) (memo_caches s).
Definition set_solution (v : gset Z) (s : state) : state :=
  mkState (last_bool s) (clasp_rules s) (single_vars s) (NUM_BITS s)
          (TRUE_BOOL s) (FALSE_BOOL s) v (memo_caches s).
Definition set_memo_caches (v : gmap memo_key obj) (s : state) : state :=
  mkState (last_bool s) (clasp_rules s) (single_vars s) (NUM_BITS s)
          (TRUE_BOOL s) (FALSE_BOOL s) (solution s) v.

(** [BITS = range(NUM_BITS)]; the two globals are always assigned together. *)
Definition BITS (s : state) : list Z := Z.of_nat <$> seq 0 (Z.to_nat (NUM_BITS s)).

(** ** The monad: global state plus Python exceptions *)

Inductive result (A : Type) :=
  | Ok (a : A) (s : state)
  | Raise (e : exn) (s : state).
Arguments Ok {A} a s.
Arguments Raise {A} e s.

Definition M (A : Type) : Type := state -> result A.

#[global] Instance M_ret : MRet M := fun A a s => Ok a s.
#[global] Instance M_bind : MBind M := fun A B f m s =>
  match m s with
  | Ok a s' => f a s'
  | Raise e s' => Raise e s'
  end.

#[global] Instance M_fmap : FMap M := fun A B f m s =>
  match m s with
  | Ok a s' => Ok (f a) s'
  | Raise e s' => Raise e s'
  end.

Definition raise {A} (e : exn) : M A := fun s => Raise e s.
Definition gets {A} (f : state -> A) : M A := fun s => Ok (f s) s.
Definition modify (f : state -> state) : M unit := fun s => Ok () (f s).

(** [for x in xs: body x] for a body without early exit. *)
Fixpoint for_each {A} (xs : list A) (body : A -> M unit) : M unit :=
  match xs with
  | [] => mret ()
  | x :: rest => _ ← body x; for_each rest body
  end.

(** [[f(x) for x in xs]] *)
Fixpoint map_M {A B} (f : A -> M B) (xs : list A) : M (list B) :=
  match xs with
  | [] => mret []
  | x :: rest => y ← f x; ys ← map_M f rest; mret (y :: ys)
  end.

(** ** Literal pool and rule buffer *)

Definition new_literal : M Z :=
  _ ← modify (fun s => set_last_bool (last_bool s + 1) s);
  gets last_bool.

(** The progress message of [add_rule] only prints; it is left out. *)
Definition add_rule (vals : list Z) : M unit :=
  modify (fun s => set_clasp_rules (clasp_rules s ++ [vals]) s).

Definition len {A} (l : list A) : Z := Z.of_nat (length l).

Definition negative_literals (literals : list Z) : list Z :=
  Z.abs <$> List.filter (fun x => x <? 0) literals.
Definition positive_literals (literals : list Z) : list Z :=
  List.filter (fun x => 0 <? x) literals.

(** *** The basic-rule optimizer *)

(** One execution of the body of [optimize_basic_rule]: either it returns
    (with the literals to emit, or [None] to skip the rule, and the updated
    known-true set) or it reaches the recursive call. *)
Inductive opt_step :=
  | Return (r : option (list Z)) (sv : gset Z)
  | Recurse (new_literals : list Z).

(** The [for x in literals] loop of the headless case. *)
Fixpoint optimize_scan (sv : gset Z) (literals rest : list Z) : opt_step :=
  match rest with
  | [] => Return (Some literals) sv
  | x :: rest' =>
      if decide (- x ∈ sv) then Return None sv
      else if decide (x ∈ sv)
           then Recurse (List.filter (fun y => negb (y =? x)) literals)
           else optimize_scan sv literals rest'
  end.

Definition optimize_body (hd : Z) (literals : list Z) (sv : gset Z) : opt_step :=
  match literals with
  | [] =>
      if decide (hd ∈ sv) then Return None sv
      else Return (Some literals) ({[hd]} ∪ sv)
  | l0 :: tl =>
      if decide (hd = 1 ∧ tl = []) then
        if decide (- l0 ∈ sv) then Return None sv
        else Return (Some literals) ({[- l0]} ∪ sv)
      else if decide (hd = 1) then optimize_scan sv literals literals
      else Return (Some literals) sv
  end.

Definition inspect {A} (a : A) : {b : A | a = b} := exist _ a eq_refl.

Lemma filter_ne_shorter (x : Z) (l : list Z) :
  x ∈ l -> (length (List.filter (fun y => negb (Z.eqb y x)) l) < length l)%nat.
Proof.
  induction l as [|y l IH]; simpl; intros Hin.
  - by apply elem_of_nil in Hin.
  - destruct (Z.eqb_spec y x) as [->|Hne]; simpl.
    + pose proof (List.filter_length_le (fun y => negb (Z.eqb y x)) l). lia.
    + apply elem_of_cons in Hin as [->|Hin]; [done|].
      specialize (IH Hin). lia.
Qed.

Lemma optimize_scan_recurse sv literals rest nl :
  rest ⊆ literals ->
  optimize_scan sv literals rest = Recurse nl ->
  (length nl < length literals)%nat.
Proof.
  induction rest as [|x rest IH]; simpl; intros Hsub; [done|].
  repeat case_decide; try done.
  - intros [= <-]. apply filter_ne_shorter. apply Hsub. left.
  - apply IH. intros y Hy. apply Hsub. by right.
Qed.

Lemma optimize_body_recurse hd literals sv nl :
  optimize_body hd literals sv = Recurse nl ->
  (length nl < length literals)%nat.
Proof.
  unfold optimize_body. destruct literals as [|l0 tl].
  - by case_decide.
  - repeat case_decide; try done.
    by apply optimize_scan_recurse.
Qed.

(** The function itself, on the known-true set: the literals to emit (or
    [None]) and the set it leaves. *)
Equations? optimize_rule (hd : Z) (literals : list Z) (sv : gset Z)
  : option (list Z) * gset Z by wf (length literals) lt :=
  optimize_rule hd literals sv with inspect (optimize_body hd literals sv) => {
    | exist _ (Return r sv') _ := (r, sv');
    | exist _ (Recurse new_literals) Hstep := optimize_rule hd new_literals sv }.
Proof. by eapply optimize_body_recurse. Qed.

Definition optimize_basic_rule (hd : Z) (literals : list Z) : M (option (list Z)) :=
  fun s =>
    let '(r, sv) := optimize_rule hd literals (single_vars s) in
    Ok r (set_single_vars sv s).

(** *** Rule emitters (the verbose tracing only prints and is left out) *)

Definition add_basic_rule (hd : Z) (literals : list Z) : M unit :=
  if decide (hd > 0) then
    r ← optimize_basic_rule hd literals;
    match r with
    | None => mret ()
    | Some literals =>
        add_rule ([1; hd; len literals; len (negative_literals literals)]
                  ++ negative_literals literals ++ positive_literals literals)
    end
  else raise AssertionError.

Definition add_choice_rule (heads literals : list Z) : M unit :=
  if decide (Forall (fun i => i > 0) heads) then
    add_rule ([3; len heads] ++ heads
              ++ [len literals; len (negative_literals literals)]
              ++ negative_literals literals ++ positive_literals literals)
  else raise AssertionError.

Definition add_constraint_rule (hd bound : Z) (literals : list Z) : M unit :=
  if decide (hd > 0) then
    add_rule ([2; hd; len literals; len (negative_literals literals); bound]
              ++ negative_literals literals ++ positive_literals literals)
  else raise AssertionError.

Definition add_weight_rule (hd bound : Z) (literals : list Z) : M unit :=
  if decide (hd > 0) then
    add_rule ([5; hd; bound; len literals; len (negative_literals literals)]
              ++ negative_literals literals ++ positive_literals literals
              ++ ((fun _ => 1) <$> literals))
  else raise AssertionError.

(** ** Structural hashes and their ordering *)

(** [hash_object] returns [x.hash_object()] for a variable and [x] itself
    otherwise.  The result [None] stands for a host object that is its own
    key and is unhashable (a list): looking such a key up raises the
    [TypeError] that the decorators catch. *)
Definition hash_object (x : obj) : option hashobj :=
  match x with
  | PyNone => Some KNone
  | PyBool b => Some (KNum (if b then 1 else 0))
  | PyInt z => Some (KNum z)
  | PyStr s => Some (KStr s)
  | PyList _ => None
  | PyNotImplemented => Some KNotImplemented
  | OBoolVar i => Some (KBoolVar i)
  | OIntVar bits => Some (KIntVar bits)
  | OMultiVar vals => Some (KMultiVar vals)
  end.

(** Python 2 orders tuples lexicographically, a proper prefix first. *)
Fixpoint lex_le {A} `{EqDecision A} (R : relation A) (l1 l2 : list A) : Prop :=
  match l1, l2 with
  | [], _ => True
  | _ :: _, [] => False
  | x :: l1', y :: l2' => if decide (x = y) then lex_le R l1' l2' else R x y
  end.

(** [None] sorts first, then numbers, then the other types by the name of
    their type. *)
Definition host_le (a b : host) : Prop :=
  match a, b with
  | HNum x, HNum y => x ≤ y
  | HNum _, HStr _ => True
  | HStr _, HNum _ => False
  | HStr s, HStr t => String.le s t
  end.

Definition pair_le (p q : host * Z) : Prop :=
  if decide (p.1 = q.1) then p.2 ≤ q.2 else host_le p.1 q.1.

Definition hash_rank (k : hashobj) : Z :=
  match k with
  | KNone => -1
  | KNum _ => 0
  | KNotImplemented => 1
  | KStr _ => 2
  | KBoolVar _ => 3
  | KIntVar _ => 4
  | KMultiVar _ => 5
  end.

Definition hash_le (a b : hashobj) : Prop :=
  match a, b with
  | KNum x, KNum y => x ≤ y
  | KStr s, KStr t => String.le s t
  | KBoolVar i, KBoolVar j => i ≤ j
  | KIntVar l, KIntVar m => lex_le Z.le l m
  | KMultiVar l, KMultiVar m => lex_le pair_le l m
  | _, _ => hash_rank a ≤ hash_rank b
  end.

#[global] Instance lex_le_dec {A} `{EqDecision A} (R : relation A)
  `{!RelDecision R} : RelDecision (lex_le R).
Proof.
  intros l1. induction l1 as [|x l1 IH]; intros [|y l2]; simpl; try apply _.
  destruct (decide (x = y)); [apply IH | apply _].
Defined.
#[global] Instance host_le_dec : RelDecision host_le.
Proof. intros [] []; simpl; apply _. Defined.
#[global] Instance pair_le_dec : RelDecision pair_le.
Proof. intros p q. unfold pair_le. destruct (decide (p.1 = q.1)); apply _. Defined.
#[global] Instance hash_le_dec : RelDecision hash_le.
Proof. intros [] []; simpl; apply _. Defined.

(** [sorted(...)] on a tuple of hashes. *)
Definition sorted (l : list hashobj) : list hashobj := merge_sort hash_le l.

(** ** Memoization *)

Definition cache_store (name : string) (key : list hashobj) (value : obj) : M unit :=
  modify (fun s => set_memo_caches (<[(name, key) := value]> (memo_caches s)) s).

(** The shared [__call__]: [key] is [None] when building or looking up the
    key raises [TypeError]. *)
Definition memo_call (name : string) (key : option (list hashobj))
    (func : list obj -> M obj) (args : list obj) : M obj :=
  match key with
  | Some key =>
      cache ← gets memo_caches;
      match cache !! (name, key) with
      | Some value => mret value
      | None =>                                   (* KeyError *)
          value ← func args;
          _ ← cache_store name key value;
          mret value
      end
  | None => func args                             (* uncacheable *)
  end.

Definition memoized (name : string) (func : list obj -> M obj)
    (args : list obj) : M obj :=
  memo_call name (mapM hash_object args) func args.

Definition memoized_symmetric (name : string) (func : list obj -> M obj)
    (args : list obj) : M obj :=
  memo_call name (sorted <$> mapM hash_object args) func args.

(** ** Booleans *)

Definition BoolVar_new : M obj :=                 (* BoolVar() *)
  i ← new_literal;
  _ ← add_choice_rule [i] [];
  mret (OBoolVar i).

Definition BoolVar_internal : M obj :=            (* BoolVar('internal') *)
  i ← new_literal;
  mret (OBoolVar i).

(** [reduce(f, xs)] *)
Definition reduce (f : obj -> obj -> M obj) (xs : list obj) : M obj :=
  match xs with
  | [] => raise TypeError
  | x :: rest => foldl (fun acc y => a ← acc; f a y) (mret x) rest
  end.

(** A method of BoolVar called with [self = a]. *)
Definition method (f : Z -> obj -> M obj) (args : list obj) : M obj :=
  match args with
  | [OBoolVar a; b] => f a b
  | _ => raise TypeError
  end.

Section BoolOps.
  (** [BoolVar(val)] for a given [val]; see [BoolVar_of] below. *)
Variable BoolVar_of : obj -> M Z.

Definition eq_func (a : Z) (b : obj) : M obj :=
    b ← BoolVar_of b;
    T ← gets TRUE_BOOL; F ← gets FALSE_BOOL;
    if decide (b = T) then mret (OBoolVar a)
    else if decide (b = F) then mret (OBoolVar (- a))
    else
      r ← new_literal;
      _ ← add_basic_rule r [a; b];
      _ ← add_basic_rule r [- a; - b];
      mret (OBoolVar r).

Definition and_func (a : Z) (b : obj) : M obj :=
    b ← BoolVar_of b;
    T ← gets TRUE_BOOL; F ← gets FALSE_BOOL;
    if decide (b = T) then mret (OBoolVar a)
    else if decide (b = F) then mret (OBoolVar F)
    else
      r ← new_literal;
      _ ← add_basic_rule r [a; b];
      mret (OBoolVar r).

Definition or_func (a : Z) (b : obj) : M obj :=
    b ← BoolVar_of b;
    T ← gets TRUE_BOOL; F ← gets FALSE_BOOL;
    if decide (b = T) then mret (OBoolVar T)
    else if decide (b = F) then mret (OBoolVar a)
    else
      r ← new_literal;
      _ ← add_basic_rule r [a];
      _ ← add_basic_rule r [b];
      mret (OBoolVar r).

Definition xor_func (a : Z) (b : obj) : M obj :=
    b ← BoolVar_of b;
    T ← gets TRUE_BOOL; F ← gets FALSE_BOOL;
    if decide (b = T) then mret (OBoolVar (- a))
    else if decide (b = F) then mret (OBoolVar a)
    else
      r ← new_literal;
      _ ← add_basic_rule r [a; - b];
      _ ← add_basic_rule r [b; - a];
      mret (OBoolVar r).

Definition gt_func (a : Z) (b : obj) : M obj :=
    b ← BoolVar_of b;
    T ← gets TRUE_BOOL; F ← gets FALSE_BOOL;
    if decide (b = T) then mret (OBoolVar F)
    else if decide (b = F) then mret (OBoolVar a)
    else
      r ← new_literal;
      _ ← add_basic_rule r [a; - b];
      mret (OBoolVar r).

Definition eq_with (a : Z) (b : obj) : M obj :=
    memoized_symmetric "BoolVar.__eq__" (method eq_func) [OBoolVar a; b].
Definition and_with (a : Z) (b : obj) : M obj :=
    memoized_symmetric "BoolVar.__and__" (method and_func) [OBoolVar a; b].
Definition or_with (a : Z) (b : obj) : M obj :=
    memoized_symmetric "BoolVar.__or__" (method or_func) [OBoolVar a; b].
Definition xor_with (a : Z) (b : obj) : M obj :=
    memoized_symmetric "BoolVar.__xor__" (method xor_func) [OBoolVar a; b].
Definition gt_with (a : Z) (b : obj) : M obj :=
    memoized "BoolVar.__gt__" (method gt_func) [OBoolVar a; b].
End BoolOps.

(** [BoolVar(val)] for a BoolVar, a [bool] or an [int]. *)
Definition BoolVar_of_const (val : obj) : M Z :=
  match val with
  | OBoolVar i => mret i
  | PyBool b => if b then gets TRUE_BOOL else gets FALSE_BOOL
  | PyInt z => if decide (z = 0) then gets FALSE_BOOL else gets TRUE_BOOL
  | _ => raise TypeError
  end.

Definition index_of (x : obj) : M Z :=
  match x with
  | OBoolVar i => mret i
  | _ => raise TypeError
  end.

(** [BoolVar(val)].  An IntVar converts to the disjunction of its bits,
    which are BoolVars, so the [|] inside only converts BoolVars.  The
    conversion of a MultiVar evaluates a host-level [and] on the MultiVar's
    values; it is used by none of the operations below and is outside this
    embedding. *)
Definition BoolVar_of (val : obj) : M Z :=
  match val with
  | PyNone => r ← BoolVar_new; index_of r
  | OIntVar bits =>
      result ← reduce (fun a b => i ← index_of a; or_with BoolVar_of_const i b)
                      (OBoolVar <$> bits);
      index_of result
  | OMultiVar _ => raise OutsideModel
  | PyStr _ | PyList _ | PyNotImplemented => raise TypeError
  | _ => BoolVar_of_const val
  end.

Definition BoolVar_invert (a : Z) : obj := OBoolVar (- a).

Definition BoolVar_eq := eq_with BoolVar_of.
Definition BoolVar_and := and_with BoolVar_of.
Definition BoolVar_or := or_with BoolVar_of.
Definition BoolVar_xor := xor_with BoolVar_of.
Definition BoolVar_gt := gt_with BoolVar_of.

Definition BoolVar_ne (a : Z) (b : obj) : M obj :=
  r ← BoolVar_eq a b; i ← index_of r; mret (BoolVar_invert i).
Definition BoolVar_lt (a : Z) (b : obj) : M obj :=
  b ← BoolVar_of b; BoolVar_gt b (OBoolVar a).
Definition BoolVar_ge (a : Z) (b : obj) : M obj :=
  r ← BoolVar_lt a b; i ← index_of r; mret (BoolVar_invert i).
Definition BoolVar_le (a : Z) (b : obj) : M obj :=
  r ← BoolVar_gt a b; i ← index_of r; mret (BoolVar_invert i).

Definition BoolVar_cond (cons : Z) (pred alt : obj) : M obj :=
  pred ← BoolVar_of pred;
  alt ← BoolVar_of alt;
  if decide (cons = alt) then mret (OBoolVar cons)
  else
    result ← new_literal;
    _ ← add_basic_rule result [pred; cons];
    _ ← add_basic_rule result [- pred; alt];
    mret (OBoolVar result).

Definition require (x : obj) : M unit :=
  x ← BoolVar_of x;
  add_basic_rule 1 [- x].

(** ** Reset *)

Definition reset : M unit :=
  _ ← modify (set_NUM_BITS 16);
  _ ← modify (set_clasp_rules []);
  _ ← modify (set_single_vars ∅);
  _ ← modify (set_last_bool 1);
  t ← BoolVar_new;
  t ← index_of t;
  _ ← modify (set_TRUE_BOOL t);
  _ ← require (OBoolVar t);
  _ ← modify (set_FALSE_BOOL (- t));
  _ ← modify (set_solution {[t]});
  modify (set_memo_caches ∅).

(** The state the module is in once it is loaded: [reset()] runs at import
    time, and nothing it does depends on the state before. *)
Definition blank : state := mkState 0 [] ∅ 0 0 0 ∅ ∅.

Definition state_of {A} (r : result A) : state :=
  match r with Ok _ s => s | Raise _ s => s end.

Definition boot : state := state_of (reset blank).

(** ** Operator dispatch on dynamically typed operands *)

(** [~x] *)
Definition py_invert (x : obj) : M obj :=
  match x with
  | OBoolVar a => mret (BoolVar_invert a)
  | PyBool b => mret (PyInt (if b then -2 else -1))
  | PyInt z => mret (PyInt (- z - 1))
  | _ => raise TypeError
  end.

Definition as_int (x : obj) : option Z :=
  match x with
  | PyBool b => Some (if b then 1 else 0)
  | PyInt z => Some z
  | _ => None
  end.

(** [x op y] for a boolean operator whose reflected method is the method
    itself ([__rand__ = __and__] and so on). *)
Definition py_binop (meth : Z -> obj -> M obj) (on_bool : bool -> bool -> bool)
    (on_int : Z -> Z -> Z) (x y : obj) : M obj :=
  match x, y with
  | OBoolVar a, _ => meth a y
  | (PyBool _ | PyInt _), OBoolVar b => meth b x
  | PyBool b1, PyBool b2 => mret (PyBool (on_bool b1 b2))
  | _, _ =>
      match as_int x, as_int y with
      | Some i, Some j => mret (PyInt (on_int i j))
      | _, _ => raise TypeError
      end
  end.

Definition py_and := py_binop BoolVar_and andb Z.land.
Definition py_or := py_binop BoolVar_or orb Z.lor.
Definition py_xor := py_binop BoolVar_xor xorb Z.lxor.

(** ** Integers *)

Definition set_bits (n : Z) : M unit :=
  l ← gets last_bool;
  if decide (l > 2) then raise RuntimeError
  else modify (set_NUM_BITS n).

(** [bits[i]] for [i >= 0] *)
Definition getbit (bits : list Z) (i : Z) : M Z :=
  match bits !! Z.to_nat i with
  | Some b => mret b
  | None => raise IndexError
  end.

(** [[i + off for i in BITS if bits[i].index != FALSE_BOOL.index]] *)
Fixpoint nonfalse (F : Z) (bits : list Z) (off : Z) (idxs : list Z) : M (list Z) :=
  match idxs with
  | [] => mret []
  | i :: rest =>
      b ← getbit bits i;
      tl ← nonfalse F bits off rest;
      mret (if decide (b ≠ F) then (i + off) :: tl else tl)
  end.

Definition py_max (l : list Z) : M Z :=
  match l with
  | [] => raise ValueError
  | x :: rest => mret (foldl Z.max x rest)
  end.

(** The loop of [constrain_sum], from index [i] on, with carry [c]. *)
Fixpoint constrain_sum_loop (idxs : list Z) (a b result : list Z)
    (max_bit : Z) (c : obj) : M unit :=
  match idxs with
  | [] =>
      nc ← py_invert c;
      require nc                                   (* forbid overflows *)
  | i :: rest =>
      ai ← getbit a i;
      bi ← getbit b i;
      d ← BoolVar_xor ai (OBoolVar bi);
      ri ← getbit result i;
      dc ← py_xor d c;
      e ← BoolVar_eq ri dc;
      _ ← require e;
      if decide (i = max_bit) then mret ()         (* the rest is false *)
      else
        ab ← BoolVar_and ai (OBoolVar bi);
        dandc ← py_and d c;
        c' ← py_or ab dandc;
        constrain_sum_loop rest a b result max_bit c'
  end.

Definition constrain_sum (a b result : list Z) : M obj :=
  F ← gets FALSE_BOOL;
  bits ← gets BITS;
  la ← nonfalse F a 1 bits;
  lb ← nonfalse F b 1 bits;
  lr ← nonfalse F result 0 bits;
  max_bit ← py_max (la ++ lb ++ lr);
  _ ← constrain_sum_loop bits a b result max_bit (PyBool false);
  mret (OIntVar result).

(** [try: m  except TypeError: handler] *)
Definition except_TypeError {A} (m handler : M A) : M A := fun s =>
  match m s with
  | Raise TypeError s' => handler s'
  | r => r
  end.

(** [[BoolVar() for i in BITS]] *)
Definition fresh_bits : M (list Z) :=
  bits ← gets BITS;
  map_M (fun _ => r ← BoolVar_new; index_of r) bits.

(** A method of IntVar called with [self = a]. *)
Definition imethod (f : list Z -> obj -> M obj) (args : list obj) : M obj :=
  match args with
  | [OIntVar a; b] => f a b
  | _ => raise TypeError
  end.

(** [[x] + [FALSE_BOOL for i in BITS[1:]]] *)
Definition low_bit (x : Z) : M (list Z) :=
  F ← gets FALSE_BOOL;
  bits ← gets BITS;
  mret (x :: ((fun _ => F) <$> drop 1 bits)).

(** [x >> n]; Python raises [ValueError] on a negative shift count. *)
Definition py_shiftr (x n : Z) : M Z :=
  if decide (n < 0) then raise ValueError else mret (Z.shiftr x n).

(** [IntVar(val)] for every [val] but a list. *)
Definition IntVar_of_const (val : obj) : M (list Z) :=
  match val with
  | PyNone => fresh_bits
  | OIntVar bits => mret bits
  | OBoolVar i => low_bit i
  | PyInt z =>
      n ← gets NUM_BITS;
      hi ← py_shiftr z n;
      if decide (hi = 0) then
        T ← gets TRUE_BOOL; F ← gets FALSE_BOOL;
        bits ← gets BITS;
        mret ((fun i => if Z.testbit z i then T else F) <$> bits)
      else raise TypeError
  | PyBool b =>
      T ← gets TRUE_BOOL; F ← gets FALSE_BOOL;
      low_bit (if b then T else F)
  | _ => raise TypeError
  end.

(** [try: x = IntVar(x)  except TypeError: return NotImplemented], then
    the rest of the method. *)
Definition converting (IntVar_of : obj -> M (list Z)) (x : obj)
    (rest : list Z -> M obj) : M obj :=
  x ← except_TypeError (Some <$> IntVar_of x) (mret None);
  match x with
  | Some x => rest x
  | None => mret PyNotImplemented
  end.

Section IntEq.
  (** [IntVar(val)] for a given [val]; see [IntVar_of] below. *)
Variable IntVar_of : obj -> M (list Z).

Definition int_eq_func (self : list Z) (x : obj) : M obj :=
    converting IntVar_of x (fun x =>
      bits ← gets BITS;
      eqs ← map_M (fun i => si ← getbit self i; xi ← getbit x i;
                            BoolVar_eq si (OBoolVar xi)) bits;
      reduce py_and eqs).

Definition int_eq_with (self : list Z) (x : obj) : M obj :=
    memoized_symmetric "IntVar.__eq__" (imethod int_eq_func) [OIntVar self; x].
End IntEq.

(** [IntVar(val)].  For a list the fresh variable is compared with each
    element, an [int], whose conversion is the one of [IntVar_of_const]. *)
Definition IntVar_of (val : obj) : M (list Z) :=
  match val with
  | PyList l =>
      self ← fresh_bits;
      eqs ← map_M (fun x => int_eq_with IntVar_of_const self (PyInt x)) l;
      any ← reduce py_or eqs;
      _ ← require any;
      mret self
  | _ => IntVar_of_const val
  end.

Definition IntVar_eq := int_eq_with IntVar_of.

Definition add_func (self : list Z) (x : obj) : M obj :=
  converting IntVar_of x (fun x =>
    F ← gets FALSE_BOOL;
    bits ← gets BITS;
    ls ← nonfalse F self 0 bits;
    lx ← nonfalse F x 0 bits;
    max_bit ← py_max (ls ++ lx ++ [-1]);
    _ ← IntVar_of (PyInt 0);                      (* result = IntVar(0) *)
    result ← map_M (fun i => if decide (i > max_bit + 1) then mret F
                             else r ← BoolVar_new; index_of r) bits;
    _ ← constrain_sum self x result;
    mret (OIntVar result)).

Definition IntVar_add (self : list Z) (x : obj) : M obj :=
  memoized_symmetric "IntVar.__add__" (imethod add_func) [OIntVar self; x].

Definition sub_func (self : list Z) (x : obj) : M obj :=
  converting IntVar_of x (fun x =>
    result ← IntVar_of PyNone;
    _ ← constrain_sum result x self;
    mret (OIntVar result)).

Definition IntVar_sub (self : list Z) (x : obj) : M obj :=
  memoized "IntVar.__sub__" (imethod sub_func) [OIntVar self; x].

(** [__rsub__ = __sub__]: the reflected method is the same memoized
    object, with the same dictionary. *)
Definition IntVar_rsub : list Z -> obj -> M obj := IntVar_sub.

(** [bits[:n]] and [bits[n:]] with Python's reading of a negative [n]. *)
Definition slice_to {A} (l : list A) (n : Z) : list A :=
  if decide (n < 0) then take (Z.to_nat (len l + n)) l else take (Z.to_nat n) l.
Definition slice_from {A} (l : list A) (n : Z) : list A :=
  if decide (n < 0) then drop (Z.to_nat (len l + n)) l else drop (Z.to_nat n) l.

(** [[FALSE_BOOL for x in range(i)]] *)
Definition falses (F : Z) (i : Z) : list Z := replicate (Z.to_nat i) F.

(** An [int] argument of a shift: [assert type(i) is int]. *)
Definition shift_count (i : obj) : M Z :=
  match i with
  | PyInt i => mret i
  | _ => raise AssertionError
  end.

Definition lshift_func (self : list Z) (i : obj) : M obj :=
  i ← shift_count i;
  n ← gets NUM_BITS;
  if decide (i = 0) then mret (OIntVar self)
  else if decide (i >= n) then OIntVar <$> IntVar_of (PyInt 0)
  else
    _ ← IntVar_of (PyInt 0);
    F ← gets FALSE_BOOL;
    mret (OIntVar (falses F i ++ slice_to self (- i))).

Definition IntVar_lshift (self : list Z) (i : obj) : M obj :=
  memoized "IntVar.__lshift__" (imethod lshift_func) [OIntVar self; i].

Definition rshift_func (self : list Z) (i : obj) : M obj :=
  i ← shift_count i;
  _ ← IntVar_of (PyInt 0);
  F ← gets FALSE_BOOL;
  mret (OIntVar (slice_from self i ++ falses F i)).

Definition IntVar_rshift (self : list Z) (i : obj) : M obj :=
  memoized "IntVar.__rshift__" (imethod rshift_func) [OIntVar self; i].

(** *** Reading a model back *)

Definition BoolVar_value (solution : gset Z) (index : Z) : bool :=
  if decide (index > 0) then bool_decide (index ∈ solution)
  else bool_decide (- index ∉ solution).

(** [sum([(1 << i) for i in BITS if self.bits[i].value()])]; [None] is the
    [IndexError] of a bits list shorter than [BITS]. *)
Fixpoint IntVar_value_on (solution : gset Z) (bits : list Z) (idxs : list Z)
  : option Z :=
  match idxs with
  | [] => Some 0
  | i :: rest =>
      b ← bits !! Z.to_nat i;
      v ← IntVar_value_on solution bits rest;
      Some ((if BoolVar_value solution b then Z.shiftl 1 i else 0) + v)
  end.

Definition IntVar_value (s : state) (solution : gset Z) (bits : list Z) : option Z :=
  IntVar_value_on solution bits (BITS s).

(** ** Counting constraints *)

Definition at_least (n : Z) (bools : list obj) : M obj :=
  bools ← map_M BoolVar_of bools;
  result ← BoolVar_internal;
  r ← index_of result;
  _ ← add_weight_rule r n bools;
  mret result.

Definition at_most (n : Z) (bools : list obj) : M obj :=
  r ← at_least (n + 1) bools; py_invert r.

Definition sum_bools (n : Z) (bools : list obj) : M obj :=
  lo ← at_least n bools;
  hi ← at_most n bools;
  py_and lo hi.

(** ** MultiVar *)

(** The value -> BoolVar dictionary of a MultiVar.  The list order stands
    for the dictionary's iteration order, which is taken to be insertion
    order; CPython 2 iterates by hash slot instead, and nothing below is
    claimed about results that depend on that order. *)
Abbreviation dict := (list (host * Z)).

Fixpoint dict_get (d : dict) (k : host) : option Z :=
  match d with
  | [] => None
  | (k', v) :: rest => if decide (k' = k) then Some v else dict_get rest k
  end.

Fixpoint dict_set (d : dict) (k : host) (v : Z) : dict :=
  match d with
  | [] => [(k, v)]
  | (k', v') :: rest =>
      if decide (k' = k) then (k', v) :: rest else (k', v') :: dict_set rest k v
  end.

Definition to_host (x : obj) : option host :=
  match x with
  | PyBool b => Some (HNum (if b then 1 else 0))
  | PyInt z => Some (HNum z)
  | PyStr s => Some (HStr s)
  | _ => None
  end.

Definition is_variable (x : obj) : bool :=
  match x with
  | OBoolVar _ | OIntVar _ | OMultiVar _ => true
  | _ => false
  end.

(** [hash(v)]: only a list is unhashable. *)
Definition py_hash (v : obj) : M unit :=
  match v with
  | PyList _ => raise TypeError
  | _ => mret ()
  end.

(** A dictionary key must be a host value of the embedding: a variable
    or [None] used as the single value of a MultiVar is outside it. *)
Definition host_key (v : obj) : M host :=
  match to_host v with
  | Some h => mret h
  | None => raise OutsideModel
  end.

(** [MultiVar.__init__] on its argument tuple.  [RuntimeException] is not
    defined in the module, so the attempt to raise it is a [NameError].
    The loop [for v in set(values)] is run here over the distinct values
    in the order of their first occurrence; CPython walks the set by hash
    slot, so with two or more distinct values the literal that a value
    gets can differ from the code's ([MultiVar(2, 1)] gives 1 the first
    literal in CPython, 2 here).  The theorems on this function concern
    its error paths and argument lists with one distinct value, where
    there is one order only. *)
Definition MultiVar_init (values : list obj) : M dict :=
  _ ← for_each values py_hash;
  match values with
  | [] => mret []
  | [v] =>
      match v with
      | OMultiVar vals => mret vals
      | _ => h ← host_key v; T ← gets TRUE_BOOL; mret [(h, T)]
      end
  | _ =>
      if existsb is_variable values then raise NameError
      else
        keys ← map_M host_key values;
        vals ← foldl (fun acc v => d ← acc; r ← BoolVar_new; i ← index_of r;
                                   mret (dict_set d v i))
                     (mret []) (remove_dups keys);
        one ← sum_bools 1 (OBoolVar <$> vals.*2);
        _ ← require one;
        mret vals
  end.

(** ** Conditionals *)

(** [map(lambda c, a: c.cond(pred, a), cons.bits, alt.bits)]: Python 2 pads
    the shorter list with [None]. *)
Fixpoint cond_bits (pred : obj) (cons alt : list Z) : M (list Z) :=
  match cons with
  | [] =>
      match alt with
      | [] => mret []
      | _ :: _ => raise AttributeError             (* None.cond *)
      end
  | c :: cons' =>
      r ← BoolVar_cond c pred (match alt with a :: _ => OBoolVar a | [] => PyNone end);
      r ← index_of r;
      rest ← cond_bits pred cons' (tail alt);
      mret (r :: rest)
  end.

Definition IntVar_cond (cons : list Z) (pred alt : obj) : M obj :=
  pred ← BoolVar_of pred;
  alt ← IntVar_of alt;
  _ ← IntVar_of (PyInt 0);
  bits ← cond_bits (OBoolVar pred) cons alt;
  mret (OIntVar bits).

Definition MultiVar_cond (cons : dict) (pred alt : obj) : M obj :=
  pred ← BoolVar_of pred;
  alt ← MultiVar_init [alt];
  result ← foldl (fun acc '(v, b) =>
                    d ← acc;
                    r ← py_and (OBoolVar pred) (OBoolVar b);
                    r ← index_of r;
                    mret (dict_set d v r))
                 (mret []) cons;
  result ← foldl (fun acc '(v, b) =>
                    d ← acc;
                    match dict_get d v with
                    | Some old =>
                        np ← py_invert (OBoolVar pred);
                        t ← py_and np (OBoolVar b);
                        r ← py_or (OBoolVar old) t;
                        r ← index_of r;
                        mret (dict_set d v r)
                    | None =>
                        np ← py_invert (OBoolVar pred);
                        r ← py_and np (OBoolVar b);
                        r ← index_of r;
                        mret (dict_set d v r)
                    end)
                 (mret result) alt;
  mret (OMultiVar result).

Definition boolish (x : obj) : bool :=       (* isinstance(x, BoolVar) or type(x) is bool *)
  match x with OBoolVar _ | PyBool _ => true | _ => false end.
Definition is_IntVar (x : obj) : bool :=
  match x with OIntVar _ => true | _ => false end.
Definition is_int (x : obj) : bool :=
  match x with PyInt _ => true | _ => false end.

Definition cond_func (args : list obj) : M obj :=
  match args with
  | [pred; cns; alt] =>
      match pred with
      | PyBool b => mret (if b then cns else alt)
      | _ =>
          pred ← BoolVar_of pred;
          T ← gets TRUE_BOOL; F ← gets FALSE_BOOL;
          if decide (pred = T) then mret cns
          else if decide (pred = F) then mret alt
          else if boolish cns && boolish alt then
            cns ← BoolVar_of cns;
            BoolVar_cond cns (OBoolVar pred) alt
          else if is_IntVar cns || is_IntVar alt || (is_int cns && is_int alt) then
            cns ← IntVar_of cns;
            IntVar_cond cns (OBoolVar pred) alt
          else
            cns ← MultiVar_init [cns];
            MultiVar_cond cns (OBoolVar pred) alt
      end
  | _ => raise TypeError
  end.

Definition cond (pred cons alt : obj) : M obj :=
  memoized "cond" cond_func [pred; cons; alt].

(** ** MultiVar comparisons *)

(** All pairs of entries, [a]'s entries in the outer loop. *)
Definition pairs (a b : dict) : list ((host * Z) * (host * Z)) :=
  a ≫= fun x => (fun y => (x, y)) <$> b.

Definition boolean_op (a : dict) (op : host -> host -> bool) (b : obj) : M obj :=
  b ← match b with
      | OMultiVar vals => mret vals
      | _ => MultiVar_init [b]
      end;
  let true_count := len (List.filter (fun '(x, y) => op x.1 y.1) (pairs a b)) in
  let false_count := len (List.filter (fun '(x, y) => negb (op x.1 y.1)) (pairs a b)) in
  let invert := bool_decide (false_count < true_count) in
  terms ← map_M (fun '(x, y) =>
                   let term := xorb (op x.1 y.1) invert in
                   both ← py_and (OBoolVar x.2) (OBoolVar y.2);
                   cond (PyBool term) both (PyBool false))
                (pairs a b);
  match terms with
  | _ :: _ =>
      result ← reduce py_or terms;
      r ← BoolVar_of result;
      BoolVar_xor r (PyBool invert)
  | [] =>
      F ← gets FALSE_BOOL;
      BoolVar_xor F (PyBool invert)
  end.

(** A method of MultiVar called with [self = a]. *)
Definition mmethod (f : dict -> obj -> M obj) (args : list obj) : M obj :=
  match args with
  | [OMultiVar a; b] => f a b
  | _ => raise TypeError
  end.

Definition host_eqb (x y : host) : bool := bool_decide (x = y).

Definition MultiVar_eq (a : dict) (b : obj) : M obj :=
  memoized_symmetric "MultiVar.__eq__"
    (mmethod (fun a b => boolean_op a host_eqb b)) [OMultiVar a; b].

Definition MultiVar_ne (a : dict) (b : obj) : M obj :=
  r ← MultiVar_eq a b; py_invert r.

Fixpoint MultiVar_value (solution : gset Z) (vals : dict) : host :=
  match vals with
  | [] => HStr "???"
  | (v, b) :: rest =>
      if BoolVar_value solution b then v else MultiVar_value solution rest
  end.

(** ** The rule program and its answers *)

(** The rules are kept as the integer sequences that [solve] writes to the
    solver.  An answer is read here as a set [m] of true atoms that (1)
    leaves atom 1 - the false head, excluded by the compute statement -
    out, (2) satisfies every rule, and (3) contains only supported atoms:
    every true atom is a head of some rule whose body holds in [m].  Every
    stable model of the program is such a set, so what holds of all of them
    holds of every model the solver can print. *)

(** The body [n negatives, then positives] of a basic or choice rule. *)
Definition basic_body (m : gset Z) (n : Z) (lits : list Z) : bool :=
  forallb (fun x => bool_decide (x ∉ m)) (take (Z.to_nat n) lits)
  && forallb (fun x => bool_decide (x ∈ m)) (drop (Z.to_nat n) lits).

(** The weights of the literals that hold, for the first [l] literals of
    [lits], of which the first [n] are negative; the weights follow. *)
Definition weight_sum (m : gset Z) (l n : Z) (lits : list Z) : Z :=
  let body := take (Z.to_nat l) lits in
  let weights := drop (Z.to_nat l) lits in
  foldr Z.add 0
    (imap (fun i x =>
             let sat := if decide (i < Z.to_nat n)%nat
                        then bool_decide (x ∉ m) else bool_decide (x ∈ m) in
             if sat then default 0 (weights !! i) else 0) body).

(** The number of distinct literals of the body that hold. *)
Definition constraint_count (m : gset Z) (n : Z) (lits : list Z) : Z :=
  len (List.filter (fun x => bool_decide (x ∉ m)) (remove_dups (take (Z.to_nat n) lits)))
  + len (List.filter (fun x => bool_decide (x ∈ m)) (remove_dups (drop (Z.to_nat n) lits))).

Definition rule_heads (vals : list Z) : list Z :=
  match vals with
  | 1 :: h :: _ => [h]
  | 2 :: h :: _ => [h]
  | 5 :: h :: _ => [h]
  | 3 :: k :: rest => take (Z.to_nat k) rest
  | _ => []
  end.

Definition rule_body (m : gset Z) (vals : list Z) : bool :=
  match vals with
  | 1 :: _ :: _ :: n :: lits => basic_body m n lits
  | 2 :: _ :: _ :: n :: bound :: lits => bool_decide (bound ≤ constraint_count m n lits)
  | 5 :: _ :: bound :: l :: n :: lits => bool_decide (bound ≤ weight_sum m l n lits)
  | 3 :: k :: rest =>
      match drop (Z.to_nat k) rest with
      | _ :: n :: lits => basic_body m n lits
      | _ => false
      end
  | _ => false
  end.

Definition is_choice (vals : list Z) : bool :=
  match vals with 3 :: _ => true | _ => false end.

Definition rule_ok (m : gset Z) (vals : list Z) : bool :=
  is_choice vals || negb (rule_body m vals)
  || forallb (fun h => bool_decide (h ∈ m)) (rule_heads vals).

Definition supported (m : gset Z) (rules : list (list Z)) (a : Z) : bool :=
  existsb (fun vals => bool_decide (a ∈ rule_heads vals) && rule_body m vals) rules.

Definition answer (rules : list (list Z)) (m : gset Z) : Prop :=
  (1 ∉ m) ∧ Forall (fun vals => rule_ok m vals) rules
  ∧ (∀ a, a ∈ m -> supported m rules a).

Definition answerb (rules : list (list Z)) (m : gset Z) : bool :=
  bool_decide (1 ∉ m) && forallb (rule_ok m) rules
  && forallb (supported m rules) (elements m).

(** ** The solver driver *)

Section Solver.
  (** The external solver, as far as [solve] reads it: from the rules and
      the number of literals to the atoms of its [v] line, if it prints
      one. *)
Variable clasp : list (list Z) -> Z -> option (gset Z).

Definition solve : M bool := fun s =>
    match clasp (clasp_rules s) (last_bool s) with
    | Some m => Ok true (set_solution m s)
    | None => Ok false s
    end.
End Solver.

(** A solver by exhaustive search over the atoms [2 .. last_bool]. *)
Fixpoint candidates (atoms : list Z) : list (gset Z) :=
  match atoms with
  | [] => [∅]
  | a :: rest => candidates rest ++ ((fun m => {[a]} ∪ m) <$> candidates rest)
  end.

Definition search (rules : list (list Z)) (n : Z) : option (gset Z) :=
  List.find (answerb rules)
            (candidates ((fun i => Z.of_nat i + 2) <$> seq 0 (Z.to_nat (n - 1)))).

(** Running a computation [k] times in a row. *)
Fixpoint repeat_M {A} (k : nat) (m : M A) : M unit :=
  match k with
  | O => mret ()
  | S k' => _ ← m; repeat_M k' m
  end.

(** [optimize(H, optimize(H, B))]: the optimizer applied to the literals it
    returned; a skipped rule has no literals to apply it to. *)
Definition optimize_twice (hd : Z) (literals : list Z) : M (option (list Z)) :=
  r ← optimize_basic_rule hd literals;
  match r with
  | Some literals' => optimize_basic_rule hd literals'
  | None => mret None
  end.

(** * Properties *)

(** ** The optimizer *)

Lemma optimize_rule_step hd literals sv :
  optimize_rule hd literals sv =
  match optimize_body hd literals sv with
  | Return r sv' => (r, sv')
  | Recurse new_literals => optimize_rule hd new_literals sv
  end.
Proof.
  funelim (optimize_rule hd literals sv).
  - by rewrite e.
  - by rewrite Hstep.
Qed.

Lemma optimize_rule_last hd literals sv r sv' :
  optimize_rule hd literals sv = (r, sv') ->
  ∃ last, optimize_body hd last sv = Return r sv'.
Proof.
  remember (length literals) as n eqn:Hn.
  revert literals Hn. induction (lt_wf n) as [n _ IH]. intros literals -> Hrule.
  rewrite optimize_rule_step in Hrule.
  destruct (optimize_body hd literals sv) as [r0 sv0|nl] eqn:Hbody.
  - injection Hrule as -> ->. eauto.
  - eapply (IH (length nl)); eauto using optimize_body_recurse.
Qed.

Lemma optimize_scan_return sv literals rest r sv' :
  optimize_scan sv literals rest = Return (Some r) sv' ->
  r = literals ∧ sv' = sv.
Proof.
  induction rest as [|x rest IH]; simpl.
  - by intros [= <- <-].
  - by repeat case_decide.
Qed.

(** A fact is a rule that the optimizer records in the known-true set: an
    empty body, or a headless rule with a single literal. *)
Definition is_fact (hd : Z) (literals : list Z) : Prop :=
  literals = [] ∨ (hd = 1 ∧ length literals = 1%nat).

#[global] Instance is_fact_dec hd literals : Decision (is_fact hd literals).
Proof. unfold is_fact. apply _. Defined.

Lemma optimize_body_again hd last sv literals sv' :
  optimize_body hd last sv = Return (Some literals) sv' ->
  optimize_body hd literals sv' =
    Return (if decide (is_fact hd literals) then None else Some literals) sv'.
Proof.
  unfold optimize_body, is_fact. destruct last as [|l0 tl].
  - case_decide; [done|]. intros [= <- <-].
    destruct (decide (hd ∈ {[hd]} ∪ sv)) as [_|Hn]; [|set_solver].
    by rewrite decide_True by auto.
  - destruct (decide (hd = 1 ∧ tl = [])) as [[-> ->]|Hne].
    + case_decide; [done|]. intros [= <- <-]. simpl.
      by rewrite decide_True by set_solver.
    + destruct (decide (hd = 1)) as [->|Hhd].
      * intros Hscan. destruct (optimize_scan_return _ _ _ _ _ Hscan) as [-> ->].
        destruct (decide (1 = 1 ∧ tl = [])); [done|].
        destruct (decide (1 = 1)); [|done].
        rewrite Hscan. rewrite decide_False; [done|].
        intros [?|[_ Hlen]]; [done|].
        destruct tl; [naive_solver|done].
      * intros [= <- <-].
        destruct (decide (hd = 1 ∧ tl = [])); [done|].
        destruct (decide (hd = 1)); [done|].
        rewrite decide_False; [done|]. by intros [?|[? _]].
Qed.

(** C7, as amended: applied again to its own output, in the state the
    first application left, the optimizer leaves the known-true set as it
    is and returns the same literals - unless the rule is a fact, which
    the first application recorded and the second therefore drops. *)
Theorem optimize_twice_spec (hd : Z) (literals : list Z) (s : state) :
  optimize_twice hd literals s =
  match optimize_basic_rule hd literals s with
  | Ok (Some literals') s1 =>
      Ok (if decide (is_fact hd literals') then None else Some literals') s1
  | r => r
  end.
Proof.
  unfold optimize_twice, mbind, M_bind, optimize_basic_rule.
  destruct (optimize_rule hd literals (single_vars s)) as [[literals'|] sv1] eqn:H1;
    [|done].
  apply optimize_rule_last in H1 as [last Hlast].
  apply optimize_body_again in Hlast. simpl.
  rewrite optimize_rule_step, Hlast. done.
Qed.

(** C7, as stated, fails on a fact: the first application emits it and
    records its head, the second drops it. *)
Lemma optimize_twice_differs :
  optimize_twice 5 [] boot ≠ optimize_basic_rule 5 [] boot.
Proof. vm_compute. discriminate. Qed.

(** ** The bit width *)

Lemma repeat_new_literal (k : nat) (s : state) :
  repeat_M k new_literal s = Ok () (set_last_bool (last_bool s + Z.of_nat k) s).
Proof.
  revert s. induction k as [|k IH]; intros s.
  - simpl. unfold mret, M_ret. f_equal. destruct s; unfold set_last_bool; simpl.
    f_equal. lia.
  - transitivity (repeat_M k new_literal (set_last_bool (last_bool s + 1) s)); [done|].
    rewrite IH. f_equal. unfold set_last_bool; simpl. f_equal. lia.
Qed.

(** C9: [set_bits n] raises exactly when the literal counter exceeds 2,
    which after a reset means exactly that some literal has been allocated;
    when it raises it leaves the state, [NUM_BITS] included, as it was,
    and otherwise it sets [NUM_BITS] to [n] and changes nothing else. *)
Theorem set_bits_guard (n : Z) (s : state) (k : nat) :
  set_bits n s =
    (if decide (last_bool s > 2) then Raise RuntimeError s
     else Ok () (set_NUM_BITS n s))
  ∧ NUM_BITS (set_NUM_BITS n s) = n
  ∧ ((∃ e s', set_bits n s = Raise e s') ↔ last_bool s > 2)
  ∧ last_bool (state_of (repeat_M k new_literal boot)) = 2 + Z.of_nat k
  ∧ ((∃ e s', set_bits n (state_of (repeat_M k new_literal boot)) = Raise e s')
     ↔ (0 < k)%nat).
Proof.
  assert (Hdef : set_bits n s =
    (if decide (last_bool s > 2) then Raise RuntimeError s
     else Ok () (set_NUM_BITS n s))).
  { unfold set_bits, mbind, M_bind, gets. by case_decide. }
  assert (Hiff : ∀ s0, (∃ e s', set_bits n s0 = Raise e s') ↔ last_bool s0 > 2).
  { intros s0. unfold set_bits, mbind, M_bind, gets.
    destruct (decide (last_bool s0 > 2)); split; [done|eauto| |done].
    by intros (? & ? & ?). }
  assert (Hboot : last_bool boot = 2) by (vm_compute; reflexivity).
  rewrite repeat_new_literal.
  cbn [state_of]. rewrite (Hiff (set_last_bool _ boot)).
  cbn [last_bool set_last_bool]. rewrite Hboot.
  split; [done|]. split; [done|]. split; [apply Hiff|].
  split; [done|]. lia.
Qed.

(** ** Shifts and the length of the bits list *)

Lemma len_app {A} (l1 l2 : list A) : len (l1 ++ l2) = len l1 + len l2.
Proof. unfold len. rewrite length_app. lia. Qed.

Lemma len_BITS s : 0 ≤ NUM_BITS s -> len (BITS s) = NUM_BITS s.
Proof.
  intros H. unfold len, BITS. rewrite length_fmap, length_seq. lia.
Qed.

Lemma IntVar_of_zero s :
  0 ≤ NUM_BITS s ->
  IntVar_of (PyInt 0) s = Ok ((fun _ => FALSE_BOOL s) <$> BITS s) s.
Proof.
  intros Hn. unfold IntVar_of, IntVar_of_const, py_shiftr, mbind, M_bind, gets.
  destruct (decide (NUM_BITS s < 0)); [lia|]. unfold mret, M_ret.
  rewrite Z.shiftr_0_l. simpl. unfold mret, M_ret. f_equal.
  apply list_fmap_ext. intros i x _. by rewrite Z.testbit_0_l.
Qed.

(** *** The two outcomes of a memoized call *)

Lemma memo_call_hit name key func args s v :
  memo_caches s !! (name, key) = Some v ->
  memo_call name (Some key) func args s = Ok v s.
Proof.
  intros H. unfold memo_call, mbind, M_bind, gets. by rewrite H.
Qed.

Lemma memo_call_miss name key func args s :
  memo_caches s !! (name, key) = None ->
  memo_call name (Some key) func args s =
  match func args s with
  | Ok v s' => Ok v (set_memo_caches (<[(name, key) := v]> (memo_caches s')) s')
  | Raise e s' => Raise e s'
  end.
Proof.
  intros H. unfold memo_call, mbind, M_bind, gets. rewrite H.
  by destruct (func args s).
Qed.

(** C5, on the code: a right shift by [i >= 0] that is not answered from
    the memoization dictionary returns a bits list of length
    [max i NUM_BITS] - longer than [NUM_BITS] as soon as [i > NUM_BITS],
    where the left shift clamps. *)
Theorem rshift_length (self : list Z) (i : Z) (s : state) :
  0 ≤ NUM_BITS s ->
  len self = NUM_BITS s ->
  0 ≤ i ->
  memo_caches s !! ("IntVar.__rshift__", [KIntVar self; KNum i]) = None ->
  ∃ bits s', IntVar_rshift self (PyInt i) s = Ok (OIntVar bits) s'
             ∧ len bits = Z.max i (NUM_BITS s)
             ∧ NUM_BITS s' = NUM_BITS s.
Proof.
  intros Hn Hlen Hi Hmiss.
  unfold IntVar_rshift, memoized. cbn [mapM hash_object mbind option_bind mret option_ret].
  rewrite memo_call_miss by done.
  unfold imethod, rshift_func, shift_count.
  unfold mbind, M_bind, mret at 1, M_ret at 1.
  rewrite IntVar_of_zero by done.
  eexists _, _. split; [reflexivity|]. split; [|done].
  rewrite len_app. unfold slice_from, falses.
  destruct (decide (i < 0)); [lia|].
  unfold len in *. rewrite length_drop, length_replicate. lia.
Qed.

Lemma rshift_length_witness :
  ∃ bits s', IntVar_rshift ((fun _ => FALSE_BOOL boot) <$> BITS boot) (PyInt 17) boot
               = Ok (OIntVar bits) s'
             ∧ len bits = Z.max 17 (NUM_BITS boot)
             ∧ NUM_BITS s' = NUM_BITS boot.
Proof.
  apply (rshift_length ((fun _ => FALSE_BOOL boot) <$> BITS boot) 17 boot);
    vm_compute; congruence.
Defined.

(** ** The ordering of hashes is a total order *)

Section LexOrder.
Context {A : Type} `{EqDecision A} (R : relation A).
Context `{!PartialOrder R, !Total R}.

#[global] Instance lex_le_refl : Reflexive (lex_le R).
  Proof. intros l. induction l as [|x l IH]; simpl; [done|]. by rewrite decide_True. Qed.

#[global] Instance lex_le_trans : Transitive (lex_le R).
  Proof.
    intros l1. induction l1 as [|x l1 IH]; intros [|y l2] [|z l3]; simpl; try done.
    repeat case_decide; subst; try done.
    - apply IH.
    - intros Hxy' Hyz'. exfalso. by apply H, (anti_symm R).
    - by etrans.
  Qed.

#[global] Instance lex_le_antisym : AntiSymm (=) (lex_le R).
  Proof.
    intros l1. induction l1 as [|x l1 IH]; intros [|y l2]; simpl; try done.
    destruct (decide (x = y)) as [->|Hxy].
    - rewrite decide_True by done. intros H1 H2. f_equal. by apply IH.
    - rewrite decide_False by done. intros H1 H2. destruct Hxy.
      by apply (anti_symm R).
  Qed.

#[global] Instance lex_le_total : Total (lex_le R).
  Proof.
    intros l1. induction l1 as [|x l1 IH]; intros [|y l2]; simpl; auto.
    destruct (decide (x = y)) as [->|Hxy].
    - rewrite decide_True by done. apply IH.
    - rewrite decide_False by done. apply (total R).
  Qed.
End LexOrder.

#[local] Instance host_le_po : PartialOrder host_le.
Proof.
  split; [split|].
  - intros [z|s]; simpl; [lia|done].
  - intros [x|s] [y|t] [z|u]; simpl; try done; [lia|apply transitivity].
  - intros [x|s] [y|t]; simpl; try done.
    + intros. f_equal. lia.
    + intros. f_equal. by apply (anti_symm String.le).
Qed.

#[local] Instance host_le_total : Total host_le.
Proof.
  intros [x|s] [y|t]; simpl; auto; [lia|apply (total String.le)].
Qed.

#[local] Instance pair_le_po : PartialOrder pair_le.
Proof.
  unfold pair_le. split; [split|].
  - intros [h i]. simpl. by rewrite decide_True.
  - intros [h1 i1] [h2 i2] [h3 i3]; simpl.
    destruct (decide (h1 = h2)) as [->|H12], (decide (h2 = h3)) as [->|H23];
      try rewrite decide_True by done; try rewrite decide_False by done;
      try done; try lia.
    intros Ha Hb. destruct (decide (h1 = h3)) as [->|H13].
    + destruct H12. by apply (anti_symm host_le).
    + by etrans.
  - intros [h1 i1] [h2 i2]; simpl.
    destruct (decide (h1 = h2)) as [->|H12].
    + rewrite decide_True by done. intros. f_equal. lia.
    + rewrite decide_False by done. intros. destruct H12.
      by apply (anti_symm host_le).
Qed.

#[local] Instance pair_le_total : Total pair_le.
Proof.
  unfold pair_le. intros [h1 i1] [h2 i2]; simpl.
  destruct (decide (h1 = h2)) as [->|H12].
  - rewrite decide_True by done. lia.
  - rewrite decide_False by done. apply (total host_le).
Qed.

#[local] Instance Z_le_total : Total Z.le.
Proof. intros x y. lia. Qed.

#[local] Instance hash_le_po : PartialOrder hash_le.
Proof.
  split; [split|].
  - intros []; simpl; try done; try lia; apply reflexivity.
  - intros [] [] []; simpl; try done; try lia; apply transitivity.
  - intros [] []; simpl; try done; try lia; intros; f_equal; try lia.
    + by apply (anti_symm String.le).
    + by apply (anti_symm (lex_le Z.le)).
    + by apply (anti_symm (lex_le pair_le)).
Qed.

#[local] Instance hash_le_total : Total hash_le.
Proof.
  intros [] []; simpl; try lia; try apply (total _); auto.
Qed.

Lemma sorted_permutation (l1 l2 : list hashobj) :
  l1 ≡ₚ l2 -> sorted l1 = sorted l2.
Proof.
  intros Hp. unfold sorted.
  apply (StronglySorted_unique hash_le).
  - apply StronglySorted_merge_sort; apply _.
  - apply StronglySorted_merge_sort; apply _.
  - by rewrite !merge_sort_Permutation.
Qed.

(** ** Memoization *)

Lemma memo_call_stored name key func args s v s1 :
  memo_call name (Some key) func args s = Ok v s1 ->
  memo_caches s1 !! (name, key) = Some v.
Proof.
  intros Hcall.
  destruct (memo_caches s !! (name, key)) as [v0|] eqn:Hlook.
  - rewrite (memo_call_hit _ _ _ _ _ _ Hlook) in Hcall.
    by injection Hcall as <- <-.
  - rewrite memo_call_miss in Hcall by done.
    destruct (func args s) as [v' s'|]; [|done].
    injection Hcall as <- <-. simpl. apply lookup_insert_eq.
Qed.

(** The call protocol of the two decorators. *)
Definition decorated (symmetric : bool) :=
  if symmetric then memoized_symmetric else memoized.

(** The state with two fresh BoolVars, numbered 3 and 4. *)
Definition two_bools : state :=
  state_of ((_ ← BoolVar_new; BoolVar_new) boot).

(** The state with three fresh BoolVars, numbered 3, 4 and 5. *)
Definition three_bools : state :=
  state_of ((_ ← BoolVar_new; _ ← BoolVar_new; BoolVar_new) boot).

(** ** Answers *)

Lemma answerb_spec rules m : answerb rules m = true ↔ answer rules m.
Proof.
  unfold answerb, answer. rewrite !andb_true_iff, bool_decide_eq_true.
  rewrite !forallb_forall, Forall_forall.
  split.
  - intros [[H1 H2] H3]. repeat split; [done| |].
    + intros x Hx%list_elem_of_In. apply Is_true_true. auto.
    + intros a Ha. apply Is_true_true, H3, list_elem_of_In. by apply elem_of_elements.
  - intros (H1 & H2 & H3). repeat split; [done| |].
    + intros x Hx%list_elem_of_In. apply Is_true_true. auto.
    + intros a Ha%list_elem_of_In%elem_of_elements. apply Is_true_true. auto.
Qed.

Lemma search_sound rules n m : search rules n = Some m -> answer rules m.
Proof.
  unfold search. intros [_ H]%List.find_some. by apply answerb_spec.
Qed.

(** A program that requires both the TRUE sentinel and its negation has no
    answer. *)
Lemma contradiction_unsat rules (t : Z) :
  t ≠ 1 ->
  [1; 1; 1; 1; t] ∈ rules -> [1; 1; 1; 0; t] ∈ rules ->
  ∀ m, ¬ answer rules m.
Proof.
  intros Ht Hpos Hneg m (H1 & Hok & _).
  rewrite Forall_forall in Hok.
  pose proof (Hok _ Hpos) as Hp. pose proof (Hok _ Hneg) as Hn.
  unfold rule_ok, rule_body, basic_body in Hp, Hn. simpl in Hp, Hn.
  destruct (decide (t ∈ m)) as [Hin|Hout].
  - rewrite (bool_decide_eq_true_2 (t ∈ m)) in Hn by done.
    rewrite bool_decide_eq_false_2 in Hn by done. done.
  - rewrite (bool_decide_eq_true_2 (t ∉ m)) in Hp by done.
    rewrite bool_decide_eq_false_2 in Hp by done. done.
Qed.

(** C8: after a reset, [a = MultiVar('x')] allocates nothing, [a != 'x']
    is the FALSE sentinel, requiring it leaves a program without any
    answer, and [solve], with any solver that only prints answers,
    returns False. *)
Theorem negation_guard (clasp : list (list Z) -> Z -> option (gset Z)) :
  (∀ rules n m, clasp rules n = Some m -> answer rules m) ->
  ∃ s1 s2,
    MultiVar_init [PyStr "x"] boot = Ok [(HStr "x", TRUE_BOOL boot)] boot
    ∧ MultiVar_ne [(HStr "x", TRUE_BOOL boot)] (PyStr "x") boot
      = Ok (OBoolVar (FALSE_BOOL boot)) s1
    ∧ require (OBoolVar (FALSE_BOOL boot)) s1 = Ok () s2
    ∧ (∀ m, ¬ answer (clasp_rules s2) m)
    ∧ solve clasp s2 = Ok false s2.
Proof.
  intros Hsound.
  eexists _, _. split; [reflexivity|].
  split; [vm_compute; reflexivity|].
  split; [vm_compute; reflexivity|].
  assert (Hunsat : ∀ m, ¬ answer [[3; 1; 2; 0; 0]; [1; 1; 1; 1; 2]; [1; 1; 1; 0; 2]] m).
  { apply (contradiction_unsat _ 2); [done| |]; set_solver. }
  split; [exact Hunsat|].
  unfold solve. cbn [clasp_rules last_bool].
  destruct (clasp _ _) as [m|] eqn:Hc; [|reflexivity].
  apply Hsound in Hc. by apply Hunsat in Hc.
Qed.

Lemma negation_guard_witness :
  ∃ s1 s2,
    MultiVar_init [PyStr "x"] boot = Ok [(HStr "x", TRUE_BOOL boot)] boot
    ∧ MultiVar_ne [(HStr "x", TRUE_BOOL boot)] (PyStr "x") boot
      = Ok (OBoolVar (FALSE_BOOL boot)) s1
    ∧ require (OBoolVar (FALSE_BOOL boot)) s1 = Ok () s2
    ∧ (∀ m, ¬ answer (clasp_rules s2) m)
    ∧ solve search s2 = Ok false s2.
Proof. apply (negation_guard search). exact search_sound. Defined.

(** ** The five memoized BoolVar operators, uniformly *)

Inductive bool_op := OpEq | OpAnd | OpOr | OpXor | OpGt.

Definition BoolVar_op (o : bool_op) : Z -> obj -> M obj :=
  match o with
  | OpEq => BoolVar_eq
  | OpAnd => BoolVar_and
  | OpOr => BoolVar_or
  | OpXor => BoolVar_xor
  | OpGt => BoolVar_gt
  end.

Definition op_func (o : bool_op) : (obj -> M Z) -> Z -> obj -> M obj :=
  match o with
  | OpEq => eq_func
  | OpAnd => and_func
  | OpOr => or_func
  | OpXor => xor_func
  | OpGt => gt_func
  end.

Definition op_name (o : bool_op) : string :=
  match o with
  | OpEq => "BoolVar.__eq__"
  | OpAnd => "BoolVar.__and__"
  | OpOr => "BoolVar.__or__"
  | OpXor => "BoolVar.__xor__"
  | OpGt => "BoolVar.__gt__"
  end.

Definition op_symmetric (o : bool_op) : bool :=
  match o with OpGt => false | _ => true end.

(** The key under which [a op b] is memoized. *)
Definition op_key (o : bool_op) (key : list hashobj) : list hashobj :=
  if op_symmetric o then sorted key else key.

(** What the operator returns when its second operand converts to the
    TRUE sentinel ([sentinel = true]) or to the FALSE sentinel. *)
Definition folded (o : bool_op) (sentinel : bool) (a T F : Z) : Z :=
  match o, sentinel with
  | OpEq, true => a
  | OpEq, false => - a
  | OpAnd, true => a
  | OpAnd, false => F
  | OpOr, true => T
  | OpOr, false => a
  | OpXor, true => - a
  | OpXor, false => a
  | OpGt, true => F
  | OpGt, false => a
  end.

(** The bodies of the basic rules that define the result otherwise. *)
Definition op_bodies (o : bool_op) (a b : Z) : list (list Z) :=
  match o with
  | OpEq => [[a; b]; [- a; - b]]
  | OpAnd => [[a; b]]
  | OpOr => [[a]; [b]]
  | OpXor => [[a; - b]; [b; - a]]
  | OpGt => [[a; - b]]
  end.

(** The truth table of the operator. *)
Definition op_sem (o : bool_op) (x y : bool) : bool :=
  match o with
  | OpEq => eqb x y
  | OpAnd => x && y
  | OpOr => x || y
  | OpXor => xorb x y
  | OpGt => x && negb y
  end.

(** The common shape of the five decorated functions. *)
Definition folding_func (o : bool_op) (conv : obj -> M Z) (a : Z) (b : obj) : M obj :=
  b ← conv b;
  T ← gets TRUE_BOOL; F ← gets FALSE_BOOL;
  if decide (b = T) then mret (OBoolVar (folded o true a T F))
  else if decide (b = F) then mret (OBoolVar (folded o false a T F))
  else
    r ← new_literal;
    _ ← for_each (op_bodies o a b) (add_basic_rule r);
    mret (OBoolVar r).

Lemma op_func_folding o conv a b s :
  op_func o conv a b s = folding_func o conv a b s.
Proof.
  destruct o; unfold op_func, folding_func, eq_func, and_func, or_func,
    xor_func, gt_func, mbind, M_bind, gets;
    (destruct (conv b s) as [b' s'|]; [|done]);
    repeat case_decide; try done; unfold new_literal, mbind, M_bind, modify, gets;
    cbn [op_bodies for_each]; unfold mbind, M_bind;
    repeat (match goal with
            | |- context [add_basic_rule ?r ?l ?s] =>
                destruct (add_basic_rule r l s); try done
            end).
Qed.

Lemma memo_call_ext name key f g args s :
  (∀ s', f args s' = g args s') ->
  memo_call name key f args s = memo_call name key g args s.
Proof.
  intros Hfg. unfold memo_call. destruct key as [key|]; [|apply Hfg].
  unfold mbind, M_bind, gets. destruct (memo_caches s !! _); [done|].
  by rewrite Hfg.
Qed.

Lemma BoolVar_op_unfold o a b s :
  BoolVar_op o a b s =
  memo_call (op_name o) (op_key o <$> mapM hash_object [OBoolVar a; b])
            (method (folding_func o BoolVar_of)) [OBoolVar a; b] s.
Proof.
  transitivity (memo_call (op_name o) (op_key o <$> mapM hash_object [OBoolVar a; b])
                  (method (op_func o BoolVar_of)) [OBoolVar a; b] s).
  - destruct o; try reflexivity.
    unfold BoolVar_op, BoolVar_gt, gt_with, memoized, op_key, op_symmetric.
    by destruct (mapM hash_object [OBoolVar a; b]).
  - apply memo_call_ext. intros s'. apply op_func_folding.
Qed.

(** ** Constant folding *)

(** The state with one fresh BoolVar, numbered 3. *)
Definition one_bool : state := state_of (BoolVar_new boot).

(** Folding on the second operand: when the second operand is the TRUE
    or the FALSE sentinel, each of [==], [&], [|], [^] and [>] allocates no literal,
    appends no rule and records no fact; and unless a result is already
    memoized for these operands it returns the simplified result. *)
Theorem constant_folding (o : bool_op) (a : Z) (sentinel : bool) (s : state) :
  TRUE_BOOL s ≠ FALSE_BOOL s ->
  ∃ r s',
    BoolVar_op o a (OBoolVar (if sentinel then TRUE_BOOL s else FALSE_BOOL s)) s
      = Ok r s'
    ∧ last_bool s' = last_bool s
    ∧ clasp_rules s' = clasp_rules s
    ∧ single_vars s' = single_vars s
    ∧ (memo_caches s !! (op_name o,
         op_key o [KBoolVar a;
                   KBoolVar (if sentinel then TRUE_BOOL s else FALSE_BOOL s)]) = None ->
       r = OBoolVar (folded o sentinel a (TRUE_BOOL s) (FALSE_BOOL s))).
Proof.
  intros Hne. rewrite BoolVar_op_unfold.
  cbn [mapM hash_object mbind option_bind mret option_ret fmap option_fmap option_map].
  set (b := if sentinel then TRUE_BOOL s else FALSE_BOOL s).
  destruct (memo_caches s !! (op_name o, op_key o [KBoolVar a; KBoolVar b]))
    as [v|] eqn:Hlook.
  - rewrite (memo_call_hit _ _ _ _ _ _ Hlook). by eexists _, _.
  - rewrite memo_call_miss by done.
    assert (Hf : method (folding_func o BoolVar_of) [OBoolVar a; OBoolVar b] s
                 = Ok (OBoolVar (folded o sentinel a (TRUE_BOOL s) (FALSE_BOOL s))) s).
    { unfold method, folding_func, mbind, M_bind, gets. cbn [BoolVar_of BoolVar_of_const].
      unfold mret, M_ret. subst b. destruct sentinel.
      - by rewrite decide_True.
      - rewrite decide_False by done. by rewrite decide_True. }
    rewrite Hf. by eexists _, _.
Qed.

Lemma constant_folding_witness :
  ∃ r s',
    BoolVar_op OpAnd 3 (OBoolVar (if true then TRUE_BOOL one_bool else FALSE_BOOL one_bool))
               one_bool = Ok r s'
    ∧ last_bool s' = last_bool one_bool
    ∧ clasp_rules s' = clasp_rules one_bool
    ∧ single_vars s' = single_vars one_bool
    ∧ (memo_caches one_bool !! (op_name OpAnd,
         op_key OpAnd [KBoolVar 3;
                       KBoolVar (if true then TRUE_BOOL one_bool
                                 else FALSE_BOOL one_bool)]) = None ->
       r = OBoolVar (folded OpAnd true 3 (TRUE_BOOL one_bool) (FALSE_BOOL one_bool))).
Proof. apply (constant_folding OpAnd 3 true one_bool). vm_compute. discriminate. Defined.

(** C2, as stated, fails when the sentinel is the first operand:
    [TRUE_BOOL & x], for a fresh [x], is not [x] but a new literal 4,
    defined by a new rule [4 :- 2, 3]. *)
Lemma first_operand_not_folded :
  ∃ s', BoolVar_and (TRUE_BOOL one_bool) (OBoolVar 3) one_bool = Ok (OBoolVar 4) s'
        ∧ memo_caches one_bool = ∅
        ∧ last_bool one_bool = 3 ∧ last_bool s' = 4
        ∧ clasp_rules s' = clasp_rules one_bool ++ [[1; 4; 2; 0; 2; 3]].
Proof. eexists. vm_compute. repeat split; reflexivity. Qed.

(** ** The memoization dictionaries only grow *)

(** A computation keeps the memoization dictionaries when every entry
    present before it runs is still there, with the same value, once it
    has returned or raised. *)
Definition keeps_caches {A} (m : M A) : Prop :=
  ∀ s, memo_caches s ⊆ memo_caches (state_of (m s)).

Lemma keeps_ret {A} (a : A) : keeps_caches (mret a).
Proof. by intros s. Qed.

Lemma keeps_raise {A} (e : exn) : keeps_caches (raise e : M A).
Proof. by intros s. Qed.

Lemma keeps_gets {A} (f : state -> A) : keeps_caches (gets f).
Proof. by intros s. Qed.

Lemma keeps_modify (f : state -> state) :
  (∀ s, memo_caches (f s) = memo_caches s) -> keeps_caches (modify f).
Proof. intros Hf s. cbn. by rewrite Hf. Qed.

Lemma keeps_bind {A B} (m : M A) (k : A -> M B) :
  keeps_caches m -> (∀ a, keeps_caches (k a)) -> keeps_caches (m ≫= k).
Proof.
  intros Hm Hk s. specialize (Hm s). unfold mbind, M_bind.
  destruct (m s) as [a s'|e s']; cbn in *; [|done].
  etrans; [exact Hm|apply Hk].
Qed.

Lemma keeps_memo_call name key func args :
  keeps_caches (func args) -> keeps_caches (memo_call name key func args).
Proof.
  intros Hf s. destruct key as [key|]; [|apply Hf].
  destruct (memo_caches s !! (name, key)) as [v|] eqn:Hlook.
  - by rewrite (memo_call_hit _ _ _ _ _ _ Hlook).
  - rewrite memo_call_miss by done. specialize (Hf s).
    destruct (func args s) as [v s'|e s']; cbn in *; [|done].
    apply map_subseteq_spec. intros k x Hk.
    destruct (decide (k = (name, key))) as [->|Hne]; [congruence|].
    rewrite lookup_insert_ne by done.
    by eapply map_subseteq_spec in Hf.
Qed.

Lemma keeps_decorated symmetric name func args :
  keeps_caches (func args) -> keeps_caches (decorated symmetric name func args).
Proof. intros Hf. destruct symmetric; by apply keeps_memo_call. Qed.

Lemma keeps_for_each {A} (xs : list A) (body : A -> M unit) :
  (∀ x, keeps_caches (body x)) -> keeps_caches (for_each xs body).
Proof.
  intros Hb. induction xs as [|x xs IH]; [apply keeps_ret|].
  apply keeps_bind; [apply Hb|by intros _].
Qed.

Lemma keeps_map_M {A B} (f : A -> M B) (xs : list A) :
  (∀ x, keeps_caches (f x)) -> keeps_caches (map_M f xs).
Proof.
  intros Hf. induction xs as [|x xs IH]; [apply keeps_ret|].
  cbn [map_M]. apply keeps_bind; [apply Hf|intros y].
  apply keeps_bind; [apply IH|intros ys; apply keeps_ret].
Qed.

Lemma keeps_new_literal : keeps_caches new_literal.
Proof. by intros s. Qed.

Lemma keeps_add_rule vals : keeps_caches (add_rule vals).
Proof. by intros s. Qed.

Lemma keeps_add_basic_rule hd literals : keeps_caches (add_basic_rule hd literals).
Proof.
  intros s. unfold add_basic_rule. case_decide; [|done].
  unfold mbind, M_bind, optimize_basic_rule.
  destruct (optimize_rule hd literals (single_vars s)) as [[l|] sv]; done.
Qed.

Lemma keeps_BoolVar_of_const val : keeps_caches (BoolVar_of_const val).
Proof. intros s. destruct val as [| [] | z | | | | | |]; try done. cbn. by case_decide. Qed.

Lemma keeps_folding_func o conv a b :
  keeps_caches (conv b) -> keeps_caches (folding_func o conv a b).
Proof.
  intros Hc. unfold folding_func.
  apply keeps_bind; [done|intros b'].
  apply keeps_bind; [apply keeps_gets|intros T].
  apply keeps_bind; [apply keeps_gets|intros F].
  repeat case_decide; try apply keeps_ret.
  apply keeps_bind; [apply keeps_new_literal|intros r].
  apply keeps_bind; [|intros _; apply keeps_ret].
  apply keeps_for_each. intros body. apply keeps_add_basic_rule.
Qed.

Lemma keeps_ext {A} (m m' : M A) :
  (∀ s, m s = m' s) -> keeps_caches m' -> keeps_caches m.
Proof. intros He Hm s. rewrite He. apply Hm. Qed.

Lemma keeps_method f args :
  (∀ a b, keeps_caches (f a b)) -> keeps_caches (method f args).
Proof.
  intros Hf. destruct args as [|x [|b [|c rest]]]; try apply keeps_raise;
    destruct x; try apply keeps_raise. apply Hf.
Qed.

Lemma keeps_op_with o conv a b :
  (∀ x, keeps_caches (conv x)) ->
  keeps_caches (memo_call (op_name o) (op_key o <$> mapM hash_object [OBoolVar a; b])
                  (method (op_func o conv)) [OBoolVar a; b]).
Proof.
  intros Hc. apply keeps_memo_call. cbn [method].
  eapply keeps_ext; [apply op_func_folding|]. by apply keeps_folding_func.
Qed.

Lemma keeps_BoolVar_new : keeps_caches BoolVar_new.
Proof.
  apply keeps_bind; [apply keeps_new_literal|intros i].
  apply keeps_bind; [|intros _; apply keeps_ret].
  unfold add_choice_rule. destruct (decide _); [apply keeps_add_rule|apply keeps_raise].
Qed.

Lemma keeps_index_of x : keeps_caches (index_of x).
Proof. intros s. by destruct x. Qed.

Lemma keeps_foldl {A} (f : M obj -> A -> M obj) (xs : list A) (m : M obj) :
  (∀ acc x, keeps_caches acc -> keeps_caches (f acc x)) ->
  keeps_caches m -> keeps_caches (foldl f m xs).
Proof.
  intros Hf. revert m. induction xs as [|x xs IH]; intros m Hm; [done|].
  cbn. apply IH. by apply Hf.
Qed.

Lemma keeps_BoolVar_of val : keeps_caches (BoolVar_of val).
Proof.
  destruct val; try apply keeps_raise; try apply keeps_BoolVar_of_const.
  - apply keeps_bind; [apply keeps_BoolVar_new|apply keeps_index_of].
  - cbn [BoolVar_of]. apply keeps_bind; [|apply keeps_index_of].
    unfold reduce. destruct (OBoolVar <$> bits) as [|x rest]; [apply keeps_raise|].
    apply keeps_foldl; [|apply keeps_ret].
    intros acc y Hacc. apply keeps_bind; [done|intros a].
    apply keeps_bind; [apply keeps_index_of|intros i].
    apply (keeps_op_with OpOr). apply keeps_BoolVar_of_const.
Qed.

Lemma keeps_BoolVar_op o a b : keeps_caches (BoolVar_op o a b).
Proof.
  eapply keeps_ext; [apply BoolVar_op_unfold|].
  apply keeps_memo_call. cbn [method]. apply keeps_folding_func, keeps_BoolVar_of.
Qed.

Lemma keeps_require x : keeps_caches (require x).
Proof. apply keeps_bind; [apply keeps_BoolVar_of|intros i; apply keeps_add_basic_rule]. Qed.

(** ** Memoized calls, later in the cycle *)

(** C4: after a call of a memoized function has returned [v], every later
    call whose arguments have the same hashes - for a symmetric function,
    the same hashes in any order - returns [v] again and leaves the whole
    state, the rule buffer and the literal counter included, as it is.
    Later means in any state [s2] whose memoization dictionaries still
    hold the entries that the first call left in [s1]; the lemmas above
    show that the operations only add entries. *)
Theorem memoized_second_call (symmetric : bool) (name : string)
    (func : list obj -> M obj) (args args' : list obj)
    (key key' : list hashobj) (s s1 : state) (v : obj) :
  mapM hash_object args = Some key ->
  mapM hash_object args' = Some key' ->
  (if symmetric then key' ≡ₚ key else key' = key) ->
  decorated symmetric name func args s = Ok v s1 ->
  ∀ s2, memo_caches s1 ⊆ memo_caches s2 ->
        decorated symmetric name func args' s2 = Ok v s2.
Proof.
  intros Hk Hk' Hsame Hcall s2 Hsub.
  destruct symmetric; simpl in *.
  - unfold memoized_symmetric in *. rewrite Hk in Hcall. rewrite Hk'.
    simpl in *. rewrite (sorted_permutation key' key) by done.
    apply memo_call_hit. eapply lookup_weaken; [|exact Hsub].
    by eapply memo_call_stored.
  - unfold memoized in *. rewrite Hk in Hcall. rewrite Hk'. subst key'.
    apply memo_call_hit. eapply lookup_weaken; [|exact Hsub].
    by eapply memo_call_stored.
Qed.

Lemma memoized_second_call_witness :
  decorated true "BoolVar.__and__" (method (and_func BoolVar_of))
            [OBoolVar 4; OBoolVar 3]
            (state_of (BoolVar_and 3 (OBoolVar 5)
                         (state_of (BoolVar_and 3 (OBoolVar 4) three_bools))))
  = Ok (OBoolVar 6)
       (state_of (BoolVar_and 3 (OBoolVar 5)
                    (state_of (BoolVar_and 3 (OBoolVar 4) three_bools)))).
Proof.
  apply (memoized_second_call true "BoolVar.__and__" (method (and_func BoolVar_of))
           [OBoolVar 3; OBoolVar 4] [OBoolVar 4; OBoolVar 3]
           [KBoolVar 3; KBoolVar 4] [KBoolVar 4; KBoolVar 3] three_bools
           (state_of (BoolVar_and 3 (OBoolVar 4) three_bools))).
  - reflexivity.
  - reflexivity.
  - apply Permutation_swap.
  - vm_compute. reflexivity.
  - apply (keeps_BoolVar_op OpAnd 3 (OBoolVar 5)).
Defined.

(** ** Programs that extend a state, and what holds in all their answers *)

(** A literal is usable in a state when it names an allocated atom. *)
Definition lit_ok (s : state) (l : Z) : Prop := l ≠ 0 ∧ Z.abs l ≤ last_bool s.

(** The rules added after a state was reached: each head is the false
    head or an atom allocated later.  Every rule-emitting operation of the
    module adds such rules, but for [Atom.prove_if], which adds a rule for
    an atom allocated earlier; proof atoms are not part of this
    embedding. *)
Definition fresh_heads (n : Z) (rules : list (list Z)) : Prop :=
  Forall (fun vals => Forall (fun h => h = 1 ∨ n < h) (rule_heads vals)) rules.

Definition bounded_heads (n : Z) (rules : list (list Z)) : Prop :=
  Forall (fun vals => Forall (fun h => h ≤ n) (rule_heads vals)) rules.

Definition extends (s : state) (program : list (list Z)) : Prop :=
  ∃ later, program = clasp_rules s ++ later ∧ fresh_heads (last_bool s) later.

(** [phi] holds in every answer of every program that extends [s]. *)
Definition valid (s : state) (phi : gset Z -> Prop) : Prop :=
  ∀ program m, extends s program -> answer program m -> phi m.

(** The state [s'] was reached from [s]. *)
Definition reached (s s' : state) : Prop :=
  extends s (clasp_rules s')
  ∧ last_bool s ≤ last_bool s'
  ∧ NUM_BITS s' = NUM_BITS s
  ∧ TRUE_BOOL s' = TRUE_BOOL s
  ∧ FALSE_BOOL s' = FALSE_BOOL s.

Lemma fresh_heads_mono n n' rules :
  n ≤ n' -> fresh_heads n' rules -> fresh_heads n rules.
Proof.
  intros Hn H. unfold fresh_heads in *.
  eapply Forall_impl; [exact H|]. intros vals Hv. simpl in Hv.
  eapply Forall_impl; [exact Hv|]. intros h [->|Hh]; [by left|right; lia].
Qed.

Lemma fresh_heads_app n r1 r2 :
  fresh_heads n (r1 ++ r2) ↔ fresh_heads n r1 ∧ fresh_heads n r2.
Proof. apply Forall_app. Qed.

Lemma extends_refl s : extends s (clasp_rules s).
Proof. exists []. split; [by rewrite app_nil_r|constructor]. Qed.

Lemma reached_refl s : reached s s.
Proof. split; [apply extends_refl|]. repeat split; lia. Qed.

Lemma reached_extends s s' program :
  reached s s' -> extends s' program -> extends s program.
Proof.
  intros ((l1 & E1 & H1) & Hle & _) (l2 & E2 & H2).
  exists (l1 ++ l2). rewrite E2, E1, app_assoc. split; [done|].
  apply fresh_heads_app. split; [done|]. by eapply fresh_heads_mono.
Qed.

Lemma reached_trans s1 s2 s3 : reached s1 s2 -> reached s2 s3 -> reached s1 s3.
Proof.
  intros H12 H23. split; [by eapply reached_extends; [|apply H23]|].
  destruct H12 as (_ & ? & ? & ? & ?), H23 as (_ & ? & ? & ? & ?).
  repeat split; [lia|congruence..].
Qed.

Lemma valid_reached s s' phi : valid s phi -> reached s s' -> valid s' phi.
Proof.
  intros Hv Hr program m Hext. apply Hv. by eapply reached_extends.
Qed.

Lemma valid_impl s (phi psi : gset Z -> Prop) :
  valid s phi -> (∀ m, phi m -> psi m) -> valid s psi.
Proof. intros Hv Himp program m He Ha. eapply Himp, Hv; eauto. Qed.

Lemma valid_and s (phi psi : gset Z -> Prop) :
  valid s phi -> valid s psi -> valid s (fun m => phi m ∧ psi m).
Proof. intros H1 H2 program m He Ha. split; eauto. Qed.

Lemma lit_ok_reached s s' l : lit_ok s l -> reached s s' -> lit_ok s' l.
Proof. intros [? ?] (_ & ? & _). split; [done|lia]. Qed.

(** *** Literals in a set of true atoms *)

Lemma BoolVar_value_opp m l :
  l ≠ 0 -> BoolVar_value m (- l) = negb (BoolVar_value m l).
Proof.
  intros Hl. unfold BoolVar_value.
  destruct (decide (- l > 0)), (decide (l > 0)); try lia.
  - destruct (decide (- l ∈ m)).
    + rewrite bool_decide_eq_true_2 by done. by rewrite bool_decide_eq_false_2 by auto.
    + rewrite bool_decide_eq_false_2 by done. by rewrite bool_decide_eq_true_2 by auto.
  - rewrite Z.opp_involutive. destruct (decide (l ∈ m)).
    + rewrite bool_decide_eq_false_2 by auto. by rewrite bool_decide_eq_true_2.
    + rewrite bool_decide_eq_true_2 by auto. by rewrite bool_decide_eq_false_2.
Qed.

(** The body of an emitted basic rule holds exactly when all its literals
    do. *)
Lemma basic_body_literals m (literals : list Z) :
  Forall (fun l => l ≠ 0) literals ->
  basic_body m (len (negative_literals literals))
             (negative_literals literals ++ positive_literals literals)
  = forallb (BoolVar_value m) literals.
Proof.
  intros Hnz. unfold basic_body, len.
  rewrite Nat2Z.id, take_app_length, drop_app_length.
  unfold negative_literals, positive_literals.
  induction Hnz as [|l literals Hl _ IH]; [done|].
  cbn [List.filter forallb].
  destruct (Z.ltb_spec l 0), (Z.ltb_spec 0 l); try lia.
  - cbn [fmap list_fmap forallb]. rewrite <- IH.
    rewrite <- andb_assoc. f_equal. unfold BoolVar_value.
    rewrite decide_False by lia. by rewrite Z.abs_neq by lia.
  - cbn [forallb]. rewrite <- IH.
    rewrite (andb_comm (forallb _ _)), <- andb_assoc, (andb_comm (forallb _ _)).
    f_equal. unfold BoolVar_value. by rewrite decide_True by lia.
Qed.

(** The rule [hd :- literals] as [add_basic_rule] writes it. *)
Definition basic_rule (hd : Z) (literals : list Z) : list Z :=
  [1; hd; len literals; len (negative_literals literals)]
  ++ negative_literals literals ++ positive_literals literals.

Lemma rule_body_basic m hd literals :
  Forall (fun l => l ≠ 0) literals ->
  rule_body m (basic_rule hd literals) = forallb (BoolVar_value m) literals.
Proof. intros H. unfold basic_rule. cbn. by apply basic_body_literals. Qed.

Lemma rule_heads_basic hd literals : rule_heads (basic_rule hd literals) = [hd].
Proof. done. Qed.

(** * Further properties of the compiler *)

(** ** Reset *)

(** [reset()] leaves the same state whatever state it starts from: the
    literal counter at 2, the two boot rules, TRUE known true, 16 bits,
    empty memoization dictionaries. *)
Theorem reset_from_any_state (s : state) :
  reset s = Ok () boot
  ∧ last_bool boot = 2
  ∧ clasp_rules boot = [[3; 1; 2; 0; 0]; [1; 1; 1; 1; 2]]
  ∧ single_vars boot = {[2]}
  ∧ NUM_BITS boot = 16
  ∧ (TRUE_BOOL boot, FALSE_BOOL boot) = (2, -2)
  ∧ memo_caches boot = ∅.
Proof.
  split; [|by vm_compute].
  destruct s. vm_compute. reflexivity.
Qed.

(** ** Negation *)

(** [~a] reads back as the negation of [a] in every model, and
    [~~a] is [a] again. *)
Theorem invert_negates_value (m : gset Z) (a : Z) :
  a ≠ 0 ->
  BoolVar_invert a = OBoolVar (- a)
  ∧ BoolVar_value m (- a) = negb (BoolVar_value m a)
  ∧ BoolVar_value m (- - a) = BoolVar_value m a.
Proof.
  intros Ha. split; [done|]. split; [by apply BoolVar_value_opp|].
  by rewrite Z.opp_involutive.
Qed.

Lemma invert_negates_value_witness :
  BoolVar_invert 3 = OBoolVar (- 3)
  ∧ BoolVar_value {[3]} (- 3) = negb (BoolVar_value {[3]} 3)
  ∧ BoolVar_value {[3]} (- - 3) = BoolVar_value {[3]} 3.
Proof. apply (invert_negates_value {[3]} 3). discriminate. Defined.

(** ** Integer constants *)

Lemma IntVar_of_int (z : Z) (s : state) :
  0 ≤ NUM_BITS s ->
  IntVar_of (PyInt z) s =
    if decide (Z.shiftr z (NUM_BITS s) = 0)
    then Ok ((fun i => if Z.testbit z i then TRUE_BOOL s else FALSE_BOOL s) <$> BITS s) s
    else Raise TypeError s.
Proof.
  intros Hn. unfold IntVar_of, IntVar_of_const, py_shiftr, mbind, M_bind, gets.
  destruct (decide (NUM_BITS s < 0)); [lia|]. unfold mret, M_ret.
  by destruct (decide (Z.shiftr z (NUM_BITS s) = 0)).
Qed.

(** [IntVar(z)] accepts exactly the integers [0 <= z < 2^NUM_BITS]; any
    other integer is a [TypeError].  Nothing is allocated either way. *)
Theorem IntVar_constant_range (z : Z) (s : state) :
  0 ≤ NUM_BITS s ->
  (0 ≤ z < 2 ^ NUM_BITS s ->
     ∃ bits, IntVar_of (PyInt z) s = Ok bits s ∧ len bits = NUM_BITS s)
  ∧ (¬ (0 ≤ z < 2 ^ NUM_BITS s) -> IntVar_of (PyInt z) s = Raise TypeError s).
Proof.
  intros Hn. rewrite IntVar_of_int by done.
  assert (Hiff : Z.shiftr z (NUM_BITS s) = 0 ↔ 0 ≤ z < 2 ^ NUM_BITS s).
  { rewrite Z.shiftr_div_pow2 by done. split.
    - intros H. apply Z.div_small_iff in H; [|lia]. lia.
    - intros H. by apply Z.div_small. }
  split; intros Hz.
  - rewrite decide_True by by apply Hiff.
    eexists. split; [done|]. unfold len. rewrite length_fmap.
    fold (len (BITS s)). by apply len_BITS.
  - rewrite decide_False; [done|]. by rewrite Hiff.
Qed.

Lemma IntVar_constant_range_witness :
  (0 ≤ 5 < 2 ^ NUM_BITS boot ->
     ∃ bits, IntVar_of (PyInt 5) boot = Ok bits boot ∧ len bits = NUM_BITS boot)
  ∧ (¬ (0 ≤ 5 < 2 ^ NUM_BITS boot) -> IntVar_of (PyInt 5) boot = Raise TypeError boot).
Proof. apply (IntVar_constant_range 5 boot). by vm_compute. Defined.

(** ** Reading integers back *)

Lemma IntVar_value_on_range (m : gset Z) (bits : list Z) (k a : nat) :
  (a + k ≤ length bits)%nat ->
  ∃ v, IntVar_value_on m bits (Z.of_nat <$> seq a k) = Some v
       ∧ 0 ≤ v ≤ 2 ^ Z.of_nat (a + k) - 2 ^ Z.of_nat a.
Proof.
  revert a. induction k as [|k IH]; intros a Hlen.
  - exists 0. split; [done|]. rewrite Nat.add_0_r. lia.
  - cbn [seq fmap list_fmap IntVar_value_on]. rewrite Nat2Z.id.
    destruct (lookup_lt_is_Some_2 bits a) as [b Hb]; [lia|]. rewrite Hb.
    destruct (IH (S a)) as (v & Hv & Hrange); [lia|].
    cbn [mbind option_bind]. change (list_fmap nat Z Z.of_nat) with (fmap Z.of_nat).
    rewrite Hv. cbn [mbind option_bind]. eexists. split; [done|].
    rewrite Z.shiftl_1_l.
    replace (Z.of_nat (S a + k)) with (Z.of_nat (a + S k)) in Hrange by lia.
    replace (Z.of_nat (S a)) with (Z.of_nat a + 1) in Hrange by lia.
    rewrite Z.pow_add_r in Hrange by lia.
    assert (0 < 2 ^ Z.of_nat a) by (apply Z.pow_pos_nonneg; lia).
    destruct (BoolVar_value m b); lia.
Qed.

(** [value()] of an IntVar whose bits list has at least [NUM_BITS] bits
    lies in [0, 2^NUM_BITS), whatever the model; on a shorter list it
    raises [IndexError]. *)
Theorem IntVar_value_bounds (s : state) (m : gset Z) (bits : list Z) :
  0 ≤ NUM_BITS s ->
  (NUM_BITS s ≤ len bits ->
     ∃ v, IntVar_value s m bits = Some v ∧ 0 ≤ v < 2 ^ NUM_BITS s)
  ∧ (len bits < NUM_BITS s -> IntVar_value s m bits = None).
Proof.
  intros Hn. unfold IntVar_value, BITS, len. split; intros Hlen.
  - destruct (IntVar_value_on_range m bits (Z.to_nat (NUM_BITS s)) 0) as (v & -> & Hv);
      [lia|].
    exists v. split; [done|]. simpl in Hv. rewrite Z2Nat.id in Hv by done. lia.
  - assert (Hk : ∀ k a, (a ≤ length bits < a + k)%nat ->
              IntVar_value_on m bits (Z.of_nat <$> seq a k) = None).
    { induction k as [|k IH]; intros a Ha; [lia|].
      cbn [seq fmap list_fmap IntVar_value_on]. rewrite Nat2Z.id.
      destruct (bits !! a) as [b|] eqn:Hb; [|done].
      cbn [mbind option_bind]. change (list_fmap nat Z Z.of_nat) with (fmap Z.of_nat).
      rewrite IH; [done|]. apply lookup_lt_Some in Hb. lia. }
    apply Hk. lia.
Qed.

Lemma IntVar_value_bounds_witness :
  (NUM_BITS boot ≤ len [2; -2; 2] ->
     ∃ v, IntVar_value boot {[2]} [2; -2; 2] = Some v ∧ 0 ≤ v < 2 ^ NUM_BITS boot)
  ∧ (len [2; -2; 2] < NUM_BITS boot -> IntVar_value boot {[2]} [2; -2; 2] = None).
Proof. apply (IntVar_value_bounds boot {[2]} [2; -2; 2]). by vm_compute. Defined.

Lemma constant_bits_on (m : gset Z) (z T F : Z) (bits : list Z) (k a : nat) :
  BoolVar_value m T = true -> BoolVar_value m F = false ->
  (∀ i, (a ≤ i < a + k)%nat ->
        bits !! i = Some (if Z.testbit z (Z.of_nat i) then T else F)) ->
  IntVar_value_on m bits (Z.of_nat <$> seq a k)
  = Some ((z / 2 ^ Z.of_nat a) mod 2 ^ Z.of_nat k * 2 ^ Z.of_nat a).
Proof.
  intros HT HF. revert a. induction k as [|k IH]; intros a Hbits.
  - cbn. by rewrite Z.mod_1_r.
  - cbn [seq fmap list_fmap IntVar_value_on]. rewrite Nat2Z.id.
    rewrite (Hbits a) by lia. cbn [mbind option_bind].
    change (list_fmap nat Z Z.of_nat) with (fmap Z.of_nat).
    rewrite (IH (S a)) by (intros i Hi; apply Hbits; lia).
    cbn [mbind option_bind]. f_equal. rewrite Z.shiftl_1_l.
    replace (Z.of_nat (S a)) with (Z.of_nat a + 1) by lia.
    replace (Z.of_nat (S k)) with (1 + Z.of_nat k) by lia.
    rewrite !Z.pow_add_r by lia. rewrite Z.pow_1_r.
    rewrite <- Z.div_div by (try apply Z.pow_pos_nonneg; lia).
    set (w := z / 2 ^ Z.of_nat a).
    rewrite (Z.rem_mul_r w 2 (2 ^ Z.of_nat k)) by (try apply Z.pow_pos_nonneg; lia).
    assert (Hbit : Z.b2z (Z.testbit z (Z.of_nat a)) = w mod 2).
    { subst w. apply Z.testbit_spec'. lia. }
    destruct (Z.testbit z (Z.of_nat a)); [rewrite HT|rewrite HF];
      simpl in Hbit; lia.
Qed.

(** Round trip of a constant: in a model where TRUE holds and FALSE does
    not, [IntVar(z).value()] is [z], for every [z] that fits the width. *)
Theorem IntVar_constant_value (s : state) (m : gset Z) (z : Z) :
  0 ≤ NUM_BITS s ->
  0 ≤ z < 2 ^ NUM_BITS s ->
  BoolVar_value m (TRUE_BOOL s) = true ->
  BoolVar_value m (FALSE_BOOL s) = false ->
  ∃ bits, IntVar_of (PyInt z) s = Ok bits s ∧ IntVar_value s m bits = Some z.
Proof.
  intros Hn Hz HT HF. rewrite IntVar_of_int by done.
  rewrite decide_True.
  2:{ rewrite Z.shiftr_div_pow2 by done. by apply Z.div_small. }
  eexists. split; [done|]. unfold IntVar_value, BITS.
  rewrite (constant_bits_on m z (TRUE_BOOL s) (FALSE_BOOL s)); [|done|done|].
  - f_equal. simpl. rewrite Z.div_1_r, Z.mul_1_r, Z2Nat.id by done.
    by apply Z.mod_small.
  - intros i Hi. rewrite list_lookup_fmap, list_lookup_fmap.
    rewrite lookup_seq_lt by lia. done.
Qed.

Lemma IntVar_constant_value_witness :
  ∃ bits, IntVar_of (PyInt 37) boot = Ok bits boot
          ∧ IntVar_value boot {[2]} bits = Some 37.
Proof. apply (IntVar_constant_value boot {[2]} 37); by vm_compute. Defined.

(** ** The number a bits list stands for *)

(** The bits of an IntVar, least significant first, as a number. *)
Definition bits_value (m : gset Z) (bits : list Z) : Z :=
  foldr (fun b acc => Z.b2z (BoolVar_value m b) + 2 * acc) 0 bits.

Lemma bits_value_cons m b l :
  bits_value m (b :: l) = Z.b2z (BoolVar_value m b) + 2 * bits_value m l.
Proof. done. Qed.

Lemma len_cons {A} (x : A) l : len (x :: l) = 1 + len l.
Proof. unfold len. cbn [length]. lia. Qed.

Lemma len_nonneg {A} (l : list A) : 0 ≤ len l.
Proof. unfold len. lia. Qed.

Lemma bits_value_app m l1 l2 :
  bits_value m (l1 ++ l2) = bits_value m l1 + 2 ^ len l1 * bits_value m l2.
Proof.
  induction l1 as [|b l1 IH].
  - change (len []) with 0. rewrite Z.pow_0_r. change (bits_value m []) with 0.
    cbn [app]. lia.
  - cbn [app]. rewrite !bits_value_cons, IH, len_cons.
    rewrite Z.pow_add_r by (pose proof (len_nonneg l1); lia). lia.
Qed.

Lemma bits_value_range m l : 0 ≤ bits_value m l < 2 ^ len l.
Proof.
  induction l as [|b l IH].
  - change (len []) with 0. change (bits_value m []) with 0. rewrite Z.pow_0_r. lia.
  - rewrite bits_value_cons, len_cons.
    rewrite Z.pow_add_r by (pose proof (len_nonneg l); lia).
    destruct (BoolVar_value m b); simpl Z.b2z; lia.
Qed.

Lemma bits_value_falses m F k :
  BoolVar_value m F = false -> bits_value m (replicate k F) = 0.
Proof.
  intros HF. induction k as [|k IH]; [done|].
  cbn [replicate]. rewrite bits_value_cons, IH, HF. done.
Qed.

Lemma bits_value_take_drop m l (k : nat) :
  bits_value m l = bits_value m (take k l) + 2 ^ len (take k l) * bits_value m (drop k l).
Proof. by rewrite <- bits_value_app, take_drop. Qed.

Lemma bits_value_take m l (k : nat) :
  (k ≤ length l)%nat ->
  bits_value m (take k l) = bits_value m l mod 2 ^ Z.of_nat k.
Proof.
  intros Hk. rewrite (bits_value_take_drop m l k).
  pose proof (bits_value_range m (take k l)) as Hr.
  unfold len in *. rewrite length_take, Nat.min_l in * by done.
  rewrite Z.mul_comm, Z.mod_add by (apply Z.pow_nonzero; lia).
  by rewrite Z.mod_small.
Qed.

Lemma bits_value_drop m l (k : nat) :
  (k ≤ length l)%nat ->
  bits_value m (drop k l) = bits_value m l / 2 ^ Z.of_nat k.
Proof.
  intros Hk. rewrite (bits_value_take_drop m l k).
  pose proof (bits_value_range m (take k l)) as Hr.
  unfold len in *. rewrite length_take, Nat.min_l in * by done.
  rewrite Z.mul_comm, Z.div_add by (apply Z.pow_nonzero; lia).
  by rewrite Z.div_small.
Qed.

Lemma IntVar_value_on_bits (m : gset Z) (bits : list Z) (k a : nat) :
  (a + k ≤ length bits)%nat ->
  IntVar_value_on m bits (Z.of_nat <$> seq a k)
  = Some (2 ^ Z.of_nat a * bits_value m (take k (drop a bits))).
Proof.
  revert a. induction k as [|k IH]; intros a Hlen.
  - cbn [seq fmap list_fmap IntVar_value_on take]. f_equal.
    change (bits_value m []) with 0. by rewrite Z.mul_0_r.
  - cbn [seq fmap list_fmap IntVar_value_on]. rewrite Nat2Z.id.
    destruct (lookup_lt_is_Some_2 bits a) as [b Hb]; [lia|]. rewrite Hb.
    cbn [mbind option_bind]. change (list_fmap nat Z Z.of_nat) with (fmap Z.of_nat).
    rewrite (IH (S a)) by lia. cbn [mbind option_bind]. f_equal.
    rewrite (drop_S _ _ _ Hb). cbn [take]. rewrite bits_value_cons.
    rewrite Z.shiftl_1_l, Nat2Z.inj_succ, Z.pow_succ_r by lia.
    destruct (BoolVar_value m b); simpl Z.b2z; lia.
Qed.

(** [value()] reads the first [NUM_BITS] bits. *)
Lemma IntVar_value_bits (s : state) (m : gset Z) (bits : list Z) :
  0 ≤ NUM_BITS s -> NUM_BITS s ≤ len bits ->
  IntVar_value s m bits = Some (bits_value m (take (Z.to_nat (NUM_BITS s)) bits)).
Proof.
  intros Hn Hlen. unfold IntVar_value, BITS, len in *.
  rewrite IntVar_value_on_bits by lia. f_equal. rewrite drop_0.
  change (Z.of_nat 0) with 0. rewrite Z.pow_0_r. lia.
Qed.

(** ** Shifts *)

Lemma fmap_const_replicate {A B} (x : B) (l : list A) :
  (fun _ => x) <$> l = replicate (length l) x.
Proof. induction l as [|a l IH]; [done|]. cbn. by rewrite <- IH. Qed.

Lemma length_BITS s : length (BITS s) = Z.to_nat (NUM_BITS s).
Proof. unfold BITS. by rewrite length_fmap, length_seq. Qed.

Lemma lshift_func_eval (self : list Z) (i : Z) (s : state) :
  0 ≤ NUM_BITS s ->
  lshift_func self (PyInt i) s =
  Ok (OIntVar (if decide (i = 0) then self
               else if decide (i >= NUM_BITS s)
                    then replicate (Z.to_nat (NUM_BITS s)) (FALSE_BOOL s)
                    else falses (FALSE_BOOL s) i ++ slice_to self (- i))) s.
Proof.
  intros Hn. unfold lshift_func, shift_count, mbind, M_bind, mret, M_ret, gets.
  destruct (decide (i = 0)); [done|].
  destruct (decide (i >= NUM_BITS s)).
  - unfold fmap, M_fmap. rewrite IntVar_of_zero by done.
    by rewrite fmap_const_replicate, length_BITS.
  - by rewrite IntVar_of_zero by done.
Qed.

Lemma rshift_func_eval (self : list Z) (i : Z) (s : state) :
  0 ≤ NUM_BITS s ->
  rshift_func self (PyInt i) s =
  Ok (OIntVar (slice_from self i ++ falses (FALSE_BOOL s) i)) s.
Proof.
  intros Hn. unfold rshift_func, shift_count, mbind, M_bind, mret, M_ret, gets.
  by rewrite IntVar_of_zero by done.
Qed.

Lemma IntVar_value_cache c s m bits :
  IntVar_value (set_memo_caches c s) m bits = IntVar_value s m bits.
Proof. done. Qed.

(** A left shift by [i >= 0] that is not answered from the memoization
    dictionary allocates nothing, returns exactly [NUM_BITS] bits, and in
    every model where FALSE does not hold its value is the operand's value
    times [2^i], truncated to the width. *)
Theorem lshift_value (self : list Z) (i : Z) (s : state) (m : gset Z) :
  0 ≤ NUM_BITS s ->
  len self = NUM_BITS s ->
  0 ≤ i ->
  memo_caches s !! ("IntVar.__lshift__", [KIntVar self; KNum i]) = None ->
  BoolVar_value m (FALSE_BOOL s) = false ->
  ∃ bits s' v,
    IntVar_lshift self (PyInt i) s = Ok (OIntVar bits) s'
    ∧ len bits = NUM_BITS s
    ∧ last_bool s' = last_bool s ∧ clasp_rules s' = clasp_rules s
    ∧ IntVar_value s m self = Some v
    ∧ IntVar_value s' m bits = Some ((v * 2 ^ i) mod 2 ^ NUM_BITS s).
Proof.
  intros Hn Hlen Hi Hmiss HF.
  unfold IntVar_lshift, memoized. cbn [mapM hash_object mbind option_bind mret option_ret].
  rewrite memo_call_miss by done. unfold imethod. rewrite lshift_func_eval by done.
  set (n := Z.to_nat (NUM_BITS s)).
  assert (Hlen' : length self = n) by (unfold len in Hlen; lia).
  assert (Hpn : 2 ^ NUM_BITS s = 2 ^ Z.of_nat n) by (unfold n; by rewrite Z2Nat.id).
  pose proof (bits_value_range m self) as Hv. rewrite Hlen in Hv.
  eexists _, _, (bits_value m self). split; [reflexivity|].
  assert (Hself : IntVar_value s m self = Some (bits_value m self)).
  { rewrite IntVar_value_bits by lia. fold n. by rewrite take_ge by lia. }
  rewrite IntVar_value_cache.
  destruct (decide (i = 0)) as [->|Hi0]; [|destruct (decide (i >= NUM_BITS s)) as [Hbig|Hsmall]].
  - repeat split; try done.
    rewrite Z.pow_0_r, Z.mul_1_r, Z.mod_small by done. exact Hself.
  - assert (Hl : len (replicate n (FALSE_BOOL s)) = NUM_BITS s).
    { unfold len. rewrite length_replicate. unfold n. lia. }
    repeat split; try done.
    rewrite IntVar_value_bits by lia. fold n. rewrite take_ge by (rewrite length_replicate; lia).
    rewrite bits_value_falses by done. f_equal. symmetry.
    replace i with ((i - NUM_BITS s) + NUM_BITS s) by lia.
    rewrite Z.pow_add_r by lia. rewrite Z.mul_assoc. apply Z.mod_mul.
    apply Z.pow_nonzero; lia.
  - set (bits := falses (FALSE_BOOL s) i ++ slice_to self (- i)).
    assert (Hslice : slice_to self (- i) = take (n - Z.to_nat i) self).
    { unfold slice_to. rewrite decide_True by lia. f_equal. unfold len. lia. }
    assert (Hl : len bits = NUM_BITS s).
    { unfold bits, len, falses. rewrite Hslice, length_app, length_replicate, length_take. lia. }
    repeat split; try done.
    rewrite IntVar_value_bits by lia. fold n.
    rewrite take_ge by (unfold len in Hl; lia). f_equal.
    unfold bits, falses. rewrite bits_value_app, bits_value_falses by done.
    rewrite Hslice, bits_value_take by lia.
    unfold len. rewrite length_replicate, Z2Nat.id by done.
    rewrite Z.add_0_l.
    assert (Hpow : 2 ^ NUM_BITS s = 2 ^ i * 2 ^ Z.of_nat (n - Z.to_nat i)).
    { rewrite <- Z.pow_add_r by lia. f_equal. lia. }
    rewrite Hpow, (Z.mul_comm (bits_value m self)).
    rewrite Z.mul_mod_distr_l; [done| |]; apply Z.pow_nonzero; lia.
Qed.

Lemma lshift_value_witness :
  ∃ bits s' v,
    IntVar_lshift [2; 2; -2; -2; -2; -2; -2; -2; -2; -2; -2; -2; -2; -2; -2; -2]
                  (PyInt 2) boot = Ok (OIntVar bits) s'
    ∧ len bits = NUM_BITS boot
    ∧ last_bool s' = last_bool boot ∧ clasp_rules s' = clasp_rules boot
    ∧ IntVar_value boot {[2]}
        [2; 2; -2; -2; -2; -2; -2; -2; -2; -2; -2; -2; -2; -2; -2; -2] = Some v
    ∧ IntVar_value s' {[2]} bits = Some ((v * 2 ^ 2) mod 2 ^ NUM_BITS boot).
Proof.
  apply (lshift_value [2; 2; -2; -2; -2; -2; -2; -2; -2; -2; -2; -2; -2; -2; -2; -2]
           2 boot {[2]}); by vm_compute.
Defined.

(** A right shift by [i >= 0] that is not answered from the memoization
    dictionary allocates nothing, and in every model where FALSE does not
    hold its value is the operand's value divided by [2^i], rounded down. *)
Theorem rshift_value (self : list Z) (i : Z) (s : state) (m : gset Z) :
  0 ≤ NUM_BITS s ->
  len self = NUM_BITS s ->
  0 ≤ i ->
  memo_caches s !! ("IntVar.__rshift__", [KIntVar self; KNum i]) = None ->
  BoolVar_value m (FALSE_BOOL s) = false ->
  ∃ bits s' v,
    IntVar_rshift self (PyInt i) s = Ok (OIntVar bits) s'
    ∧ last_bool s' = last_bool s ∧ clasp_rules s' = clasp_rules s
    ∧ IntVar_value s m self = Some v
    ∧ IntVar_value s' m bits = Some (v / 2 ^ i).
Proof.
  intros Hn Hlen Hi Hmiss HF.
  unfold IntVar_rshift, memoized. cbn [mapM hash_object mbind option_bind mret option_ret].
  rewrite memo_call_miss by done. unfold imethod. rewrite rshift_func_eval by done.
  set (n := Z.to_nat (NUM_BITS s)).
  assert (Hlen' : length self = n) by (unfold len in Hlen; lia).
  pose proof (bits_value_range m self) as Hv. rewrite Hlen in Hv.
  eexists _, _, (bits_value m self). split; [reflexivity|].
  assert (Hself : IntVar_value s m self = Some (bits_value m self)).
  { rewrite IntVar_value_bits by lia. fold n. by rewrite take_ge by lia. }
  rewrite IntVar_value_cache.
  repeat split; try done.
  unfold slice_from, falses. rewrite decide_False by lia.
  set (k := Z.to_nat i).
  assert (Hk : i = Z.of_nat k) by (unfold k; lia).
  rewrite IntVar_value_bits; [|done|].
  2:{ unfold len. rewrite length_app, length_drop, length_replicate. lia. }
  fold n. f_equal.
  destruct (decide (k ≤ n)%nat) as [Hle|Hgt].
  - rewrite take_ge by (rewrite length_app, length_drop, length_replicate; lia).
    rewrite bits_value_app, bits_value_falses by done.
    rewrite bits_value_drop by lia. rewrite Hk. lia.
  - rewrite drop_ge by lia. cbn [app]. rewrite take_replicate.
    rewrite bits_value_falses by done. symmetry. apply Z.div_small.
    split; [lia|]. eapply Z.lt_le_trans; [apply Hv|].
    apply Z.pow_le_mono_r; lia.
Qed.

Lemma rshift_value_witness :
  ∃ bits s' v,
    IntVar_rshift [2; 2; 2; 2; -2; -2; -2; -2; -2; -2; -2; -2; -2; -2; -2; -2]
                  (PyInt 2) boot = Ok (OIntVar bits) s'
    ∧ last_bool s' = last_bool boot ∧ clasp_rules s' = clasp_rules boot
    ∧ IntVar_value boot {[2]}
        [2; 2; 2; 2; -2; -2; -2; -2; -2; -2; -2; -2; -2; -2; -2; -2] = Some v
    ∧ IntVar_value s' {[2]} bits = Some (v / 2 ^ 2).
Proof.
  apply (rshift_value [2; 2; 2; 2; -2; -2; -2; -2; -2; -2; -2; -2; -2; -2; -2; -2]
           2 boot {[2]}); by vm_compute.
Defined.

(** ** What the optimizer may do to a rule *)

Lemma filter_ne_sublist (x : Z) (l : list Z) :
  sublist (List.filter (fun y => negb (y =? x)) l) l.
Proof.
  induction l as [|y l IH]; cbn [List.filter]; [done|].
  destruct (negb (y =? x)); [by apply sublist_skip|by apply sublist_cons].
Qed.

Lemma filter_ne_keeps (x y : Z) (l : list Z) :
  y ∈ l -> y ≠ x -> y ∈ List.filter (fun y => negb (y =? x)) l.
Proof.
  intros Hin Hne. apply list_elem_of_In, List.filter_In.
  split; [by apply list_elem_of_In|]. by destruct (Z.eqb_spec y x).
Qed.

Lemma optimize_scan_recurse_eq sv literals rest nl :
  optimize_scan sv literals rest = Recurse nl ->
  ∃ x, x ∈ sv ∧ nl = List.filter (fun y => negb (y =? x)) literals.
Proof.
  induction rest as [|x rest IH]; simpl; [done|].
  repeat case_decide; try done. intros [= <-]. eauto.
Qed.

Lemma optimize_scan_none sv literals rest sv' :
  optimize_scan sv literals rest = Return None sv' ->
  sv' = sv ∧ ∃ x, x ∈ rest ∧ - x ∈ sv.
Proof.
  induction rest as [|x rest IH]; simpl; [done|].
  repeat case_decide; try done.
  - intros [= <-]. split; [done|]. exists x. split; [left|done].
  - intros H'. destruct (IH H') as (-> & y & Hy & Hsv).
    split; [done|]. exists y. split; [by right|done].
Qed.

(** The optimizer never forgets a known fact and never invents a literal:
    the known-true set only grows, and by at most the fact the rule
    states; the literals it returns are the given ones, in order, minus
    literals that are known true; and it skips a rule only if the head is
    already known (empty remaining body) or, for a headless rule, some
    literal is known false. *)
Theorem optimize_rule_sound (hd : Z) (literals : list Z) (sv : gset Z)
    (r : option (list Z)) (sv' : gset Z) :
  optimize_rule hd literals sv = (r, sv') ->
  sv ⊆ sv'
  ∧ (sv' = sv ∨ (r = Some [] ∧ sv' = {[hd]} ∪ sv)
     ∨ (∃ l, r = Some [l] ∧ hd = 1 ∧ sv' = {[- l]} ∪ sv))
  ∧ match r with
    | Some literals' =>
        sublist literals' literals
        ∧ (∀ x, x ∈ literals -> x ∈ literals' ∨ x ∈ sv)
    | None =>
        (hd ∈ sv ∧ ∀ x, x ∈ literals -> x ∈ sv)
        ∨ (hd = 1 ∧ ∃ x, x ∈ literals ∧ - x ∈ sv)
    end.
Proof.
  remember (length literals) as n eqn:Hn.
  revert literals Hn. induction (lt_wf n) as [n _ IH]. intros literals -> Hrule.
  rewrite optimize_rule_step in Hrule.
  destruct (optimize_body hd literals sv) as [r0 sv0|nl] eqn:Hbody.
  - injection Hrule as -> ->. unfold optimize_body in Hbody.
    destruct literals as [|l0 tl].
    + case_decide; injection Hbody as <- <-.
      * split; [done|]. split; [by left|]. left. split; [done|].
        intros x Hx. by apply elem_of_nil in Hx.
      * split; [set_solver|]. split; [right; left; done|]. split; [done|]. auto.
    + destruct (decide (hd = 1 ∧ tl = [])) as [[-> ->]|Hne].
      * case_decide; injection Hbody as <- <-.
        -- split; [done|]. split; [by left|]. right. split; [done|].
           exists l0. split; [left|done].
        -- split; [set_solver|]. split; [right; right; eauto|].
           split; [done|]. auto.
      * destruct (decide (hd = 1)) as [->|Hhd].
        -- destruct r as [literals'|].
           ++ destruct (optimize_scan_return _ _ _ _ _ Hbody) as [-> ->].
              split; [done|]. split; [by left|]. split; [done|]. auto.
           ++ destruct (optimize_scan_none _ _ _ _ Hbody) as (-> & x & Hx & Hsv).
              split; [done|]. split; [by left|]. right. eauto.
        -- injection Hbody as <- <-.
           split; [done|]. split; [by left|]. split; [done|]. auto.
  - pose proof (optimize_body_recurse _ _ _ _ Hbody) as Hshort.
    assert (∃ x, x ∈ sv ∧ nl = List.filter (fun y => negb (y =? x)) literals)
      as (x & Hxsv & ->).
    { unfold optimize_body in Hbody. destruct literals as [|l0 tl].
      - by case_decide.
      - repeat case_decide; try done. by eapply optimize_scan_recurse_eq. }
    destruct (IH _ Hshort _ eq_refl Hrule) as (Hsub & Hgrow & Hres).
    split; [done|]. split; [done|].
    destruct r as [literals'|].
    + destruct Hres as [Hsl Hall]. split.
      * etrans; [exact Hsl|apply filter_ne_sublist].
      * intros y Hy. destruct (decide (y = x)) as [->|Hyx]; [by right|].
        apply Hall. by apply filter_ne_keeps.
    + destruct Hres as [[Hhd Hall]|[Hhd (y & Hy & Hsv)]].
      * left. split; [done|]. intros y Hy.
        destruct (decide (y = x)) as [->|Hyx]; [done|].
        apply Hall. by apply filter_ne_keeps.
      * right. split; [done|]. exists y. split; [|done].
        apply list_elem_of_In in Hy. apply List.filter_In in Hy as [Hy _].
        by apply list_elem_of_In.
Qed.

(** ** Emitting rules *)

Lemma set_single_vars_id s : set_single_vars (single_vars s) s = s.
Proof. by destruct s. Qed.

Lemma answer_rule_ok program m vals :
  answer program m -> vals ∈ program -> rule_ok m vals.
Proof. intros (_ & Hok & _) Hin. rewrite Forall_forall in Hok. auto. Qed.

(** A headless rule in the program means its body fails. *)
Lemma headless_body program m literals :
  answer program m -> basic_rule 1 literals ∈ program ->
  Forall (fun l => l ≠ 0) literals ->
  forallb (BoolVar_value m) literals = false.
Proof.
  intros Ha Hin Hnz. pose proof (answer_rule_ok _ _ _ Ha Hin) as Hok.
  unfold rule_ok in Hok. rewrite rule_heads_basic in Hok.
  rewrite rule_body_basic in Hok by done. cbn in Hok.
  destruct Ha as (H1 & _). rewrite bool_decide_eq_false_2 in Hok by done.
  by destruct (forallb _ _).
Qed.

Lemma add_basic_rule_eval hd literals s :
  hd > 0 -> hd ≠ 1 -> literals ≠ [] ->
  add_basic_rule hd literals s
  = Ok () (set_clasp_rules (clasp_rules s ++ [basic_rule hd literals]) s).
Proof.
  intros Hpos Hhd Hne. unfold add_basic_rule. rewrite decide_True by done.
  unfold mbind, M_bind, optimize_basic_rule. rewrite optimize_rule_step.
  unfold optimize_body. destruct literals as [|l0 tl]; [done|].
  rewrite decide_False by (intros [? _]; done). rewrite decide_False by done.
  by rewrite set_single_vars_id.
Qed.

(** A rule with a real head and a non-empty body is never optimized: it
    is appended as it is, the known-true set stays, and the integers
    appended read back as the rule [hd :- literals] - head [hd], and a
    body that holds in a model exactly when every literal does. *)
Theorem basic_rule_roundtrip (hd : Z) (literals : list Z) (s : state) :
  hd > 1 -> literals ≠ [] -> Forall (fun l => l ≠ 0) literals ->
  ∃ vals s',
    add_basic_rule hd literals s = Ok () s'
    ∧ clasp_rules s' = clasp_rules s ++ [vals]
    ∧ single_vars s' = single_vars s ∧ last_bool s' = last_bool s
    ∧ rule_heads vals = [hd]
    ∧ ∀ m, rule_body m vals = forallb (BoolVar_value m) literals.
Proof.
  intros Hhd Hne Hnz. rewrite add_basic_rule_eval by (done || lia).
  eexists _, _. split; [done|]. repeat split; try done.
  intros m. by apply rule_body_basic.
Qed.

Lemma basic_rule_roundtrip_witness :
  ∃ vals s',
    add_basic_rule 5 [3; -4] boot = Ok () s'
    ∧ clasp_rules s' = clasp_rules boot ++ [vals]
    ∧ single_vars s' = single_vars boot ∧ last_bool s' = last_bool boot
    ∧ rule_heads vals = [5]
    ∧ ∀ m, rule_body m vals = forallb (BoolVar_value m) [3; -4].
Proof.
  apply (basic_rule_roundtrip 5 [3; -4] boot); [done|done|].
  repeat constructor; discriminate.
Defined.

(** ** Requiring *)

Lemma require_eval (x : Z) (s : state) :
  require (OBoolVar x) s
  = if decide (x ∈ single_vars s) then Ok () s
    else Ok () (set_clasp_rules (clasp_rules s ++ [basic_rule 1 [- x]])
                  (set_single_vars ({[x]} ∪ single_vars s) s)).
Proof.
  unfold require, mbind, M_bind. cbn [BoolVar_of BoolVar_of_const mret M_ret].
  unfold add_basic_rule. rewrite decide_True by done.
  unfold mbind, M_bind, optimize_basic_rule. rewrite optimize_rule_step.
  unfold optimize_body. rewrite decide_True by done. rewrite Z.opp_involutive.
  destruct (decide (x ∈ single_vars s)).
  - unfold mret, M_ret. by rewrite set_single_vars_id.
  - done.
Qed.

(** Requiring the same BoolVar again changes nothing: the first call
    records it as known true (and emits the headless rule unless it was
    known already), the second is dropped by the optimizer. *)
Theorem require_twice (x : Z) (s : state) :
  ∃ s1, require (OBoolVar x) s = Ok () s1
        ∧ require (OBoolVar x) s1 = Ok () s1
        ∧ x ∈ single_vars s1
        ∧ last_bool s1 = last_bool s
        ∧ clasp_rules s1 =
            (if decide (x ∈ single_vars s) then clasp_rules s
             else clasp_rules s ++ [basic_rule 1 [- x]]).
Proof.
  rewrite require_eval. destruct (decide (x ∈ single_vars s)) as [Hin|Hout].
  - exists s. rewrite require_eval, decide_True by done. done.
  - eexists. split; [done|]. rewrite require_eval.
    rewrite decide_True by (cbn; set_solver). repeat split; try done.
    cbn. set_solver.
Qed.

(** Requiring a BoolVar and its negation, neither known before, leaves a
    program that no set of atoms answers, however it is extended. *)
Theorem require_both_unsat (x : Z) (s : state) :
  x ≠ 0 -> x ∉ single_vars s -> - x ∉ single_vars s ->
  ∃ s2, (_ ← require (OBoolVar x); require (BoolVar_invert x)) s = Ok () s2
        ∧ ∀ program m,
            (∀ vals, vals ∈ clasp_rules s2 -> vals ∈ program) ->
            ¬ answer program m.
Proof.
  intros Hx Hpos Hneg. unfold mbind, M_bind, BoolVar_invert.
  rewrite require_eval, decide_False by done.
  rewrite require_eval, decide_False.
  2:{ cbn. intros [H|H]%elem_of_union; [|done].
      apply elem_of_singleton in H. lia. }
  eexists. split; [done|]. intros program m Hsub Ha.
  assert (H1 : forallb (BoolVar_value m) [- x] = false).
  { eapply headless_body; [done| |by apply Forall_singleton; lia].
    apply Hsub. cbn. set_solver. }
  assert (H2 : forallb (BoolVar_value m) [- - x] = false).
  { eapply headless_body; [done| |by apply Forall_singleton; lia].
    apply Hsub. cbn. set_solver. }
  cbn [forallb] in H1, H2. rewrite andb_true_r in H1, H2.
  rewrite Z.opp_involutive in H2. rewrite BoolVar_value_opp in H1 by done.
  rewrite H2 in H1. done.
Qed.

Lemma require_both_unsat_witness :
  ∃ s2, (_ ← require (OBoolVar 3); require (BoolVar_invert 3)) one_bool = Ok () s2
        ∧ ∀ program m,
            (∀ vals, vals ∈ clasp_rules s2 -> vals ∈ program) ->
            ¬ answer program m.
Proof. apply (require_both_unsat 3 one_bool); by vm_compute. Defined.

Lemma optimize_rule_sound_witness :
  ({[3]} : gset Z) ⊆ {[3]}
  ∧ (({[3]} : gset Z) = {[3]} ∨ (Some [4; 5] = Some [] ∧ ({[3]} : gset Z) = {[1]} ∪ {[3]})
     ∨ (∃ l, Some [4; 5] = Some [l] ∧ 1 = 1 ∧ ({[3]} : gset Z) = {[- l]} ∪ {[3]}))
  ∧ (sublist [4; 5] [3; 4; 5]
     ∧ (∀ x, x ∈ [3; 4; 5] -> x ∈ [4; 5] ∨ x ∈ ({[3]} : gset Z))).
Proof.
  apply (optimize_rule_sound 1 [3; 4; 5] {[3]} (Some [4; 5]) {[3]}).
  vm_compute. reflexivity.
Defined.

(** ** Conditionals on a constant predicate *)

Lemma cond_func_constant (b sentinel : bool) (cns alt : obj) (s : state) :
  TRUE_BOOL s ≠ FALSE_BOOL s ->
  cond_func [if sentinel then OBoolVar (if b then TRUE_BOOL s else FALSE_BOOL s)
             else PyBool b; cns; alt] s
  = Ok (if b then cns else alt) s.
Proof.
  intros Hne. unfold cond_func. destruct sentinel; [|by destruct b].
  unfold mbind, M_bind, gets. cbn [BoolVar_of BoolVar_of_const mret M_ret].
  destruct b.
  - by rewrite decide_True.
  - rewrite decide_False by done. by rewrite decide_True.
Qed.

(** [cond(p, x, y)] with [p] a Python [bool] or the TRUE or FALSE
    sentinel allocates nothing and emits nothing, and - unless an earlier
    result is memoized for the same arguments - it returns [x] or [y]
    itself, whatever kinds of values [x] and [y] are. *)
Theorem cond_constant (b sentinel : bool) (cns alt : obj) (s : state) :
  TRUE_BOOL s ≠ FALSE_BOOL s ->
  ∃ r s',
    cond (if sentinel then OBoolVar (if b then TRUE_BOOL s else FALSE_BOOL s)
          else PyBool b) cns alt s = Ok r s'
    ∧ last_bool s' = last_bool s
    ∧ clasp_rules s' = clasp_rules s
    ∧ single_vars s' = single_vars s
    ∧ ((∀ key, mapM hash_object
                 [if sentinel then OBoolVar (if b then TRUE_BOOL s else FALSE_BOOL s)
                  else PyBool b; cns; alt] = Some key ->
               memo_caches s !! ("cond", key) = None) ->
       r = if b then cns else alt).
Proof.
  intros Hne. unfold cond, memoized.
  destruct (mapM hash_object _) as [key|] eqn:Hkey.
  - destruct (memo_caches s !! ("cond", key)) as [v|] eqn:Hlook.
    + rewrite (memo_call_hit _ _ _ _ _ _ Hlook). eexists _, _.
      split; [done|]. repeat split; try done.
      intros Hmiss. by rewrite (Hmiss key eq_refl) in Hlook.
    + rewrite memo_call_miss by done. rewrite cond_func_constant by done.
      by eexists _, _.
  - unfold memo_call. rewrite cond_func_constant by done. by eexists _, _.
Qed.

Lemma cond_constant_witness :
  ∃ r s',
    cond (if true then OBoolVar (if false then TRUE_BOOL boot else FALSE_BOOL boot)
          else PyBool false) (PyInt 7) (PyStr "y") boot = Ok r s'
    ∧ last_bool s' = last_bool boot
    ∧ clasp_rules s' = clasp_rules boot
    ∧ single_vars s' = single_vars boot
    ∧ ((∀ key, mapM hash_object
                 [if true then OBoolVar (if false then TRUE_BOOL boot else FALSE_BOOL boot)
                  else PyBool false; PyInt 7; PyStr "y"] = Some key ->
               memo_caches boot !! ("cond", key) = None) ->
       r = if false then PyInt 7 else PyStr "y").
Proof. apply (cond_constant false true (PyInt 7) (PyStr "y") boot). by vm_compute. Defined.

(** ** Errors of the MultiVar constructor *)

Lemma for_each_py_hash (values : list obj) (s : state) :
  for_each values py_hash s =
  if forallb (fun v => match v with PyList _ => false | _ => true end) values
  then Ok () s else Raise TypeError s.
Proof.
  induction values as [|v values IH]; [done|].
  cbn [for_each forallb]. unfold mbind, M_bind.
  destruct v; cbn [py_hash mret M_ret raise andb]; try apply IH. done.
Qed.

(** A MultiVar over an unhashable value is a [TypeError]; with hashable
    values, two or more of them and a variable among them, the attempt to
    raise the undefined [RuntimeException] is a [NameError].  Neither
    touches the state. *)
Theorem MultiVar_init_errors (values : list obj) (s : state) :
  ((∃ l, PyList l ∈ values) -> MultiVar_init values s = Raise TypeError s)
  ∧ ((∀ l, PyList l ∉ values) -> (2 ≤ length values)%nat ->
     (∃ v, v ∈ values ∧ is_variable v = true) ->
     MultiVar_init values s = Raise NameError s).
Proof.
  assert (Hall : forallb (fun v => match v with PyList _ => false | _ => true end) values
                 = true ↔ ∀ l, PyList l ∉ values).
  { rewrite forallb_forall. split.
    - intros H l Hin. apply list_elem_of_In in Hin. by apply H in Hin.
    - intros H v Hin. destruct v; try done. exfalso.
      eapply H, list_elem_of_In, Hin. }
  unfold MultiVar_init, mbind, M_bind. rewrite for_each_py_hash.
  split.
  - intros [l Hl].
    destruct (forallb _ values); [|done].
    by destruct (proj1 Hall eq_refl l).
  - intros Hno Hlen (v & Hv & Hvar).
    rewrite (proj2 Hall Hno).
    destruct values as [|v1 [|v2 rest]]; cbn in Hlen; try lia.
    assert (Hex : existsb is_variable (v1 :: v2 :: rest) = true).
    { apply existsb_exists. exists v. split; [by apply list_elem_of_In|done]. }
    by rewrite Hex.
Qed.

Lemma MultiVar_init_errors_witness :
  ((∃ l, PyList l ∈ [PyInt 1; PyList [2]]) ->
   MultiVar_init [PyInt 1; PyList [2]] boot = Raise TypeError boot)
  ∧ ((∀ l, PyList l ∉ [PyInt 1; OBoolVar 2]) -> (2 ≤ length [PyInt 1; OBoolVar 2])%nat ->
     (∃ v, v ∈ [PyInt 1; OBoolVar 2] ∧ is_variable v = true) ->
     MultiVar_init [PyInt 1; OBoolVar 2] boot = Raise NameError boot).
Proof.
  split.
  - apply (MultiVar_init_errors [PyInt 1; PyList [2]] boot).
  - apply (MultiVar_init_errors [PyInt 1; OBoolVar 2] boot).
Defined.

(** ** The invariant of the compiler state *)

(** The truth value of a memoization key component that stands for a
    boolean operand. *)
Definition key_truth (m : gset Z) (k : hashobj) : option bool :=
  match k with
  | KBoolVar i => Some (BoolVar_value m i)
  | KNum z => Some (bool_decide (z ≠ 0))
  | _ => None
  end.

Definition int_ok (s : state) (bits : list Z) : Prop :=
  len bits = NUM_BITS s ∧ Forall (lit_ok s) bits.

(** An integer operand as it appears in a key: an IntVar of the
    configured width or an [int] that fits it. *)
Definition int_key_ok (s : state) (k : hashobj) : Prop :=
  match k with
  | KIntVar bits => len bits = NUM_BITS s
  | KNum z => 0 ≤ z < 2 ^ NUM_BITS s
  | _ => False
  end.

Definition key_value (m : gset Z) (k : hashobj) : Z :=
  match k with
  | KIntVar bits => bits_value m bits
  | KNum z => z
  | _ => 0
  end.

Definition bool_cache_ok (s : state) : Prop :=
  ∀ o k1 k2 v,
    memo_caches s !! (op_name o, [k1; k2]) = Some v ->
    ∃ r, v = OBoolVar r ∧ lit_ok s r
         ∧ valid s (fun m => ∀ x y, key_truth m k1 = Some x ->
                                    key_truth m k2 = Some y ->
                                    BoolVar_value m r = op_sem o x y).

Definition add_cache_ok (s : state) : Prop :=
  ∀ k1 k2 v,
    memo_caches s !! ("IntVar.__add__", [k1; k2]) = Some v ->
    int_key_ok s k1 -> int_key_ok s k2 ->
    ∃ c, v = OIntVar c ∧ int_ok s c
         ∧ valid s (fun m => key_value m k1 + key_value m k2 = bits_value m c).

Definition sub_cache_ok (s : state) : Prop :=
  ∀ a k v,
    memo_caches s !! ("IntVar.__sub__", [KIntVar a; k]) = Some v ->
    len a = NUM_BITS s -> int_key_ok s k ->
    ∃ r, v = OIntVar r ∧ int_ok s r
         ∧ valid s (fun m => bits_value m r + key_value m k = bits_value m a).

Record Inv (s : state) : Prop := {
  inv_last : 2 ≤ last_bool s;
  inv_true : TRUE_BOOL s = 2;
  inv_false : FALSE_BOOL s = -2;
  inv_heads : bounded_heads (last_bool s) (clasp_rules s);
  inv_top : valid s (fun m => BoolVar_value m 2 = true);
  inv_single : ∀ l, l ∈ single_vars s -> valid s (fun m => BoolVar_value m l = true);
  inv_bool : bool_cache_ok s;
  inv_add : add_cache_ok s;
  inv_sub : sub_cache_ok s;
}.

Lemma extends_elem s program vals :
  extends s program -> vals ∈ clasp_rules s -> vals ∈ program.
Proof. intros (later & -> & _) Hin. apply elem_of_app. by left. Qed.

Lemma Inv_boot : Inv boot.
Proof.
  assert (Htop : valid boot (fun m => BoolVar_value m 2 = true)).
  { intros program m Hext Ha.
    assert (Hin : basic_rule 1 [-2] ∈ program).
    { eapply extends_elem; [done|]. vm_compute. set_solver. }
    assert (Hb : forallb (BoolVar_value m) [-2] = false).
    { eapply headless_body; [done..|]. by apply Forall_singleton. }
    cbn [forallb] in Hb. rewrite andb_true_r in Hb.
    change (-2) with (Z.opp 2) in Hb.
    rewrite (BoolVar_value_opp m 2) in Hb by done.
    by destruct (BoolVar_value m 2). }
  split; try done.
  - vm_compute. repeat constructor; discriminate.
  - intros l Hl. assert (l = 2) as ->; [|done].
    change (single_vars boot) with ({[2]} : gset Z) in Hl. set_solver.
Qed.

(** ** Defining a fresh atom by basic rules *)

(** The state after a literal [r] was allocated and the rules
    [r :- body], one for each of [bodies], were appended. *)
Definition define (r : Z) (bodies : list (list Z)) (s : state) : state :=
  set_clasp_rules (clasp_rules s ++ (basic_rule r <$> bodies)) (set_last_bool r s).

Lemma for_each_add_basic_rule r bodies s :
  r > 1 -> Forall (fun b => b ≠ []) bodies ->
  for_each bodies (add_basic_rule r) s
  = Ok () (set_clasp_rules (clasp_rules s ++ (basic_rule r <$> bodies)) s).
Proof.
  intros Hr Hne. revert s. induction Hne as [|b bodies Hb _ IH]; intros s.
  - cbn. unfold mret, M_ret. f_equal. destruct s; unfold set_clasp_rules; cbn.
    by rewrite app_nil_r.
  - cbn [for_each]. unfold mbind, M_bind.
    rewrite add_basic_rule_eval by (done || lia). rewrite IH. f_equal.
    unfold set_clasp_rules. cbn. by rewrite <- app_assoc.
Qed.

Lemma define_eval bodies s :
  1 ≤ last_bool s -> Forall (fun b => b ≠ []) bodies ->
  (r ← new_literal; _ ← for_each bodies (add_basic_rule r); mret (OBoolVar r)) s
  = Ok (OBoolVar (last_bool s + 1)) (define (last_bool s + 1) bodies s).
Proof.
  intros Hl Hne. unfold mbind at 1, M_bind at 1.
  change (new_literal s) with
    (Ok (last_bool s + 1) (set_last_bool (last_bool s + 1) s)).
  cbv iota beta. unfold mbind, M_bind.
  rewrite for_each_add_basic_rule by (done || lia). done.
Qed.

Lemma bounded_heads_app n r1 r2 :
  bounded_heads n (r1 ++ r2) ↔ bounded_heads n r1 ∧ bounded_heads n r2.
Proof. apply Forall_app. Qed.

Lemma bounded_heads_mono n n' rules :
  n ≤ n' -> bounded_heads n rules -> bounded_heads n' rules.
Proof.
  intros Hn H. unfold bounded_heads in *.
  eapply Forall_impl; [exact H|]. intros vals Hv. simpl in Hv.
  eapply Forall_impl; [exact Hv|]. intros h Hh. simpl in Hh. lia.
Qed.

Lemma reached_define s r bodies :
  r = last_bool s + 1 -> reached s (define r bodies s).
Proof.
  intros ->. split; [|cbn; repeat split; lia].
  exists (basic_rule (last_bool s + 1) <$> bodies). split; [done|].
  unfold fresh_heads. apply Forall_fmap, Forall_forall. intros b _.
  cbn. apply Forall_singleton. right. lia.
Qed.

Lemma bounded_heads_define s r bodies :
  r = last_bool s + 1 -> bounded_heads (last_bool s) (clasp_rules s) ->
  bounded_heads r (clasp_rules (define r bodies s)).
Proof.
  intros -> Hb. cbn. apply bounded_heads_app. split.
  - eapply bounded_heads_mono; [|done]. lia.
  - unfold bounded_heads. apply Forall_fmap, Forall_forall. intros b _.
    cbn. by apply Forall_singleton.
Qed.

(** In every answer of a program that extends the state, the defined atom
    holds exactly when one of its bodies does. *)
Lemma define_valid s r bodies :
  2 ≤ last_bool s -> r = last_bool s + 1 ->
  bounded_heads (last_bool s) (clasp_rules s) ->
  Forall (Forall (fun l => l ≠ 0)) bodies ->
  valid (define r bodies s)
        (fun m => BoolVar_value m r = existsb (forallb (BoolVar_value m)) bodies).
Proof.
  intros Hl -> Hb Hnz program m (later & -> & Hfresh) Ha.
  cbn in Hfresh. cbn [define clasp_rules set_clasp_rules] in Ha.
  set (r := last_bool s + 1) in *.
  unfold BoolVar_value at 1. rewrite decide_True by lia.
  destruct (existsb _ bodies) eqn:Hex.
  - apply bool_decide_eq_true_2.
    apply existsb_exists in Hex as (b & Hin & Hbody).
    apply list_elem_of_In in Hin.
    assert (Hrule : basic_rule r b ∈ (clasp_rules s ++ (basic_rule r <$> bodies)) ++ later).
    { apply elem_of_app. left. apply elem_of_app. right.
      by apply list_elem_of_fmap_2. }
    pose proof (answer_rule_ok _ _ _ Ha Hrule) as Hok.
    unfold rule_ok in Hok. rewrite rule_heads_basic, rule_body_basic in Hok.
    2:{ rewrite Forall_forall in Hnz. by apply Hnz. }
    rewrite Hbody in Hok. cbn in Hok. rewrite andb_true_r in Hok.
    by apply bool_decide_unpack in Hok.
  - apply bool_decide_eq_false_2. intros Hin.
    destruct Ha as (_ & _ & Hsup). specialize (Hsup r Hin).
    apply Is_true_true in Hsup. unfold supported in Hsup.
    apply existsb_exists in Hsup as (vals & Hvals & Hb').
    apply andb_true_iff in Hb' as [Hhead Hbody].
    apply bool_decide_eq_true in Hhead.
    apply list_elem_of_In in Hvals.
    apply elem_of_app in Hvals as [Hvals|Hvals];
      [apply elem_of_app in Hvals as [Hvals|Hvals]|].
    + unfold bounded_heads in Hb. rewrite Forall_forall in Hb.
      specialize (Hb _ Hvals). rewrite Forall_forall in Hb.
      specialize (Hb _ Hhead). simpl in Hb. lia.
    + apply list_elem_of_fmap in Hvals as (b & -> & Hbin).
      rewrite rule_body_basic in Hbody.
      2:{ rewrite Forall_forall in Hnz. by apply Hnz. }
      assert (existsb (forallb (BoolVar_value m)) bodies = true); [|congruence].
      apply existsb_exists. exists b. split; [by apply list_elem_of_In|done].
    + unfold fresh_heads in Hfresh. rewrite Forall_forall in Hfresh.
      specialize (Hfresh _ Hvals). rewrite Forall_forall in Hfresh.
      specialize (Hfresh _ Hhead). simpl in Hfresh. lia.
Qed.

(** *** The invariant along a run *)

Lemma int_ok_reached s s' bits : int_ok s bits -> reached s s' -> int_ok s' bits.
Proof.
  intros [Hlen Hall] Hr. split.
  - destruct Hr as (_ & _ & -> & _). done.
  - eapply Forall_impl; [exact Hall|]. intros l Hl. by eapply lit_ok_reached.
Qed.

Lemma int_key_ok_reached s s' k :
  NUM_BITS s' = NUM_BITS s -> int_key_ok s' k ↔ int_key_ok s k.
Proof. intros Hn. destruct k; cbn; by rewrite ?Hn. Qed.

Lemma bool_cache_ok_reached s s' :
  bool_cache_ok s -> reached s s' -> memo_caches s' = memo_caches s ->
  bool_cache_ok s'.
Proof.
  intros Hc Hr Hm o k1 k2 v Hlook. rewrite Hm in Hlook.
  destruct (Hc _ _ _ _ Hlook) as (r & -> & Hok & Hv).
  exists r. split; [done|]. split; [by eapply lit_ok_reached|by eapply valid_reached].
Qed.

Lemma add_cache_ok_reached s s' :
  add_cache_ok s -> reached s s' -> memo_caches s' = memo_caches s ->
  add_cache_ok s'.
Proof.
  intros Hc Hr Hm k1 k2 v Hlook H1 H2. rewrite Hm in Hlook.
  assert (Hn : NUM_BITS s' = NUM_BITS s) by apply Hr.
  apply (int_key_ok_reached _ _ _ Hn) in H1, H2.
  destruct (Hc _ _ _ Hlook H1 H2) as (c & -> & Hok & Hv).
  exists c. split; [done|]. split; [by eapply int_ok_reached|by eapply valid_reached].
Qed.

Lemma sub_cache_ok_reached s s' :
  sub_cache_ok s -> reached s s' -> memo_caches s' = memo_caches s ->
  sub_cache_ok s'.
Proof.
  intros Hc Hr Hm a k v Hlook H1 H2. rewrite Hm in Hlook.
  assert (Hn : NUM_BITS s' = NUM_BITS s) by apply Hr.
  rewrite Hn in H1. apply (int_key_ok_reached _ _ _ Hn) in H2.
  destruct (Hc _ _ _ Hlook H1 H2) as (c & -> & Hok & Hv).
  exists c. split; [done|]. split; [by eapply int_ok_reached|by eapply valid_reached].
Qed.

Lemma Inv_reached s s' :
  Inv s -> reached s s' ->
  memo_caches s' = memo_caches s ->
  (∀ l, l ∈ single_vars s' -> l ∈ single_vars s ∨ valid s' (fun m => BoolVar_value m l = true)) ->
  bounded_heads (last_bool s') (clasp_rules s') ->
  Inv s'.
Proof.
  intros [] Hr Hm Hsv Hb. pose proof Hr as (_ & Hl & Hn & HT & HF).
  split.
  - lia.
  - congruence.
  - congruence.
  - done.
  - by eapply valid_reached.
  - intros l Hl'. destruct (Hsv l Hl') as [Hin|Hv]; [|done].
    eapply valid_reached; eauto.
  - by eapply bool_cache_ok_reached.
  - by eapply add_cache_ok_reached.
  - by eapply sub_cache_ok_reached.
Qed.

Lemma op_name_inj o o' : op_name o = op_name o' -> o = o'.
Proof. by destruct o, o'. Qed.

Lemma op_name_not_add o : op_name o ≠ "IntVar.__add__".
Proof. by destruct o. Qed.

Lemma op_name_not_sub o : op_name o ≠ "IntVar.__sub__".
Proof. by destruct o. Qed.

(** Memoizing a sound result of a boolean operator keeps the invariant. *)
Lemma Inv_store_bool s o k1 k2 r :
  Inv s -> lit_ok s r ->
  valid s (fun m => ∀ x y, key_truth m k1 = Some x -> key_truth m k2 = Some y ->
                           BoolVar_value m r = op_sem o x y) ->
  Inv (set_memo_caches (<[(op_name o, [k1; k2]) := OBoolVar r]> (memo_caches s)) s).
Proof.
  intros [] Hr Hv. split; try done.
  - intros o' k1' k2' v. cbn [memo_caches set_memo_caches].
    destruct (decide ((op_name o, [k1; k2]) = (op_name o', [k1'; k2']))) as [Heq|Hne].
    + injection Heq as Ho <- <-. apply op_name_inj in Ho as <-.
      rewrite lookup_insert_eq. intros [= <-]. eauto.
    + rewrite lookup_insert_ne by done. apply inv_bool0.
  - intros k1' k2' v. cbn [memo_caches set_memo_caches].
    rewrite lookup_insert_ne.
    2:{ intros [= Hn _]. by apply op_name_not_add in Hn. }
    apply inv_add0.
  - intros a k v. cbn [memo_caches set_memo_caches].
    rewrite lookup_insert_ne.
    2:{ intros [= Hn _]. by apply op_name_not_sub in Hn. }
    apply inv_sub0.
Qed.

(** ** The boolean operators are sound *)

(** The second operand of an operator: a BoolVar or a Python [bool]. *)
Definition operand_ok (s : state) (y : obj) : Prop :=
  match y with
  | OBoolVar b => lit_ok s b
  | PyBool _ => True
  | _ => False
  end.

Definition operand_truth (m : gset Z) (y : obj) : bool :=
  match y with
  | OBoolVar b => BoolVar_value m b
  | PyBool c => c
  | _ => false
  end.

Lemma valid_false s : Inv s -> valid s (fun m => BoolVar_value m (-2) = false).
Proof.
  intros HI. eapply valid_impl; [apply (inv_top s HI)|]. intros m Hm. cbn beta in Hm.
  change (-2) with (Z.opp 2). rewrite BoolVar_value_opp by done. by rewrite Hm.
Qed.

Lemma BoolVar_of_operand s y :
  Inv s -> operand_ok s y ->
  ∃ b, BoolVar_of y s = Ok b s ∧ lit_ok s b
       ∧ valid s (fun m => BoolVar_value m b = operand_truth m y).
Proof.
  intros HI Hy. pose proof (inv_last s HI). destruct y as [| c | | | | | b | |]; try done.
  - destruct c.
    + exists (TRUE_BOOL s). split; [done|]. rewrite (inv_true s HI).
      split; [split; cbn; lia|]. apply (inv_top s HI).
    + exists (FALSE_BOOL s). split; [done|]. rewrite (inv_false s HI).
      split; [split; cbn; lia|]. by apply valid_false.
  - exists b. split; [done|]. split; [done|]. by intros program m _ _.
Qed.

Lemma op_bodies_nonempty o a b : Forall (fun body => body ≠ []) (op_bodies o a b).
Proof. destruct o; repeat constructor; done. Qed.

Lemma op_bodies_nonzero o a b :
  a ≠ 0 -> b ≠ 0 -> Forall (Forall (fun l => l ≠ 0)) (op_bodies o a b).
Proof. intros Ha Hb. destruct o; repeat constructor; lia. Qed.

Lemma op_bodies_sem o m a b :
  a ≠ 0 -> b ≠ 0 ->
  existsb (forallb (BoolVar_value m)) (op_bodies o a b)
  = op_sem o (BoolVar_value m a) (BoolVar_value m b).
Proof.
  intros Ha Hb. destruct o; cbn; rewrite ?BoolVar_value_opp by done;
    by destruct (BoolVar_value m a), (BoolVar_value m b).
Qed.

Lemma folded_sem o m a (t : bool) :
  a ≠ 0 ->
  BoolVar_value m 2 = true ->
  BoolVar_value m (folded o t a 2 (-2)) = op_sem o (BoolVar_value m a) t.
Proof.
  intros Ha HT.
  assert (HF : BoolVar_value m (-2) = false).
  { change (-2) with (Z.opp 2). rewrite BoolVar_value_opp by done. by rewrite HT. }
  destruct o, t; cbn; rewrite ?BoolVar_value_opp by done; rewrite ?HT, ?HF;
    by destruct (BoolVar_value m a).
Qed.

Lemma folded_ok o s a (t : bool) :
  Inv s -> lit_ok s a -> lit_ok s (folded o t a 2 (-2)).
Proof.
  intros HI [Ha Hle]. pose proof (inv_last s HI).
  destruct o, t; cbn; split; lia.
Qed.

(** The decorated function itself, before memoization. *)
Lemma folding_func_spec o a y s :
  Inv s -> lit_ok s a -> operand_ok s y ->
  ∃ r s', folding_func o BoolVar_of a y s = Ok (OBoolVar r) s'
          ∧ Inv s' ∧ reached s s' ∧ lit_ok s' r
          ∧ memo_caches s' = memo_caches s
          ∧ valid s' (fun m => BoolVar_value m r
                               = op_sem o (BoolVar_value m a) (operand_truth m y)).
Proof.
  intros HI Ha Hy. pose proof (inv_last s HI) as Hlast.
  destruct (BoolVar_of_operand s y HI Hy) as (b & Hconv & Hb & Hbv).
  unfold folding_func. unfold mbind at 1, M_bind at 1. rewrite Hconv.
  unfold mbind at 1, M_bind at 1, gets at 1.
  unfold mbind at 1, M_bind at 1, gets at 1.
  rewrite (inv_true s HI), (inv_false s HI).
  destruct (decide (b = 2)) as [->|HbT]; [|destruct (decide (b = -2)) as [->|HbF]].
  - eexists _, s. split; [done|]. split; [done|]. split; [apply reached_refl|].
    split; [by apply folded_ok|]. split; [done|].
    intros program m Hext Hans.
    pose proof (inv_top s HI program m Hext Hans) as HT. cbn beta in HT.
    rewrite <- (Hbv program m Hext Hans), HT. by apply folded_sem; [apply Ha|].
  - eexists _, s. split; [done|]. split; [done|]. split; [apply reached_refl|].
    split; [by apply folded_ok|]. split; [done|].
    intros program m Hext Hans.
    pose proof (inv_top s HI program m Hext Hans) as HT. cbn beta in HT.
    rewrite <- (Hbv program m Hext Hans).
    rewrite (valid_false s HI program m Hext Hans).
    by apply folded_sem; [apply Ha|].
  - rewrite define_eval by (lia || apply op_bodies_nonempty).
    set (r := last_bool s + 1).
    assert (Hreach : reached s (define r (op_bodies o a b) s))
      by by apply reached_define.
    eexists _, _. split; [done|]. split; [|split; [done|split; [|split; [done|]]]].
    + eapply Inv_reached; [done|done|done| |].
      * intros l Hl. by left.
      * apply bounded_heads_define; [done|]. apply (inv_heads s HI).
    + split; cbn; lia.
    + pose proof (define_valid s r (op_bodies o a b) Hlast eq_refl (inv_heads s HI)
                    (op_bodies_nonzero o a b (proj1 Ha) (proj1 Hb))) as Hdef.
      intros program m Hext Hans.
      rewrite (Hdef program m Hext Hans).
      rewrite op_bodies_sem by (apply Ha || apply Hb). f_equal.
      eapply (valid_reached _ _ _ Hbv Hreach); eauto.
Qed.

Lemma op_key_cases o k1 k2 :
  op_key o [k1; k2] = [k1; k2]
  ∨ (op_symmetric o = true ∧ op_key o [k1; k2] = [k2; k1]).
Proof.
  unfold op_key. destruct (op_symmetric o); [|by left].
  assert (Hp : Permutation [k1; k2] (sorted [k1; k2])).
  { symmetry. apply merge_sort_Permutation. }
  apply Permutation_length_2_inv in Hp as [->| ->]; [by left|by right].
Qed.

Lemma op_sem_sym o x y : op_symmetric o = true -> op_sem o x y = op_sem o y x.
Proof. by destruct o, x, y. Qed.

Lemma hash_operand s y :
  operand_ok s y ->
  ∃ ky, hash_object y = Some ky ∧ ∀ m, key_truth m ky = Some (operand_truth m y).
Proof.
  destruct y as [| c | | | | | b | |]; try done; intros _.
  - eexists. split; [done|]. intros m. by destruct c.
  - eexists. split; [done|]. done.
Qed.

(** Each of [==], [&], [|], [^] and [>] on a usable BoolVar and a BoolVar
    or [bool] returns a usable BoolVar that, in every answer of every
    program extending the state it leaves, has the operator's truth value
    on the operands - whether the result is computed, folded, or taken
    from the memoization dictionary. *)
Theorem bool_op_sound (o : bool_op) (a : Z) (y : obj) (s : state) :
  Inv s -> lit_ok s a -> operand_ok s y ->
  ∃ r s', BoolVar_op o a y s = Ok (OBoolVar r) s'
          ∧ Inv s' ∧ reached s s' ∧ lit_ok s' r
          ∧ valid s' (fun m => BoolVar_value m r
                               = op_sem o (BoolVar_value m a) (operand_truth m y)).
Proof.
  intros HI Ha Hy. rewrite BoolVar_op_unfold.
  destruct (hash_operand s y Hy) as (ky & Hky & Htruth).
  cbn [mapM hash_object mbind option_bind]. rewrite Hky.
  cbn [mbind option_bind mret option_ret fmap option_fmap option_map].
  destruct (memo_caches s !! (op_name o, op_key o [KBoolVar a; ky])) as [v|] eqn:Hlook.
  - rewrite (memo_call_hit _ _ _ _ _ _ Hlook).
    destruct (op_key_cases o (KBoolVar a) ky) as [Hk|[Hsym Hk]]; rewrite Hk in Hlook;
      destruct (inv_bool s HI _ _ _ _ Hlook) as (r & -> & Hr & Hv);
      exists r, s; (split; [done|]); (split; [done|]);
      (split; [apply reached_refl|]); (split; [done|]);
      intros program m Hext Hans; specialize (Hv program m Hext Hans).
    + by apply Hv.
    + rewrite op_sem_sym by done. by apply Hv.
  - rewrite memo_call_miss by done. unfold method.
    destruct (folding_func_spec o a y s HI Ha Hy)
      as (r & s1 & -> & HI1 & Hreach & Hr & Hcache & Hv).
    eexists _, _. split; [done|].
    split; [|split; [exact Hreach|split; [exact Hr|exact Hv]]].
    destruct (op_key_cases o (KBoolVar a) ky) as [Hk|[Hsym Hk]]; rewrite Hk;
      apply Inv_store_bool; try done;
      intros program m Hext Hans x z Hx Hz;
      rewrite Htruth in *; cbn in *; simplify_eq;
      rewrite (Hv program m Hext Hans); [done|by apply op_sem_sym].
Qed.

Lemma bool_op_sound_witness :
  ∃ r s', BoolVar_op OpXor 3 (OBoolVar 4) two_bools = Ok (OBoolVar r) s'
          ∧ Inv s' ∧ reached two_bools s' ∧ lit_ok s' r
          ∧ valid s' (fun m => BoolVar_value m r
                               = op_sem OpXor (BoolVar_value m 3)
                                        (operand_truth m (OBoolVar 4))).
Proof.
  apply (bool_op_sound OpXor 3 (OBoolVar 4) two_bools).
  - eapply (Inv_reached boot); [apply Inv_boot| | | |].
    + split; [|by vm_compute].
      exists [[3; 1; 3; 0; 0]; [3; 1; 4; 0; 0]]. split; [by vm_compute|].
      repeat constructor; cbn; lia.
    + by vm_compute.
    + intros l Hl. left. exact Hl.
    + vm_compute. repeat constructor; discriminate.
  - by vm_compute.
  - by vm_compute.
Defined.

(** ** MultiVar construction *)

Lemma for_each_py_hash_host (values : list obj) (h : host) (s : state) :
  Forall (fun v => to_host v = Some h) values ->
  for_each values py_hash s = Ok () s.
Proof.
  induction 1 as [|v values Hv _ IH]; [done|].
  cbn [for_each]. unfold mbind, M_bind.
  destruct v; try done; cbn; apply IH.
Qed.

Lemma map_M_host_key (values : list obj) (h : host) (s : state) :
  Forall (fun v => to_host v = Some h) values ->
  map_M host_key values s = Ok (replicate (length values) h) s.
Proof.
  induction 1 as [|v values Hv _ IH]; [done|].
  cbn [length replicate map_M]. unfold mbind at 1, M_bind at 1. unfold host_key at 1.
  rewrite Hv. unfold mret at 1, M_ret at 1. unfold mbind, M_bind. by rewrite IH.
Qed.

Lemma host_not_variable (values : list obj) (h : host) :
  Forall (fun v => to_host v = Some h) values ->
  existsb is_variable values = false.
Proof.
  induction 1 as [|v values Hv _ IH]; [done|].
  cbn. rewrite IH. by destruct v.
Qed.

Lemma remove_dups_replicate (h : host) (n : nat) :
  remove_dups (replicate (S n) h) = [h].
Proof.
  induction n as [|n IH]; [done|].
  change (replicate (S (S n)) h) with (h :: replicate (S n) h).
  cbn [remove_dups]. destruct (decide_rel _ _ _) as [|Hn]; [done|].
  exfalso. apply Hn. by left.
Qed.

Lemma BoolVar_new_eval (s : state) :
  0 ≤ last_bool s ->
  BoolVar_new s
  = Ok (OBoolVar (last_bool s + 1))
       (set_clasp_rules (clasp_rules s ++ [[3; 1; last_bool s + 1; 0; 0]])
          (set_last_bool (last_bool s + 1) s)).
Proof.
  intros Hl. unfold BoolVar_new. unfold mbind at 1, M_bind at 1.
  change (new_literal s) with
    (Ok (last_bool s + 1) (set_last_bool (last_bool s + 1) s)).
  cbv iota beta. unfold mbind, M_bind, add_choice_rule.
  rewrite decide_True; [done|]. apply Forall_singleton. lia.
Qed.

Lemma at_least_eval (n i : Z) (s : state) :
  0 ≤ last_bool s -> 0 < i ->
  at_least n [OBoolVar i] s
  = Ok (OBoolVar (last_bool s + 1))
       (set_clasp_rules (clasp_rules s ++ [[5; last_bool s + 1; n; 1; 0; i; 1]])
          (set_last_bool (last_bool s + 1) s)).
Proof.
  intros Hl Hi. unfold at_least. unfold mbind at 1, M_bind at 1.
  change (map_M BoolVar_of [OBoolVar i] s) with (Ok [i] s : result (list Z)).
  cbv iota beta. unfold mbind at 1, M_bind at 1.
  change (BoolVar_internal s) with
    (Ok (OBoolVar (last_bool s + 1)) (set_last_bool (last_bool s + 1) s)).
  cbv iota beta. unfold mbind at 1, M_bind at 1. cbn [index_of mret M_ret].
  unfold mbind, M_bind, add_weight_rule. rewrite decide_True by (cbn; lia).
  cbn [negative_literals positive_literals List.filter fmap list_fmap len length app].
  destruct (Z.ltb_spec i 0), (Z.ltb_spec 0 i); try lia. done.
Qed.

Lemma basic_rule_pos_neg (r a b : Z) :
  0 < a -> 0 < b -> basic_rule r [a; - b] = [1; r; 2; 1; b; a].
Proof.
  intros Ha Hb. unfold basic_rule, negative_literals, positive_literals.
  cbn [List.filter]. destruct (Z.ltb_spec a 0), (Z.ltb_spec 0 a); try lia.
  destruct (Z.ltb_spec (- b) 0), (Z.ltb_spec 0 (- b)); try lia.
  cbn. by rewrite Z.abs_neq, Z.opp_involutive by lia.
Qed.

Lemma basic_rule_neg (r x : Z) : 0 < x -> basic_rule r [- x] = [1; r; 1; 1; x].
Proof.
  intros Hx. unfold basic_rule, negative_literals, positive_literals.
  cbn [List.filter].
  destruct (Z.ltb_spec (- x) 0), (Z.ltb_spec 0 (- x)); try lia.
  cbn. by rewrite Z.abs_neq, Z.opp_involutive by lia.
Qed.

(** C6, as amended: a MultiVar built from exactly one [int], [bool] or
    [str] value binds that value to the TRUE sentinel and touches nothing:
    no literal, no rule, no dictionary entry.  Built from one MultiVar it
    takes over that MultiVar's dictionary, again touching nothing.  Built
    from two or more values that are all the same value, it keeps one
    entry, but binds it to a fresh BoolVar, not to TRUE, and emits the
    choice rule, the two weight rules of [sum_bools], the rule of their
    conjunction and - unless the conjunction is already known true - the
    headless rule that requires it: four literals in all.  (For the last
    part the literal counter must be non-negative, the sentinels
    allocated, and no conjunction memoized for the two literals that are
    allocated for the bounds.) *)
Theorem MultiVar_single (v : obj) (h : host) (s : state) :
  to_host v = Some h ->
  MultiVar_init [v] s = Ok [(h, TRUE_BOOL s)] s
  ∧ (∀ d, MultiVar_init [OMultiVar d] s = Ok d s)
  ∧ (∀ values : list obj,
       Forall (fun w => to_host w = Some h) values ->
       (2 ≤ length values)%nat ->
       0 ≤ last_bool s ->
       Z.abs (TRUE_BOOL s) ≤ last_bool s -> Z.abs (FALSE_BOOL s) ≤ last_bool s ->
       memo_caches s !! ("BoolVar.__and__",
                         sorted [KBoolVar (last_bool s + 2);
                                 KBoolVar (- (last_bool s + 3))]) = None ->
       ∃ s', MultiVar_init values s = Ok [(h, last_bool s + 1)] s'
             ∧ last_bool s + 1 ≠ TRUE_BOOL s
             ∧ last_bool s' = last_bool s + 4
             ∧ clasp_rules s' = clasp_rules s ++
                 [[3; 1; last_bool s + 1; 0; 0];
                  [5; last_bool s + 2; 1; 1; 0; last_bool s + 1; 1];
                  [5; last_bool s + 3; 2; 1; 0; last_bool s + 1; 1];
                  [1; last_bool s + 4; 2; 1; last_bool s + 3; last_bool s + 2]]
                 ++ (if decide (last_bool s + 4 ∈ single_vars s) then []
                     else [[1; 1; 1; 1; last_bool s + 4]])).
Proof.
  intros Hv. split; [|split].
  - unfold MultiVar_init. cbn [for_each].
    destruct v; simpl in Hv; try done; injection Hv as <-; reflexivity.
  - intros d. reflexivity.
  - intros values Hall Hlen Hl HT HF Hmiss.
    unfold MultiVar_init. unfold mbind at 1, M_bind at 1.
    rewrite (for_each_py_hash_host values h) by done.
    destruct values as [|w1 [|w2 values]]; [cbn in Hlen; lia..|].
    cbv iota beta.
    rewrite (host_not_variable _ h) by done.
    unfold mbind at 1, M_bind at 1.
    rewrite (map_M_host_key _ h) by done.
    cbn [length]. rewrite remove_dups_replicate. cbn [foldl].
    set (L := last_bool s) in *.
    (* the BoolVar of the single key *)
    unfold mbind at 1, M_bind at 1. unfold mbind at 1, M_bind at 1.
    unfold mret at 1, M_ret at 1. unfold mbind at 1, M_bind at 1.
    rewrite BoolVar_new_eval by done. fold L.
    unfold mbind at 1, M_bind at 1. cbn [index_of]. unfold mret at 1, M_ret at 1.
    unfold mret at 1, M_ret at 1. cbn [dict_set fmap list_fmap snd].
    set (s1 := set_clasp_rules _ (set_last_bool (L + 1) s)).
    (* sum_bools *)
    unfold mbind at 1, M_bind at 1. unfold sum_bools.
    unfold mbind at 1, M_bind at 1.
    rewrite at_least_eval by (cbn; lia).
    set (s2 := set_clasp_rules _ (set_last_bool (last_bool s1 + 1) s1)).
    unfold mbind at 1, M_bind at 1. unfold at_most.
    unfold mbind at 1, M_bind at 1.
    rewrite at_least_eval by (cbn; lia).
    set (s3 := set_clasp_rules _ (set_last_bool (last_bool s2 + 1) s2)).
    cbn [py_invert mret M_ret BoolVar_invert].
    change (last_bool s1) with (L + 1). change (last_bool s2) with (L + 1 + 1).
    unfold py_and, py_binop.
    change BoolVar_and with (BoolVar_op OpAnd). rewrite BoolVar_op_unfold.
    cbn [mapM hash_object mbind option_bind mret option_ret fmap option_fmap option_map
         op_key op_symmetric op_name].
    unfold BoolVar_invert. cbn [hash_object mbind option_bind mret option_ret fmap
      option_fmap option_map].
    replace (L + 1 + 1 + 1) with (L + 3) by lia. replace (L + 1 + 1) with (L + 2) by lia.
    rewrite memo_call_miss by exact Hmiss.
    unfold method, folding_func. unfold mbind at 1, M_bind at 1.
    cbn [BoolVar_of BoolVar_of_const]. unfold mret at 1, M_ret at 1.
    unfold mbind at 1, M_bind at 1, gets at 1.
    unfold mbind at 1, M_bind at 1, gets at 1.
    change (TRUE_BOOL s3) with (TRUE_BOOL s). change (FALSE_BOOL s3) with (FALSE_BOOL s).
    rewrite decide_False by lia. rewrite decide_False by lia.
    rewrite define_eval by ((cbn; lia) || apply op_bodies_nonempty).
    cbn [op_bodies]. unfold mbind, M_bind. rewrite require_eval.
    change (last_bool s3) with (L + 1 + 1 + 1).
    replace (L + 1 + 1 + 1 + 1) with (L + 4) by lia.
    change (single_vars (set_memo_caches _ _)) with (single_vars s).
    assert (HnT : L + 1 ≠ TRUE_BOOL s) by lia.
    assert (Hrules : clasp_rules (define (L + 4) [[L + 2; - (L + 3)]] s3)
            = clasp_rules s ++
              [[3; 1; L + 1; 0; 0]; [5; L + 2; 1; 1; 0; L + 1; 1];
               [5; L + 3; 2; 1; 0; L + 1; 1]; [1; L + 4; 2; 1; L + 3; L + 2]]).
    { cbn [define clasp_rules set_clasp_rules set_last_bool last_bool s3 s2 s1
           fmap list_fmap].
      rewrite basic_rule_pos_neg by lia. rewrite <- !app_assoc. cbn [app].
      replace (L + 1 + 1 + 1) with (L + 3) by lia.
      replace (L + 1 + 1) with (L + 2) by lia. done. }
    destruct (decide (L + 4 ∈ single_vars s)).
    + eexists. split; [done|]. split; [done|]. split; [done|].
      cbn [clasp_rules set_memo_caches]. by rewrite Hrules, app_nil_r.
    + eexists. split; [done|]. split; [done|]. split; [done|].
      cbn [clasp_rules set_clasp_rules set_single_vars set_memo_caches].
      cbn [clasp_rules set_memo_caches] in Hrules. rewrite Hrules.
      rewrite basic_rule_neg by lia. by rewrite <- app_assoc.
Qed.

Lemma MultiVar_single_witness :
  MultiVar_init [PyInt 1] boot = Ok [(HNum 1, TRUE_BOOL boot)] boot
  ∧ MultiVar_init [OMultiVar [(HStr "x", 3); (HStr "y", 4)]] boot
    = Ok [(HStr "x", 3); (HStr "y", 4)] boot
  ∧ ∃ s', MultiVar_init [PyInt 1; PyBool true; PyInt 1] boot = Ok [(HNum 1, 3)] s'
          ∧ 3 ≠ TRUE_BOOL boot
          ∧ last_bool s' = 6
          ∧ clasp_rules s' = clasp_rules boot ++
              [[3; 1; 3; 0; 0]; [5; 4; 1; 1; 0; 3; 1]; [5; 5; 2; 1; 0; 3; 1];
               [1; 6; 2; 1; 5; 4]; [1; 1; 1; 1; 6]].
Proof.
  destruct (MultiVar_single (PyInt 1) (HNum 1) boot eq_refl) as (H1 & H2 & H3).
  split; [exact H1|]. split; [apply H2|].
  apply (H3 [PyInt 1; PyBool true; PyInt 1]); try by vm_compute.
  - by repeat constructor.
  - cbn. lia.
Defined.

(** C6, as stated, fails for a repeated value: [MultiVar('x', 'x')] keeps
    one entry, but binds it to the fresh literal 3 and emits the choice
    rule and the exactly-one constraint, using the literals up to 6. *)
Lemma MultiVar_duplicates_allocate :
  ∃ s', MultiVar_init [PyStr "x"; PyStr "x"] boot = Ok [(HStr "x", 3)] s'
        ∧ TRUE_BOOL boot = 2
        ∧ last_bool boot = 2 ∧ last_bool s' = 6
        ∧ clasp_rules s' = clasp_rules boot ++
            [[3; 1; 3; 0; 0]; [5; 4; 1; 1; 0; 3; 1]; [5; 5; 2; 1; 0; 3; 1];
             [1; 6; 2; 1; 5; 4]; [1; 1; 1; 1; 6]].
Proof. eexists. vm_compute. repeat split; reflexivity. Qed.

(** ** Which operand is inspected *)

(** C2, as amended: each of [==], [&], [|], [^] and [>] inspects its
    second operand only.  When the second operand is the TRUE or the
    FALSE sentinel the call allocates no literal, appends no rule and
    records no fact, and - unless a result is already memoized for these
    operands - returns the simplified result.  When the second operand is
    any other BoolVar and nothing is memoized for the operands, the call
    allocates the next literal and appends the operator's defining rules,
    whatever the first operand is - also when the first operand is a
    sentinel. *)
Theorem sentinel_operands (o : bool_op) (a : Z) (s : state) :
  TRUE_BOOL s ≠ FALSE_BOOL s ->
  (∀ sentinel : bool,
     ∃ r s',
       BoolVar_op o a (OBoolVar (if sentinel then TRUE_BOOL s else FALSE_BOOL s)) s
         = Ok r s'
       ∧ last_bool s' = last_bool s
       ∧ clasp_rules s' = clasp_rules s
       ∧ single_vars s' = single_vars s
       ∧ (memo_caches s !! (op_name o,
            op_key o [KBoolVar a;
                      KBoolVar (if sentinel then TRUE_BOOL s else FALSE_BOOL s)]) = None ->
          r = OBoolVar (folded o sentinel a (TRUE_BOOL s) (FALSE_BOOL s))))
  ∧ (∀ b : Z,
       b ≠ TRUE_BOOL s -> b ≠ FALSE_BOOL s -> 1 ≤ last_bool s ->
       memo_caches s !! (op_name o, op_key o [KBoolVar a; KBoolVar b]) = None ->
       ∃ s', BoolVar_op o a (OBoolVar b) s = Ok (OBoolVar (last_bool s + 1)) s'
             ∧ last_bool s' = last_bool s + 1
             ∧ clasp_rules s' = clasp_rules s
                 ++ (basic_rule (last_bool s + 1) <$> op_bodies o a b)).
Proof.
  intros Hne. split.
  - intros sentinel. rewrite BoolVar_op_unfold.
    cbn [mapM hash_object mbind option_bind mret option_ret fmap option_fmap option_map].
    set (b := if sentinel then TRUE_BOOL s else FALSE_BOOL s).
    destruct (memo_caches s !! (op_name o, op_key o [KBoolVar a; KBoolVar b]))
      as [v|] eqn:Hlook.
    + rewrite (memo_call_hit _ _ _ _ _ _ Hlook). by eexists _, _.
    + rewrite memo_call_miss by done.
      assert (Hf : method (folding_func o BoolVar_of) [OBoolVar a; OBoolVar b] s
                   = Ok (OBoolVar (folded o sentinel a (TRUE_BOOL s) (FALSE_BOOL s))) s).
      { unfold method, folding_func, mbind, M_bind, gets.
        cbn [BoolVar_of BoolVar_of_const].
        unfold mret, M_ret. subst b. destruct sentinel.
        - by rewrite decide_True.
        - rewrite decide_False by done. by rewrite decide_True. }
      rewrite Hf. by eexists _, _.
  - intros b HbT HbF Hl Hmiss. rewrite BoolVar_op_unfold.
    cbn [mapM hash_object mbind option_bind mret option_ret fmap option_fmap option_map].
    rewrite memo_call_miss by done.
    unfold method, folding_func. unfold mbind at 1, M_bind at 1.
    cbn [BoolVar_of BoolVar_of_const]. unfold mret at 1, M_ret at 1.
    unfold mbind at 1, M_bind at 1, gets at 1.
    unfold mbind at 1, M_bind at 1, gets at 1.
    rewrite decide_False by done. rewrite decide_False by done.
    rewrite define_eval by (done || apply op_bodies_nonempty).
    eexists. split; [done|]. done.
Qed.

Lemma sentinel_operands_witness :
  (∀ sentinel : bool,
     ∃ r s',
       BoolVar_op OpOr 3 (OBoolVar (if sentinel then TRUE_BOOL one_bool
                                    else FALSE_BOOL one_bool)) one_bool
         = Ok r s'
       ∧ last_bool s' = last_bool one_bool
       ∧ clasp_rules s' = clasp_rules one_bool
       ∧ single_vars s' = single_vars one_bool
       ∧ (memo_caches one_bool !! (op_name OpOr,
            op_key OpOr [KBoolVar 3;
                         KBoolVar (if sentinel then TRUE_BOOL one_bool
                                   else FALSE_BOOL one_bool)]) = None ->
          r = OBoolVar (folded OpOr sentinel 3 (TRUE_BOOL one_bool) (FALSE_BOOL one_bool))))
  ∧ ∃ s', BoolVar_op OpOr (FALSE_BOOL one_bool) (OBoolVar 3) one_bool
            = Ok (OBoolVar (last_bool one_bool + 1)) s'
          ∧ last_bool s' = last_bool one_bool + 1
          ∧ clasp_rules s' = clasp_rules one_bool
              ++ (basic_rule (last_bool one_bool + 1)
                    <$> op_bodies OpOr (FALSE_BOOL one_bool) 3).
Proof.
  split.
  - apply (sentinel_operands OpOr 3 one_bool). by vm_compute.
  - apply (sentinel_operands OpOr (FALSE_BOOL one_bool) one_bool); by vm_compute.
Defined.

(** ** Requiring, allocating and reading bits under the invariant *)

Lemma require_sound (x : Z) (s : state) :
  Inv s -> lit_ok s x ->
  ∃ s', require (OBoolVar x) s = Ok () s'
        ∧ Inv s' ∧ reached s s' ∧ memo_caches s' = memo_caches s
        ∧ valid s' (fun m => BoolVar_value m x = true).
Proof.
  intros HI [Hx Hle]. rewrite require_eval.
  destruct (decide (x ∈ single_vars s)) as [Hin|Hout].
  - exists s. split; [done|]. split; [done|]. split; [apply reached_refl|].
    split; [done|]. by apply (inv_single s HI).
  - set (s' := set_clasp_rules _ _).
    assert (Hreach : reached s s').
    { split; [|by cbn]. exists [basic_rule 1 [- x]]. split; [done|].
      apply Forall_singleton. cbn. apply Forall_singleton. by left. }
    assert (Hv : valid s' (fun m => BoolVar_value m x = true)).
    { intros program m Hext Ha.
      assert (Hb : forallb (BoolVar_value m) [- x] = false).
      { eapply headless_body; [done| |apply Forall_singleton; lia].
        eapply extends_elem; [done|]. cbn. apply elem_of_app. right. by left. }
      cbn [forallb] in Hb. rewrite andb_true_r, BoolVar_value_opp in Hb by done.
      by destruct (BoolVar_value m x). }
    exists s'. split; [done|]. split; [|done].
    eapply Inv_reached; [done|done|done| |].
    + intros l Hl. cbn in Hl. apply elem_of_union in Hl as [Hl|Hl]; [|by left].
      apply elem_of_singleton in Hl as ->. by right.
    + cbn. apply bounded_heads_app. split; [apply (inv_heads s HI)|].
      apply Forall_singleton. cbn. apply Forall_singleton.
      pose proof (inv_last s HI). lia.
Qed.

Lemma BoolVar_new_sound (s : state) :
  Inv s ->
  ∃ s', BoolVar_new s = Ok (OBoolVar (last_bool s + 1)) s'
        ∧ Inv s' ∧ reached s s' ∧ memo_caches s' = memo_caches s
        ∧ last_bool s' = last_bool s + 1.
Proof.
  intros HI. pose proof (inv_last s HI) as Hl.
  rewrite BoolVar_new_eval by lia. set (s' := set_clasp_rules _ _).
  assert (Hreach : reached s s').
  { split; [|cbn; repeat split; lia]. eexists. split; [done|].
    apply Forall_singleton. cbn. apply Forall_singleton. right. lia. }
  exists s'. split; [done|]. split; [|done].
  eapply Inv_reached; [done|done|done| |].
  - intros l Hl'. by left.
  - cbn. apply bounded_heads_app. split.
    + eapply bounded_heads_mono; [|apply (inv_heads s HI)]. lia.
    + apply Forall_singleton. cbn. by apply Forall_singleton.
Qed.

(** [[(FALSE_BOOL if skip i else BoolVar()) for i in idxs]]: the bits that
    are not skipped are fresh literals. *)
Lemma alloc_bits_sound (f : Z -> M Z) (skip : Z -> bool) (idxs : list Z) (s : state) :
  (∀ i s, f i s = if skip i then Ok (-2) s
                  else (r ← BoolVar_new; index_of r) s) ->
  Inv s ->
  ∃ bits s',
    map_M f idxs s = Ok bits s'
    ∧ Inv s' ∧ reached s s' ∧ memo_caches s' = memo_caches s
    ∧ Forall2 (fun i b => if skip i then b = -2
                          else last_bool s < b ≤ last_bool s') idxs bits.
Proof.
  intros Hf. revert s. induction idxs as [|i idxs IH]; intros s HI.
  - exists [], s. split; [done|]. split; [done|]. split; [apply reached_refl|].
    split; [done|constructor].
  - cbn [map_M]. unfold mbind at 1, M_bind at 1. rewrite Hf.
    destruct (skip i) eqn:Hskip.
    + destruct (IH s HI) as (bits & s' & Hrun & HI' & Hr & Hm & Hall).
      unfold mbind, M_bind. rewrite Hrun.
      exists (-2 :: bits), s'. split; [done|]. split; [done|]. split; [done|].
      split; [done|]. constructor; [by rewrite Hskip|done].
    + destruct (BoolVar_new_sound s HI) as (s1 & Hnew & HI1 & Hr1 & Hm1 & Hl1).
      unfold mbind at 1, M_bind at 1. rewrite Hnew. cbn [index_of].
      unfold mret at 1, M_ret at 1.
      destruct (IH s1 HI1) as (bits & s' & Hrun & HI' & Hr & Hm & Hall).
      unfold mbind, M_bind. rewrite Hrun.
      assert (Hle : last_bool s1 ≤ last_bool s') by apply Hr.
      exists (last_bool s + 1 :: bits), s'. split; [done|]. split; [done|].
      split; [by eapply reached_trans|]. split; [congruence|].
      constructor; [rewrite Hskip; lia|].
      eapply Forall2_impl; [exact Hall|]. intros j b Hb. cbn beta in Hb.
      destruct (skip j); [done|lia].
Qed.

Lemma getbit_eval (bits : list Z) (i : nat) (b : Z) (s : state) :
  bits !! i = Some b -> getbit bits (Z.of_nat i) s = Ok b s.
Proof. intros Hb. unfold getbit. by rewrite Nat2Z.id, Hb. Qed.

(** The comprehension [[i + off for i in idxs if bits[i].index != F]] on
    indices within the list. *)
Lemma nonfalse_eval (F : Z) (bits : list Z) (off : Z) (idxs : list nat) (s : state) :
  Forall (fun i => (i < length bits)%nat) idxs ->
  ∃ l, nonfalse F bits off (Z.of_nat <$> idxs) s = Ok l s
       ∧ ∀ (i : nat) b, i ∈ idxs -> bits !! i = Some b -> b ≠ F ->
                        Z.of_nat i + off ∈ l.
Proof.
  induction 1 as [|i idxs Hi _ (l & Hrun & Hl)].
  - exists []. split; [done|]. intros i b Hin. by apply elem_of_nil in Hin.
  - destruct (lookup_lt_is_Some_2 bits i Hi) as [b Hb].
    cbn [fmap list_fmap nonfalse]. unfold mbind at 1, M_bind at 1.
    rewrite (getbit_eval _ _ _ _ Hb). unfold mbind, M_bind.
    change (list_fmap nat Z Z.of_nat idxs) with (Z.of_nat <$> idxs). rewrite Hrun.
    eexists. split; [done|]. intros j c Hin Hc Hne.
    apply elem_of_cons in Hin as [->|Hin].
    + assert (c = b) as -> by congruence. rewrite decide_True by done. by left.
    + specialize (Hl j c Hin Hc Hne). case_decide; [by right|done].
Qed.

Lemma foldl_max_le (x : Z) (l : list Z) :
  x ≤ foldl Z.max x l ∧ ∀ y, y ∈ l -> y ≤ foldl Z.max x l.
Proof.
  revert x. induction l as [|z l IH]; intros x.
  - split; [done|]. intros y Hy. by apply elem_of_nil in Hy.
  - cbn [foldl]. destruct (IH (Z.max x z)) as [H1 H2]. split; [lia|].
    intros y [->|Hy]%elem_of_cons; [lia|by apply H2].
Qed.

Lemma py_max_eval (l : list Z) (s : state) :
  l ≠ [] -> ∃ mx, py_max l s = Ok mx s ∧ ∀ y, y ∈ l -> y ≤ mx.
Proof.
  destruct l as [|x l]; [done|]. intros _. eexists. split; [done|].
  destruct (foldl_max_le x l) as [H1 H2].
  intros y [->|Hy]%elem_of_cons; [done|by apply H2].
Qed.

(** ** The ripple-carry adder *)

(** The carry of [constrain_sum]: Python's [False] before the first bit,
    a BoolVar afterwards. *)
Definition carry_ok (s : state) (c : obj) : Prop :=
  match c with
  | PyBool false => True
  | OBoolVar ci => lit_ok s ci
  | _ => False
  end.

Lemma carry_operand s c : carry_ok s c -> operand_ok s c.
Proof. destruct c as [| [] | | | | | | |]; done. Qed.

Lemma carry_ok_reached s s' c : carry_ok s c -> reached s s' -> carry_ok s' c.
Proof.
  destruct c as [| [] | | | | | ci | |]; try done. intros H Hr. by eapply lit_ok_reached.
Qed.

Lemma bits_value_all_false m (l : list Z) :
  BoolVar_value m (-2) = false -> Forall (fun x => x = -2) l -> bits_value m l = 0.
Proof.
  intros HF. induction 1 as [|x l -> _ IH]; [done|].
  rewrite bits_value_cons, IH, HF. done.
Qed.

Lemma bits_value_take_S m (l : list Z) (k : nat) (x : Z) :
  l !! k = Some x ->
  bits_value m (take (S k) l)
  = bits_value m (take k l) + 2 ^ Z.of_nat k * Z.b2z (BoolVar_value m x).
Proof.
  intros Hx. rewrite (take_S_r _ _ _ Hx), bits_value_app.
  assert (Hk : (k < length l)%nat) by (eapply lookup_lt_Some; eauto).
  unfold len. rewrite length_take, Nat.min_l by lia.
  rewrite bits_value_cons. change (bits_value m []) with 0. lia.
Qed.

Lemma bits_value_split m (l : list Z) (k : nat) :
  (k ≤ length l)%nat ->
  bits_value m l = bits_value m (take k l) + 2 ^ Z.of_nat k * bits_value m (drop k l).
Proof.
  intros Hk. rewrite (bits_value_take_drop m l k) at 1.
  unfold len. by rewrite length_take, Nat.min_l by lia.
Qed.

Lemma require_invert_carry (c : obj) (s : state) :
  Inv s -> carry_ok s c ->
  ∃ s', (nc ← py_invert c; require nc) s = Ok () s'
        ∧ Inv s' ∧ reached s s'
        ∧ valid s' (fun m => operand_truth m c = false).
Proof.
  intros HI Hc. destruct c as [| [] | | | | | ci | |]; try done.
  - unfold mbind, M_bind. cbn [py_invert mret M_ret].
    assert (Heq : require (PyInt (-1)) s = require (OBoolVar 2) s).
    { unfold require, mbind, M_bind. cbn [BoolVar_of BoolVar_of_const].
      rewrite decide_False by done. unfold gets. by rewrite (inv_true s HI). }
    rewrite Heq.
    destruct (require_sound 2 s HI) as (s' & Hrun & HI' & Hr & _ & _).
    { pose proof (inv_last s HI). split; cbn; lia. }
    exists s'. split; [done|]. split; [done|]. split; [done|]. by intros program m _ _.
  - unfold mbind, M_bind. cbn [py_invert mret M_ret BoolVar_invert].
    destruct (require_sound (- ci) s HI) as (s' & Hrun & HI' & Hr & _ & Hv).
    { destruct Hc. split; lia. }
    exists s'. split; [done|]. split; [done|]. split; [done|].
    eapply valid_impl; [exact Hv|]. intros m Hm. cbn beta in Hm. cbn.
    rewrite BoolVar_value_opp in Hm by apply Hc. by destruct (BoolVar_value m ci).
Qed.

Lemma full_adder (P A B R : Z) (ai bi ri c c' d dc e ab dandc : bool) :
  d = xorb ai bi -> dc = xorb d c -> e = eqb ri dc -> e = true ->
  ab = ai && bi -> dandc = d && c -> c' = ab || dandc ->
  A + B = R + P * Z.b2z c ->
  (A + P * Z.b2z ai) + (B + P * Z.b2z bi) = (R + P * Z.b2z ri) + 2 * P * Z.b2z c'.
Proof.
  intros -> -> -> He -> -> -> Heq.
  destruct ai, bi, ri, c; cbn in *; try discriminate; lia.
Qed.

Lemma py_binop_BoolVar meth f g (a : Z) (y : obj) :
  py_binop meth f g (OBoolVar a) y = meth a y.
Proof. done. Qed.

(** The loop of [constrain_sum] from bit [k] on, [d] bits to go: given
    that the bits below [k] add up with carry [c], the bits at and above
    [max_bit] of the summands and above [max_bit] of the result being the
    FALSE sentinel, it ends with the three numbers adding up. *)
Lemma constrain_sum_loop_sound (d : nat) :
  ∀ (k : nat) (a b result : list Z) (max_bit : Z) (c : obj) (s : state),
    Inv s ->
    Forall (lit_ok s) a -> Forall (lit_ok s) b -> Forall (lit_ok s) result ->
    length a = (k + d)%nat -> length b = (k + d)%nat -> length result = (k + d)%nat ->
    carry_ok s c ->
    (∀ (j : nat) x, max_bit ≤ Z.of_nat j -> a !! j = Some x -> x = -2) ->
    (∀ (j : nat) x, max_bit ≤ Z.of_nat j -> b !! j = Some x -> x = -2) ->
    (∀ (j : nat) x, max_bit < Z.of_nat j -> result !! j = Some x -> x = -2) ->
    valid s (fun m => bits_value m (take k a) + bits_value m (take k b)
                      = bits_value m (take k result)
                        + 2 ^ Z.of_nat k * Z.b2z (operand_truth m c)) ->
    ∃ s', constrain_sum_loop (Z.of_nat <$> seq k d) a b result max_bit c s = Ok () s'
          ∧ Inv s' ∧ reached s s'
          ∧ valid s' (fun m => bits_value m a + bits_value m b = bits_value m result).
Proof.
  induction d as [|d IH];
    intros k a b result max_bit c s HI Ha Hb Hres Hla Hlb Hlr Hc Hma Hmb Hmr Hinv.
  - cbn [seq fmap list_fmap constrain_sum_loop].
    destruct (require_invert_carry c s HI Hc) as (s' & Hrun & HI' & Hr & Hv).
    exists s'. split; [done|]. split; [done|]. split; [done|].
    intros program m Hext Hans.
    pose proof (Hv program m Hext Hans) as Hcf. cbn beta in Hcf.
    pose proof (Hinv program m (reached_extends _ _ _ Hr Hext) Hans) as Heq.
    cbn beta in Heq. rewrite Hcf in Heq. cbn [Z.b2z] in Heq.
    rewrite !take_ge in Heq by lia. lia.
  - cbn [seq fmap list_fmap constrain_sum_loop].
    change (list_fmap nat Z Z.of_nat (seq (S k) d)) with (Z.of_nat <$> seq (S k) d).
    destruct (lookup_lt_is_Some_2 a k) as [ai Hai]; [lia|].
    destruct (lookup_lt_is_Some_2 b k) as [bi Hbi]; [lia|].
    destruct (lookup_lt_is_Some_2 result k) as [ri Hri]; [lia|].
    assert (Hai_ok : lit_ok s ai) by (eapply Forall_lookup_1 in Ha; eauto).
    assert (Hbi_ok : lit_ok s bi) by (eapply Forall_lookup_1 in Hb; eauto).
    assert (Hri_ok : lit_ok s ri) by (eapply Forall_lookup_1 in Hres; eauto).
    unfold mbind at 1, M_bind at 1. rewrite (getbit_eval _ _ _ _ Hai).
    unfold mbind at 1, M_bind at 1. rewrite (getbit_eval _ _ _ _ Hbi).
    (* d = a[i] ^ b[i] *)
    unfold mbind at 1, M_bind at 1.
    destruct (bool_op_sound OpXor ai (OBoolVar bi) s HI Hai_ok Hbi_ok)
      as (x1 & s1 & E1 & HI1 & R1 & L1 & V1).
    change BoolVar_xor with (BoolVar_op OpXor). rewrite E1.
    unfold mbind at 1, M_bind at 1. rewrite (getbit_eval _ _ _ _ Hri).
    (* d ^ c *)
    unfold mbind at 1, M_bind at 1. unfold py_xor. rewrite py_binop_BoolVar.
    destruct (bool_op_sound OpXor x1 c s1 HI1 L1)
      as (x2 & s2 & E2 & HI2 & R2 & L2 & V2).
    { apply carry_operand. by eapply carry_ok_reached. }
    change BoolVar_xor with (BoolVar_op OpXor). rewrite E2.
    (* result[i] == (d ^ c) *)
    pose proof (reached_trans _ _ _ R1 R2) as R02.
    unfold mbind at 1, M_bind at 1.
    destruct (bool_op_sound OpEq ri (OBoolVar x2) s2 HI2)
      as (x3 & s3 & E3 & HI3 & R3 & L3 & V3); [by eapply lit_ok_reached|done|].
    change BoolVar_eq with (BoolVar_op OpEq). rewrite E3.
    pose proof (reached_trans _ _ _ R02 R3) as R03.
    unfold mbind at 1, M_bind at 1.
    destruct (require_sound x3 s3 HI3 L3) as (s4 & E4 & HI4 & R4 & _ & V4).
    rewrite E4.
    pose proof (reached_trans _ _ _ R03 R4) as R04.
    pose proof (reached_trans _ _ _ R3 R4) as R24.
    pose proof (reached_trans _ _ _ R2 R24) as R14.
    destruct (decide (Z.of_nat k = max_bit)) as [Hmax|Hmax].
    + (* the remaining bits are known to be false *)
      exists s4. split; [done|]. split; [done|]. split; [done|].
      intros program m Hext Hans.
      pose proof (Hinv program m (reached_extends _ _ _ R04 Hext) Hans) as Heq.
      pose proof (V1 program m (reached_extends _ _ _ R14 Hext) Hans) as F1.
      pose proof (V2 program m (reached_extends _ _ _ R24 Hext) Hans) as F2.
      pose proof (V3 program m (reached_extends _ _ _ R4 Hext) Hans) as F3.
      pose proof (V4 program m Hext Hans) as F4.
      pose proof (valid_false s4 HI4 program m Hext Hans) as HF.
      cbn beta in Heq, F1, F2, F3, F4, HF. cbn [operand_truth] in F1, F3.
      assert (ai = -2) as -> by (eapply Hma; [|done]; lia).
      assert (bi = -2) as -> by (eapply Hmb; [|done]; lia).
      rewrite HF in F1. cbn [op_sem xorb] in F1, F2, F3.
      rewrite F1 in F2. rewrite F2, F4 in F3.
      assert (Hric : BoolVar_value m ri = operand_truth m c).
      { destruct (BoolVar_value m ri), (operand_truth m c); done. }
      rewrite (bits_value_split m a k), (bits_value_split m b k),
              (bits_value_split m result (S k)) by lia.
      rewrite (bits_value_take_S m result k ri) by done.
      rewrite (bits_value_all_false m (drop k a)), (bits_value_all_false m (drop k b)),
              (bits_value_all_false m (drop (S k) result)); try done.
      * rewrite Hric. lia.
      * apply Forall_forall. intros x Hx. apply list_elem_of_lookup in Hx as [j Hj].
        rewrite lookup_drop in Hj. eapply Hmr; [|exact Hj]. lia.
      * apply Forall_forall. intros x Hx. apply list_elem_of_lookup in Hx as [j Hj].
        rewrite lookup_drop in Hj. eapply Hmb; [|exact Hj]. lia.
      * apply Forall_forall. intros x Hx. apply list_elem_of_lookup in Hx as [j Hj].
        rewrite lookup_drop in Hj. eapply Hma; [|exact Hj]. lia.
    + (* the next carry *)
      unfold mbind at 1, M_bind at 1.
      destruct (bool_op_sound OpAnd ai (OBoolVar bi) s4 HI4)
        as (x5 & s5 & E5 & HI5 & R5 & L5 & V5);
        [by eapply lit_ok_reached|by eapply (lit_ok_reached s)|].
      change BoolVar_and with (BoolVar_op OpAnd). rewrite E5.
      pose proof (reached_trans _ _ _ R04 R5) as R05.
      unfold mbind at 1, M_bind at 1. unfold py_and. rewrite py_binop_BoolVar.
      destruct (bool_op_sound OpAnd x1 c s5 HI5)
        as (x6 & s6 & E6 & HI6 & R6 & L6 & V6).
      { eapply lit_ok_reached; [exact L1|]. by eapply reached_trans. }
      { apply carry_operand. by eapply carry_ok_reached. }
      change BoolVar_and with (BoolVar_op OpAnd). rewrite E6.
      pose proof (reached_trans _ _ _ R05 R6) as R06.
      unfold mbind at 1, M_bind at 1. unfold py_or. rewrite py_binop_BoolVar.
      destruct (bool_op_sound OpOr x5 (OBoolVar x6) s6 HI6)
        as (x7 & s7 & E7 & HI7 & R7 & L7 & V7); [by eapply lit_ok_reached|done|].
      change BoolVar_or with (BoolVar_op OpOr). rewrite E7.
      pose proof (reached_trans _ _ _ R06 R7) as R07.
      destruct (IH (S k) a b result max_bit (OBoolVar x7) s7 HI7)
        as (s' & Hrun & HI' & R' & V'); try done; try lia.
      * eapply Forall_impl; [exact Ha|]. intros l Hl. by eapply lit_ok_reached.
      * eapply Forall_impl; [exact Hb|]. intros l Hl. by eapply lit_ok_reached.
      * eapply Forall_impl; [exact Hres|]. intros l Hl. by eapply lit_ok_reached.
      * intros program m Hext Hans.
        pose proof (reached_trans _ _ _ R6 R7) as R57.
        pose proof (reached_trans _ _ _ R5 R57) as R47.
        pose proof (Hinv program m (reached_extends _ _ _ R07 Hext) Hans) as Heq.
        pose proof (V1 program m
          (reached_extends _ _ _ (reached_trans _ _ _ R14 R47) Hext) Hans) as F1.
        pose proof (V2 program m
          (reached_extends _ _ _ (reached_trans _ _ _ R24 R47) Hext) Hans) as F2.
        pose proof (V3 program m
          (reached_extends _ _ _ (reached_trans _ _ _ R4 R47) Hext) Hans) as F3.
        pose proof (V4 program m (reached_extends _ _ _ R47 Hext) Hans) as F4.
        pose proof (V5 program m (reached_extends _ _ _ R57 Hext) Hans) as F5.
        pose proof (V6 program m (reached_extends _ _ _ R7 Hext) Hans) as F6.
        pose proof (V7 program m Hext Hans) as F7.
        cbn beta in Heq, F1, F2, F3, F4, F5, F6, F7.
        cbn [operand_truth op_sem] in F1, F2, F3, F5, F6, F7 |- *.
        rewrite (bits_value_take_S m a k ai), (bits_value_take_S m b k bi),
                (bits_value_take_S m result k ri) by done.
        rewrite Nat2Z.inj_succ, Z.pow_succ_r by lia.
        pose proof (full_adder (2 ^ Z.of_nat k) _ _ _ _ _ _ _ _ _ _ _ _ _
                      F1 F2 F3 F4 F5 F6 F7 Heq) as Hfa.
        lia.
      * exists s'. split; [done|]. split; [done|]. split; [|done].
        by eapply reached_trans.
Qed.

Lemma int_ok_length s bits :
  int_ok s bits -> length bits = Z.to_nat (NUM_BITS s).
Proof. intros [Hlen _]. unfold len in Hlen. lia. Qed.

(** [constrain_sum(a, b, result)] on three IntVars of the configured width,
    one of which has a bit that is not the FALSE sentinel: in every answer
    of a program extending the state it leaves, [a + b = result]. *)
Lemma constrain_sum_sound (a b result : list Z) (s : state) :
  Inv s -> int_ok s a -> int_ok s b -> int_ok s result ->
  (∃ (j : nat) x, x ≠ -2 ∧ (a !! j = Some x ∨ b !! j = Some x ∨ result !! j = Some x)) ->
  ∃ s', constrain_sum a b result s = Ok (OIntVar result) s'
        ∧ Inv s' ∧ reached s s'
        ∧ valid s' (fun m => bits_value m a + bits_value m b = bits_value m result).
Proof.
  intros HI Ha Hb Hr (j & x & Hx & Hj).
  pose proof (int_ok_length _ _ Ha) as Hla. pose proof (int_ok_length _ _ Hb) as Hlb.
  pose proof (int_ok_length _ _ Hr) as Hlr.
  set (n := Z.to_nat (NUM_BITS s)) in *.
  assert (Hidx : ∀ l : list Z, length l = n -> Forall (fun i => (i < length l)%nat) (seq 0 n)).
  { intros l Hl. apply Forall_forall. intros i Hi%elem_of_seq. lia. }
  unfold constrain_sum. unfold mbind at 1, M_bind at 1, gets at 1.
  rewrite (inv_false s HI).
  unfold mbind at 1, M_bind at 1, gets at 1. unfold BITS. fold n.
  destruct (nonfalse_eval (-2) a 1 (seq 0 n) s (Hidx a Hla)) as (la & Ela & Hina).
  destruct (nonfalse_eval (-2) b 1 (seq 0 n) s (Hidx b Hlb)) as (lb & Elb & Hinb).
  destruct (nonfalse_eval (-2) result 0 (seq 0 n) s (Hidx result Hlr)) as (lr & Elr & Hinr).
  unfold mbind at 1, M_bind at 1. rewrite Ela.
  unfold mbind at 1, M_bind at 1. rewrite Elb.
  unfold mbind at 1, M_bind at 1. rewrite Elr.
  assert (Hjn : (j < n)%nat).
  { destruct Hj as [Hj|[Hj|Hj]]; apply lookup_lt_Some in Hj; lia. }
  assert (Hjin : j ∈ seq 0 n) by (apply elem_of_seq; lia).
  destruct (py_max_eval (la ++ lb ++ lr) s) as (mx & Emax & Hmx).
  { intros E. apply app_eq_nil in E as [-> E]. apply app_eq_nil in E as [-> ->].
    destruct Hj as [Hj|[Hj|Hj]].
    - specialize (Hina j x Hjin Hj Hx). by apply elem_of_nil in Hina.
    - specialize (Hinb j x Hjin Hj Hx). by apply elem_of_nil in Hinb.
    - specialize (Hinr j x Hjin Hj Hx). by apply elem_of_nil in Hinr. }
  unfold mbind at 1, M_bind at 1. rewrite Emax.
  destruct (constrain_sum_loop_sound n 0 a b result mx (PyBool false) s HI)
    as (s' & Hrun & HI' & Hreach & Hv);
    try done; try apply Ha; try apply Hb; try apply Hr.
  - intros i y Hle Hi. destruct (decide (y = -2)) as [|Hy]; [done|].
    assert (Hin : i ∈ seq 0 n) by (apply lookup_lt_Some in Hi; apply elem_of_seq; lia).
    specialize (Hina i y Hin Hi Hy).
    assert (Z.of_nat i + 1 ≤ mx) by (apply Hmx; rewrite !elem_of_app; auto). lia.
  - intros i y Hle Hi. destruct (decide (y = -2)) as [|Hy]; [done|].
    assert (Hin : i ∈ seq 0 n) by (apply lookup_lt_Some in Hi; apply elem_of_seq; lia).
    specialize (Hinb i y Hin Hi Hy).
    assert (Z.of_nat i + 1 ≤ mx) by (apply Hmx; rewrite !elem_of_app; auto). lia.
  - intros i y Hle Hi. destruct (decide (y = -2)) as [|Hy]; [done|].
    assert (Hin : i ∈ seq 0 n) by (apply lookup_lt_Some in Hi; apply elem_of_seq; lia).
    specialize (Hinr i y Hin Hi Hy).
    assert (Z.of_nat i + 0 ≤ mx) by (apply Hmx; rewrite !elem_of_app; auto). lia.
  - unfold mbind, M_bind. rewrite Hrun. exists s'. done.
Qed.

(** ** Addition and subtraction of IntVars *)

(** The second operand of [+] and [-]: an IntVar of the configured width
    or an [int] that fits it. *)
Definition int_operand_ok (s : state) (x : obj) : Prop :=
  match x with
  | OIntVar b => int_ok s b
  | PyInt z => 0 ≤ z < 2 ^ NUM_BITS s
  | _ => False
  end.

Definition operand_value (m : gset Z) (x : obj) : Z :=
  match x with
  | OIntVar b => bits_value m b
  | PyInt z => z
  | _ => 0
  end.

Lemma constant_bits_value (s : state) (m : gset Z) (z : Z) :
  0 ≤ NUM_BITS s -> 0 ≤ z < 2 ^ NUM_BITS s ->
  BoolVar_value m (TRUE_BOOL s) = true -> BoolVar_value m (FALSE_BOOL s) = false ->
  bits_value m ((fun i => if Z.testbit z i then TRUE_BOOL s else FALSE_BOOL s) <$> BITS s)
  = z.
Proof.
  intros Hn Hz HT HF. set (bits := _ <$> BITS s).
  assert (Hlen : length bits = Z.to_nat (NUM_BITS s)).
  { unfold bits. by rewrite length_fmap, length_BITS. }
  assert (Hvalue : IntVar_value s m bits = Some z).
  { unfold IntVar_value, BITS.
    rewrite (constant_bits_on m z (TRUE_BOOL s) (FALSE_BOOL s)); [|done|done|].
    - f_equal. simpl. rewrite Z.div_1_r, Z.mul_1_r, Z2Nat.id by done.
      by apply Z.mod_small.
    - intros i Hi. unfold bits, BITS. rewrite list_lookup_fmap, list_lookup_fmap.
      rewrite lookup_seq_lt by lia. done. }
  rewrite IntVar_value_bits in Hvalue by (unfold len; lia).
  rewrite take_ge in Hvalue by lia. congruence.
Qed.

Lemma IntVar_of_operand (s : state) (x : obj) :
  Inv s -> 0 ≤ NUM_BITS s -> int_operand_ok s x ->
  ∃ b, IntVar_of x s = Ok b s ∧ int_ok s b
       ∧ valid s (fun m => bits_value m b = operand_value m x).
Proof.
  intros HI Hn Hx. pose proof (inv_last s HI) as Hl.
  destruct x as [| | z | | | | | b |]; try done.
  - cbn in Hx. rewrite IntVar_of_int by done. rewrite decide_True.
    2:{ rewrite Z.shiftr_div_pow2 by done. by apply Z.div_small. }
    eexists. split; [done|]. split.
    + split; [unfold len; rewrite length_fmap, length_BITS; lia|].
      apply Forall_fmap, Forall_forall. intros i _. cbn.
      rewrite (inv_true s HI), (inv_false s HI).
      destruct (Z.testbit z i); split; lia.
    + intros program m Hext Hans. cbn [operand_value].
      apply constant_bits_value; [done|done| |].
      * rewrite (inv_true s HI). by apply (inv_top s HI program m).
      * rewrite (inv_false s HI). by apply (valid_false s HI program m).
  - exists b. split; [done|]. split; [done|]. by intros program m _ _.
Qed.

Lemma converting_eval (x : obj) (b : list Z) (rest : list Z -> M obj) (s : state) :
  IntVar_of x s = Ok b s -> converting IntVar_of x rest s = rest b s.
Proof.
  intros Hx. unfold converting. unfold mbind at 1, M_bind at 1.
  unfold except_TypeError, fmap, M_fmap. by rewrite Hx.
Qed.

Lemma fresh_lit_ok (s s' : state) (b : Z) :
  Inv s -> last_bool s < b ≤ last_bool s' -> lit_ok s' b.
Proof. intros HI Hb. pose proof (inv_last s HI). split; lia. Qed.

Lemma false_lit_ok (s : state) : Inv s -> lit_ok s (-2).
Proof. intros HI. pose proof (inv_last s HI). split; lia. Qed.

Lemma alloc_bits_int_ok (skip : Z -> bool) (s s' : state) (bits : list Z) :
  Inv s -> Inv s' -> 0 ≤ NUM_BITS s -> NUM_BITS s' = NUM_BITS s ->
  Forall2 (fun i b => if skip i then b = -2 else last_bool s < b ≤ last_bool s')
          (BITS s) bits ->
  int_ok s' bits.
Proof.
  intros HI HI' Hn Hnb Hall. split.
  - apply Forall2_length in Hall. rewrite length_BITS in Hall. unfold len. lia.
  - eapply Forall2_Forall_r; [exact Hall|]. apply Forall_forall.
    intros i _ b Hb. cbn beta in Hb. destruct (skip i).
    + subst b. by apply false_lit_ok.
    + by apply (fresh_lit_ok s).
Qed.

(** The function under [IntVar.__add__]'s decorator. *)
Lemma add_func_sound (a : list Z) (x : obj) (s : state) :
  Inv s -> 1 ≤ NUM_BITS s -> int_ok s a -> int_operand_ok s x ->
  ∃ c s', add_func a x s = Ok (OIntVar c) s'
          ∧ Inv s' ∧ reached s s' ∧ int_ok s' c
          ∧ valid s' (fun m => bits_value m a + operand_value m x = bits_value m c).
Proof.
  intros HI Hn Ha Hx.
  destruct (IntVar_of_operand s x HI) as (b & Hconv & Hb & Hbv); [lia|done|].
  unfold add_func. rewrite (converting_eval x b) by done.
  pose proof (int_ok_length _ _ Ha) as Hla. pose proof (int_ok_length _ _ Hb) as Hlb.
  set (n := Z.to_nat (NUM_BITS s)) in *.
  assert (Hidx : ∀ l : list Z, length l = n -> Forall (fun i => (i < length l)%nat) (seq 0 n)).
  { intros l Hl. apply Forall_forall. intros i Hi%elem_of_seq. lia. }
  unfold mbind at 1, M_bind at 1, gets at 1. rewrite (inv_false s HI).
  unfold mbind at 1, M_bind at 1, gets at 1.
  destruct (nonfalse_eval (-2) a 0 (seq 0 n) s (Hidx a Hla)) as (la & Ela & _).
  destruct (nonfalse_eval (-2) b 0 (seq 0 n) s (Hidx b Hlb)) as (lb & Elb & _).
  assert (HB : BITS s = Z.of_nat <$> seq 0 n) by done.
  rewrite HB. unfold mbind at 1, M_bind at 1. rewrite Ela.
  unfold mbind at 1, M_bind at 1. rewrite Elb.
  destruct (py_max_eval (la ++ lb ++ [-1]) s) as (mx & Emax & Hmx).
  { intros E. apply app_eq_nil in E as [_ E]. by apply app_eq_nil in E as [_ E]. }
  assert (Hm1 : -1 ≤ mx) by (apply Hmx; rewrite !elem_of_app; right; right; by left).
  unfold mbind at 1, M_bind at 1. rewrite Emax.
  unfold mbind at 1, M_bind at 1. rewrite IntVar_of_zero by lia.
  destruct (alloc_bits_sound
              (fun i => if decide (i > mx + 1) then mret (-2)
                        else r ← BoolVar_new; index_of r)
              (fun i => bool_decide (i > mx + 1)) (Z.of_nat <$> seq 0 n) s)
    as (c & s1 & Ealloc & HI1 & R1 & M1 & Hall); [|done|].
  { intros i t. by destruct (decide (i > mx + 1));
      [rewrite bool_decide_eq_true_2|rewrite bool_decide_eq_false_2]. }
  unfold mbind at 1, M_bind at 1. rewrite Ealloc.
  assert (Hnb : NUM_BITS s1 = NUM_BITS s) by apply R1.
  rewrite <- HB in Hall.
  assert (Hc : int_ok s1 c).
  { apply (alloc_bits_int_ok (fun i => bool_decide (i > mx + 1)) s s1 c HI HI1);
      [lia|done|exact Hall]. }
  destruct (constrain_sum_sound a b c s1 HI1) as (s2 & Esum & HI2 & R2 & Hv).
  { by eapply int_ok_reached. }
  { by eapply int_ok_reached. }
  { done. }
  { (* bit 0 of the result is a fresh literal *)
    assert (H0 : BITS s !! 0%nat = Some 0).
    { unfold BITS. rewrite list_lookup_fmap, lookup_seq_lt by lia. done. }
    destruct (Forall2_lookup_l _ _ _ _ _ Hall H0) as (c0 & Hc0 & Hfresh).
    rewrite bool_decide_eq_false_2 in Hfresh by lia.
    exists 0%nat, c0. pose proof (inv_last s HI). split; [lia|auto]. }
  unfold mbind, M_bind. rewrite Esum.
  exists c, s2. split; [done|]. split; [done|]. split; [by eapply reached_trans|].
  split; [by eapply int_ok_reached|].
  intros program m Hext Hans.
  rewrite <- (Hv program m Hext Hans). f_equal. symmetry.
  apply (Hbv program m); [|done].
  eapply reached_extends; [|done]. by eapply reached_trans.
Qed.

Lemma sorted_pair_cases (k1 k2 : hashobj) :
  sorted [k1; k2] = [k1; k2] ∨ sorted [k1; k2] = [k2; k1].
Proof.
  assert (Hp : Permutation [k1; k2] (sorted [k1; k2])).
  { symmetry. apply merge_sort_Permutation. }
  apply Permutation_length_2_inv in Hp as [->| ->]; [by left|by right].
Qed.

Lemma hash_int_operand (s : state) (x : obj) :
  int_operand_ok s x ->
  ∃ kx, hash_object x = Some kx ∧ int_key_ok s kx
        ∧ ∀ m, key_value m kx = operand_value m x.
Proof.
  destruct x as [| | z | | | | | b |]; try done; intros Hx.
  - exists (KNum z). done.
  - exists (KIntVar b). split; [done|]. split; [apply Hx|done].
Qed.

(** Memoizing a sound sum keeps the invariant. *)
Lemma Inv_store_add (s : state) (k1 k2 : hashobj) (c : list Z) :
  Inv s -> int_ok s c ->
  valid s (fun m => key_value m k1 + key_value m k2 = bits_value m c) ->
  Inv (set_memo_caches (<[("IntVar.__add__", [k1; k2]) := OIntVar c]> (memo_caches s)) s).
Proof.
  intros HI Hc Hv. split; try apply HI.
  - intros o k1' k2' v. cbn [memo_caches set_memo_caches].
    rewrite lookup_insert_ne.
    2:{ intros [= Hn _]. symmetry in Hn. by apply op_name_not_add in Hn. }
    apply (inv_bool s HI).
  - intros k1' k2' v. cbn [memo_caches set_memo_caches].
    destruct (decide (("IntVar.__add__", [k1; k2]) = ("IntVar.__add__", [k1'; k2'])))
      as [Heq|Hne].
    + injection Heq as <- <-. rewrite lookup_insert_eq. intros [= <-] _ _. eauto.
    + rewrite lookup_insert_ne by done. apply (inv_add s HI).
  - intros a k v. cbn [memo_caches set_memo_caches].
    rewrite lookup_insert_ne by done. apply (inv_sub s HI).
Qed.

Lemma Inv_store_sub (s : state) (a : list Z) (k : hashobj) (r : list Z) :
  Inv s -> int_ok s r ->
  valid s (fun m => bits_value m r + key_value m k = bits_value m a) ->
  Inv (set_memo_caches (<[("IntVar.__sub__", [KIntVar a; k]) := OIntVar r]> (memo_caches s)) s).
Proof.
  intros HI Hr Hv. split; try apply HI.
  - intros o k1' k2' v. cbn [memo_caches set_memo_caches].
    rewrite lookup_insert_ne.
    2:{ intros [= Hn _]. symmetry in Hn. by apply op_name_not_sub in Hn. }
    apply (inv_bool s HI).
  - intros k1' k2' v. cbn [memo_caches set_memo_caches].
    rewrite lookup_insert_ne by done. apply (inv_add s HI).
  - intros a' k' v. cbn [memo_caches set_memo_caches].
    destruct (decide (("IntVar.__sub__", [KIntVar a; k]) = ("IntVar.__sub__", [KIntVar a'; k'])))
      as [Heq|Hne].
    + injection Heq as <- <-. rewrite lookup_insert_eq. intros [= <-] _ _. eauto.
    + rewrite lookup_insert_ne by done. apply (inv_sub s HI).
Qed.

Lemma reached_store (s : state) (c : gmap memo_key obj) :
  reached s (set_memo_caches c s).
Proof.
  split; [exists []; split; [by rewrite app_nil_r|constructor]|].
  cbn. repeat split; lia.
Qed.

(** [a + x] for an IntVar [a] and an IntVar or fitting [int] [x]: the
    result is an IntVar that, in every answer of every program extending
    the state, carries the sum - whether it is computed now or taken from
    the memoization dictionary. *)
Lemma IntVar_add_sound (a : list Z) (x : obj) (s : state) :
  Inv s -> 1 ≤ NUM_BITS s -> int_ok s a -> int_operand_ok s x ->
  ∃ c s', IntVar_add a x s = Ok (OIntVar c) s'
          ∧ Inv s' ∧ reached s s' ∧ int_ok s' c
          ∧ valid s' (fun m => bits_value m a + operand_value m x = bits_value m c).
Proof.
  intros HI Hn Ha Hx.
  destruct (hash_int_operand s x Hx) as (kx & Hkx & Hkok & Hkv).
  unfold IntVar_add, memoized_symmetric.
  cbn [mapM hash_object mbind option_bind]. rewrite Hkx.
  cbn [mbind option_bind mret option_ret fmap option_fmap option_map].
  destruct (memo_caches s !! ("IntVar.__add__", sorted [KIntVar a; kx])) as [v|] eqn:Hlook.
  - rewrite (memo_call_hit _ _ _ _ _ _ Hlook).
    destruct (sorted_pair_cases (KIntVar a) kx) as [Hk|Hk]; rewrite Hk in Hlook.
    + destruct (inv_add s HI _ _ _ Hlook) as (c & -> & Hc & Hv); [apply Ha|done|].
      exists c, s. split; [done|]. split; [done|]. split; [apply reached_refl|].
      split; [done|]. intros program m Hext Hans.
      specialize (Hv program m Hext Hans). cbn beta in Hv. rewrite Hkv in Hv. done.
    + destruct (inv_add s HI _ _ _ Hlook) as (c & -> & Hc & Hv); [done|apply Ha|].
      exists c, s. split; [done|]. split; [done|]. split; [apply reached_refl|].
      split; [done|]. intros program m Hext Hans.
      specialize (Hv program m Hext Hans). cbn beta in Hv. rewrite Hkv in Hv.
      cbn [key_value] in Hv. lia.
  - rewrite memo_call_miss by done. unfold imethod.
    destruct (add_func_sound a x s HI Hn Ha Hx) as (c & s1 & -> & HI1 & R1 & Hc & Hv).
    eexists c, _. split; [done|].
    split; [|split; [|split; [exact Hc|exact Hv]]].
    + destruct (sorted_pair_cases (KIntVar a) kx) as [Hk|Hk]; rewrite Hk;
        apply Inv_store_add; try done;
        intros program m Hext Hans; specialize (Hv program m Hext Hans);
        cbn beta in Hv; rewrite Hkv; cbn [key_value]; lia.
    + eapply reached_trans; [exact R1|apply reached_store].
Qed.

(** [IntVar()]: [NUM_BITS] fresh BoolVars. *)
Lemma fresh_bits_sound (s : state) :
  Inv s -> 0 ≤ NUM_BITS s ->
  ∃ r s', IntVar_of PyNone s = Ok r s'
          ∧ Inv s' ∧ reached s s' ∧ memo_caches s' = memo_caches s ∧ int_ok s' r
          ∧ Forall (fun l => last_bool s < l ≤ last_bool s') r.
Proof.
  intros HI Hn. cbn [IntVar_of IntVar_of_const]. unfold fresh_bits.
  unfold mbind at 1, M_bind at 1, gets at 1.
  destruct (alloc_bits_sound (fun _ => r ← BoolVar_new; index_of r)
              (fun _ => false) (BITS s) s)
    as (r & s1 & Ealloc & HI1 & R1 & M1 & Hall); [done|done|].
  exists r, s1. split; [done|]. split; [done|]. split; [done|]. split; [done|].
  split.
  - apply (alloc_bits_int_ok (fun _ => false) s s1 r HI HI1); [done|apply R1|done].
  - eapply Forall2_Forall_r; [exact Hall|]. apply Forall_forall. by intros i _ b Hb.
Qed.

(** The function under [IntVar.__sub__]'s decorator. *)
Lemma sub_func_sound (a : list Z) (x : obj) (s : state) :
  Inv s -> 1 ≤ NUM_BITS s -> int_ok s a -> int_operand_ok s x ->
  ∃ r s', sub_func a x s = Ok (OIntVar r) s'
          ∧ Inv s' ∧ reached s s' ∧ int_ok s' r
          ∧ Forall (fun l => last_bool s < l ≤ last_bool s') r
          ∧ valid s' (fun m => bits_value m r + operand_value m x = bits_value m a).
Proof.
  intros HI Hn Ha Hx.
  destruct (IntVar_of_operand s x HI) as (b & Hconv & Hb & Hbv); [lia|done|].
  unfold sub_func. rewrite (converting_eval x b) by done.
  destruct (fresh_bits_sound s HI) as (r & s1 & Enew & HI1 & R1 & M1 & Hr & Hfresh); [lia|].
  unfold mbind at 1, M_bind at 1. rewrite Enew.
  destruct (constrain_sum_sound r b a s1 HI1) as (s2 & Esum & HI2 & R2 & Hv).
  { done. }
  { by eapply int_ok_reached. }
  { by eapply int_ok_reached. }
  { (* bit 0 of the fresh variable *)
    pose proof (int_ok_length _ _ Hr) as Hlr.
    destruct (lookup_lt_is_Some_2 r 0) as [r0 Hr0].
    { assert (NUM_BITS s1 = NUM_BITS s) by apply R1. lia. }
    exists 0%nat, r0. split; [|by left].
    eapply Forall_lookup_1 in Hfresh; [|exact Hr0]. cbn beta in Hfresh.
    pose proof (inv_last s HI). lia. }
  unfold mbind, M_bind. rewrite Esum.
  assert (Hle : last_bool s1 ≤ last_bool s2) by apply R2.
  exists r, s2. split; [done|]. split; [done|]. split; [by eapply reached_trans|].
  split; [by eapply int_ok_reached|]. split.
  - eapply Forall_impl; [exact Hfresh|]. intros l Hl. cbn beta in Hl. lia.
  - intros program m Hext Hans.
    rewrite <- (Hv program m Hext Hans). f_equal. symmetry.
    apply (Hbv program m); [|done].
    eapply reached_extends; [|done]. by eapply reached_trans.
Qed.

(** [a - x]: the result [r] satisfies [r + x = a] in every answer. *)
Lemma IntVar_sub_sound (a : list Z) (x : obj) (s : state) :
  Inv s -> 1 ≤ NUM_BITS s -> int_ok s a -> int_operand_ok s x ->
  ∃ r s', IntVar_sub a x s = Ok (OIntVar r) s'
          ∧ Inv s' ∧ reached s s' ∧ int_ok s' r
          ∧ (∀ kx, hash_object x = Some kx ->
                   memo_caches s !! ("IntVar.__sub__", [KIntVar a; kx]) = None ->
                   Forall (fun l => last_bool s < l ≤ last_bool s') r)
          ∧ valid s' (fun m => bits_value m r + operand_value m x = bits_value m a).
Proof.
  intros HI Hn Ha Hx.
  destruct (hash_int_operand s x Hx) as (kx & Hkx & Hkok & Hkv).
  unfold IntVar_sub, memoized.
  cbn [mapM hash_object mbind option_bind]. rewrite Hkx.
  cbn [mbind option_bind mret option_ret].
  destruct (memo_caches s !! ("IntVar.__sub__", [KIntVar a; kx])) as [v|] eqn:Hlook.
  - rewrite (memo_call_hit _ _ _ _ _ _ Hlook).
    destruct (inv_sub s HI _ _ _ Hlook) as (r & -> & Hr & Hv); [apply Ha|done|].
    exists r, s. split; [done|]. split; [done|]. split; [apply reached_refl|].
    split; [done|]. split; [intros k [= <-]; congruence|].
    intros program m Hext Hans.
    specialize (Hv program m Hext Hans). cbn beta in Hv. by rewrite Hkv in Hv.
  - rewrite memo_call_miss by done. unfold imethod.
    destruct (sub_func_sound a x s HI Hn Ha Hx)
      as (r & s1 & -> & HI1 & R1 & Hr & Hfresh & Hv).
    eexists r, _. split; [done|].
    split; [|split; [|split; [exact Hr|split; [by intros|exact Hv]]]].
    + apply Inv_store_sub; try done.
      intros program m Hext Hans. specialize (Hv program m Hext Hans).
      cbn beta in Hv. by rewrite Hkv.
    + eapply reached_trans; [exact R1|apply reached_store].
Qed.

Lemma IntVar_value_int_ok (s : state) (m : gset Z) (bits : list Z) :
  0 ≤ NUM_BITS s -> int_ok s bits ->
  IntVar_value s m bits = Some (bits_value m bits).
Proof.
  intros Hn [Hlen _]. rewrite IntVar_value_bits by lia.
  rewrite take_ge; [done|]. unfold len in Hlen. lia.
Qed.

(** [x - y] for an IntVar and an [int]: Python calls [x.__sub__(y)] and,
    where that is missing or returns [NotImplemented], the reflected
    [y.__rsub__(x)]; an [int] knows no IntVar, so [c - a] ends in
    [a.__rsub__(c)].  When both decline, Python raises [TypeError]. *)
Definition declined (r : obj) : M obj :=
  match r with
  | PyNotImplemented => raise TypeError
  | _ => mret r
  end.

Definition py_sub (x y : obj) : M obj :=
  match x, y with
  | OIntVar a, (PyInt _ | OIntVar _) => r ← IntVar_sub a y; declined r
  | PyInt _, OIntVar a => r ← IntVar_rsub a x; declined r
  | PyInt i, PyInt j => mret (PyInt (i - j))
  | _, _ => raise OutsideModel
  end.

(** The state with two fresh IntVars: bits 3..18 and 19..34. *)
Definition two_ints : state :=
  state_of ((_ ← IntVar_of PyNone; IntVar_of PyNone) boot).

Lemma Inv_two_ints : Inv two_ints.
Proof.
  destruct (fresh_bits_sound boot Inv_boot) as (r1 & s1 & E1 & HI1 & R1 & _); [done|].
  destruct (fresh_bits_sound s1 HI1) as (r2 & s2 & E2 & HI2 & _).
  { assert (NUM_BITS s1 = NUM_BITS boot) as -> by apply R1. done. }
  unfold two_ints, mbind, M_bind. rewrite E1, E2. done.
Qed.

Lemma int_ok_two_ints (k : nat) :
  (3 ≤ k)%nat -> (k + 16 ≤ 35)%nat -> int_ok two_ints (Z.of_nat <$> seq k 16).
Proof.
  intros Hk1 Hk2. split; [done|].
  apply Forall_fmap, Forall_forall. intros i Hi%elem_of_seq.
  change (lit_ok two_ints (Z.of_nat i)). unfold lit_ok.
  change (last_bool two_ints) with 34. lia.
Qed.

(** ** The claims on addition and subtraction *)

(** C1: for IntVars [a] and [b] of the configured width (at least one
    bit), in a state satisfying the compiler invariant, [a + b] returns an
    IntVar [c] and leaves rules such that in every answer of every
    program that extends the rule buffer - whatever is built afterwards,
    and whether or not [c] is used - the values read back satisfy
    [a + b = c < 2^NUM_BITS]: the sum never overflows. *)
Theorem addition_no_overflow (a b : list Z) (s : state) :
  Inv s -> 1 ≤ NUM_BITS s -> int_ok s a -> int_ok s b ->
  ∃ c s', IntVar_add a (OIntVar b) s = Ok (OIntVar c) s'
          ∧ Inv s' ∧ reached s s'
          ∧ ∀ program m, extends s' program -> answer program m ->
              ∃ va vb vc,
                IntVar_value s' m a = Some va ∧ IntVar_value s' m b = Some vb
                ∧ IntVar_value s' m c = Some vc
                ∧ va + vb = vc ∧ vc < 2 ^ NUM_BITS s'.
Proof.
  intros HI Hn Ha Hb.
  destruct (IntVar_add_sound a (OIntVar b) s HI Hn Ha Hb)
    as (c & s' & Hrun & HI' & Hr & Hc & Hv).
  exists c, s'. split; [done|]. split; [done|]. split; [done|].
  intros program m Hext Hans.
  assert (Hnb : NUM_BITS s' = NUM_BITS s) by apply Hr.
  exists (bits_value m a), (bits_value m b), (bits_value m c).
  rewrite !IntVar_value_int_ok by (try lia; done || by eapply int_ok_reached).
  split; [done|]. split; [done|]. split; [done|].
  split; [apply (Hv program m Hext Hans)|].
  pose proof (bits_value_range m c) as Hrange. destruct Hc as [Hlen _].
  rewrite Hlen in Hrange. lia.
Qed.

Lemma addition_no_overflow_witness :
  ∃ c s', IntVar_add (Z.of_nat <$> seq 3 16) (OIntVar (Z.of_nat <$> seq 19 16)) two_ints
            = Ok (OIntVar c) s'
          ∧ Inv s' ∧ reached two_ints s'
          ∧ ∀ program m, extends s' program -> answer program m ->
              ∃ va vb vc,
                IntVar_value s' m (Z.of_nat <$> seq 3 16) = Some va
                ∧ IntVar_value s' m (Z.of_nat <$> seq 19 16) = Some vb
                ∧ IntVar_value s' m c = Some vc
                ∧ va + vb = vc ∧ vc < 2 ^ NUM_BITS s'.
Proof.
  apply (addition_no_overflow (Z.of_nat <$> seq 3 16) (Z.of_nat <$> seq 19 16) two_ints).
  - exact Inv_two_ints.
  - by vm_compute.
  - apply int_ok_two_ints; lia.
  - apply int_ok_two_ints; lia.
Defined.

(** C3: for IntVars [a] and [b], [a - b] returns an IntVar [r] - made of
    fresh literals unless the subtraction is already memoized - and
    leaves the rules of [r + b == a] with the overflow of that addition
    forbidden: in every answer of every program extending the rule buffer
    [r = a - b] and [a >= b], so a program all of whose candidate
    assignments have [a < b] has no answer. *)
Theorem subtraction_sound (a b : list Z) (s : state) :
  Inv s -> 1 ≤ NUM_BITS s -> int_ok s a -> int_ok s b ->
  ∃ r s', IntVar_sub a (OIntVar b) s = Ok (OIntVar r) s'
          ∧ Inv s' ∧ reached s s'
          ∧ len r = NUM_BITS s
          ∧ (memo_caches s !! ("IntVar.__sub__", [KIntVar a; KIntVar b]) = None ->
             Forall (fun l => last_bool s < l ≤ last_bool s') r)
          ∧ (∀ program m, extends s' program -> answer program m ->
               ∃ va vb vr,
                 IntVar_value s' m a = Some va ∧ IntVar_value s' m b = Some vb
                 ∧ IntVar_value s' m r = Some vr
                 ∧ vr + vb = va ∧ vr = va - vb ∧ vb ≤ va)
          ∧ (∀ program, extends s' program ->
               (∀ m va vb, IntVar_value s' m a = Some va ->
                           IntVar_value s' m b = Some vb -> va < vb) ->
               ∀ m, ¬ answer program m).
Proof.
  intros HI Hn Ha Hb.
  destruct (IntVar_sub_sound a (OIntVar b) s HI Hn Ha Hb)
    as (r & s' & Hrun & HI' & Hr & Hrok & Hfresh & Hv).
  assert (Hnb : NUM_BITS s' = NUM_BITS s) by apply Hr.
  assert (Hval : ∀ m l, int_ok s' l -> IntVar_value s' m l = Some (bits_value m l)).
  { intros m l Hl. apply IntVar_value_int_ok; [lia|done]. }
  assert (Ha' : int_ok s' a) by by eapply int_ok_reached.
  assert (Hb' : int_ok s' b) by by eapply int_ok_reached.
  exists r, s'. split; [done|]. split; [done|]. split; [done|].
  split; [destruct Hrok; congruence|]. split; [intros Hmiss; by apply (Hfresh (KIntVar b))|].
  split.
  - intros program m Hext Hans.
    exists (bits_value m a), (bits_value m b), (bits_value m r).
    rewrite !Hval by done. split; [done|]. split; [done|]. split; [done|].
    pose proof (Hv program m Hext Hans) as Heq. cbn in Heq.
    pose proof (bits_value_range m r). lia.
  - intros program Hext Hlt m Hans.
    pose proof (Hv program m Hext Hans) as Heq. cbn in Heq.
    pose proof (bits_value_range m r).
    specialize (Hlt m _ _ (Hval m a Ha') (Hval m b Hb')). lia.
Qed.

Lemma subtraction_sound_witness :
  ∃ r s', IntVar_sub (Z.of_nat <$> seq 3 16) (OIntVar (Z.of_nat <$> seq 19 16)) two_ints
            = Ok (OIntVar r) s'
          ∧ Inv s' ∧ reached two_ints s'
          ∧ len r = NUM_BITS two_ints
          ∧ (memo_caches two_ints !! ("IntVar.__sub__",
               [KIntVar (Z.of_nat <$> seq 3 16); KIntVar (Z.of_nat <$> seq 19 16)]) = None ->
             Forall (fun l => last_bool two_ints < l ≤ last_bool s') r)
          ∧ (∀ program m, extends s' program -> answer program m ->
               ∃ va vb vr,
                 IntVar_value s' m (Z.of_nat <$> seq 3 16) = Some va
                 ∧ IntVar_value s' m (Z.of_nat <$> seq 19 16) = Some vb
                 ∧ IntVar_value s' m r = Some vr
                 ∧ vr + vb = va ∧ vr = va - vb ∧ vb ≤ va)
          ∧ (∀ program, extends s' program ->
               (∀ m va vb, IntVar_value s' m (Z.of_nat <$> seq 3 16) = Some va ->
                           IntVar_value s' m (Z.of_nat <$> seq 19 16) = Some vb ->
                           va < vb) ->
               ∀ m, ¬ answer program m).
Proof.
  apply (subtraction_sound (Z.of_nat <$> seq 3 16) (Z.of_nat <$> seq 19 16) two_ints).
  - exact Inv_two_ints.
  - by vm_compute.
  - apply int_ok_two_ints; lia.
  - apply int_ok_two_ints; lia.
Defined.

(** C10: for an IntVar [a] and an [int] [c] that fits the width, the
    reflected subtraction [c - a] is the very call [a - c]: it returns an
    IntVar [r] with [r + c = a] in every answer - [r] stands for [a - c],
    and [a >= c] is forced - where [c - a] would need [r + a = c]. *)
Theorem reflected_subtraction (a : list Z) (c : Z) (s : state) :
  Inv s -> 1 ≤ NUM_BITS s -> int_ok s a -> 0 ≤ c < 2 ^ NUM_BITS s ->
  py_sub (PyInt c) (OIntVar a) s = py_sub (OIntVar a) (PyInt c) s
  ∧ ∃ r s', py_sub (PyInt c) (OIntVar a) s = Ok (OIntVar r) s'
            ∧ Inv s' ∧ reached s s'
            ∧ ∀ program m, extends s' program -> answer program m ->
                ∃ va vr,
                  IntVar_value s' m a = Some va ∧ IntVar_value s' m r = Some vr
                  ∧ vr + c = va ∧ vr = va - c ∧ c ≤ va.
Proof.
  intros HI Hn Ha Hc. split; [done|].
  destruct (IntVar_sub_sound a (PyInt c) s HI Hn Ha Hc)
    as (r & s' & Hrun & HI' & Hr & Hrok & _ & Hv).
  assert (Hnb : NUM_BITS s' = NUM_BITS s) by apply Hr.
  exists r, s'. split.
  { cbn [py_sub]. unfold IntVar_rsub, mbind, M_bind. by rewrite Hrun. }
  split; [done|]. split; [done|].
  intros program m Hext Hans.
  exists (bits_value m a), (bits_value m r).
  rewrite !IntVar_value_int_ok by (try lia; done || by eapply int_ok_reached).
  split; [done|]. split; [done|].
  pose proof (Hv program m Hext Hans) as Heq. cbn in Heq.
  pose proof (bits_value_range m r). lia.
Qed.

Lemma reflected_subtraction_witness :
  py_sub (PyInt 5) (OIntVar (Z.of_nat <$> seq 3 16)) two_ints
  = py_sub (OIntVar (Z.of_nat <$> seq 3 16)) (PyInt 5) two_ints
  ∧ ∃ r s', py_sub (PyInt 5) (OIntVar (Z.of_nat <$> seq 3 16)) two_ints
              = Ok (OIntVar r) s'
            ∧ Inv s' ∧ reached two_ints s'
            ∧ ∀ program m, extends s' program -> answer program m ->
                ∃ va vr,
                  IntVar_value s' m (Z.of_nat <$> seq 3 16) = Some va
                  ∧ IntVar_value s' m r = Some vr
                  ∧ vr + 5 = va ∧ vr = va - 5 ∧ 5 ≤ va.
Proof.
  apply (reflected_subtraction (Z.of_nat <$> seq 3 16) 5 two_ints).
  - exact Inv_two_ints.
  - by vm_compute.
  - apply int_ok_two_ints; lia.
  - by vm_compute.
Defined.

(** ** States built from reset *)

(** The states a program reaches from [reset()] by allocating BoolVars and
    IntVars, applying the boolean operators, requiring BoolVars, and
    adding and subtracting IntVars, on operands that exist at that
    point. *)
Inductive built : state -> Prop :=
  | built_reset : built boot
  | built_BoolVar s : built s -> built (state_of (BoolVar_new s))
  | built_IntVar s : built s -> built (state_of (IntVar_of PyNone s))
  | built_op s o a y :
      built s -> lit_ok s a -> operand_ok s y -> built (state_of (BoolVar_op o a y s))
  | built_require s x :
      built s -> lit_ok s x -> built (state_of (require (OBoolVar x) s))
  | built_add s a x :
      built s -> int_ok s a -> int_operand_ok s x -> built (state_of (IntVar_add a x s))
  | built_sub s a x :
      built s -> int_ok s a -> int_operand_ok s x -> built (state_of (IntVar_sub a x s)).

(** The invariant holds in every state built from reset, the width stays
    16, and the rule buffer only grows: the two boot rules stay in front. *)
Theorem built_invariant (s : state) :
  built s -> Inv s ∧ NUM_BITS s = 16 ∧ reached boot s.
Proof.
  assert (Hstep : ∀ t t', Inv t' -> NUM_BITS t = 16 -> reached boot t -> reached t t' ->
                          Inv t' ∧ NUM_BITS t' = 16 ∧ reached boot t').
  { intros t t' HI' Hn Hr R. split; [done|]. split; [|by eapply reached_trans].
    destruct R as (_ & _ & Hnb & _). congruence. }
  induction 1 as [|s _ (HI & Hn & Hr)|s _ (HI & Hn & Hr)|s o a y _ (HI & Hn & Hr) Ha Hy
                  |s x _ (HI & Hn & Hr) Hx|s a x _ (HI & Hn & Hr) Ha Hx
                  |s a x _ (HI & Hn & Hr) Ha Hx].
  - split; [apply Inv_boot|]. split; [done|apply reached_refl].
  - destruct (BoolVar_new_sound s HI) as (s' & E & HI' & R & _).
    rewrite E. by apply (Hstep s).
  - destruct (fresh_bits_sound s HI) as (r & s' & E & HI' & R & _); [lia|].
    rewrite E. by apply (Hstep s).
  - destruct (bool_op_sound o a y s HI Ha Hy) as (r & s' & E & HI' & R & _).
    rewrite E. by apply (Hstep s).
  - destruct (require_sound x s HI Hx) as (s' & E & HI' & R & _).
    rewrite E. by apply (Hstep s).
  - destruct (IntVar_add_sound a x s HI) as (c & s' & E & HI' & R & _); [lia|done|done|].
    rewrite E. by apply (Hstep s).
  - destruct (IntVar_sub_sound a x s HI) as (c & s' & E & HI' & R & _); [lia|done|done|].
    rewrite E. by apply (Hstep s).
Qed.

Lemma built_invariant_witness :
  Inv (state_of (require (OBoolVar 3) one_bool))
  ∧ NUM_BITS (state_of (require (OBoolVar 3) one_bool)) = 16
  ∧ reached boot (state_of (require (OBoolVar 3) one_bool)).
Proof.
  apply (built_invariant (state_of (require (OBoolVar 3) one_bool))).
  apply built_require; [apply built_BoolVar, built_reset|by vm_compute].
Defined.

(** ** The dictionaries grow through the integer operations too *)

Lemma keeps_getbit bits i : keeps_caches (getbit bits i).
Proof. intros s. unfold getbit. by destruct (bits !! Z.to_nat i). Qed.

Lemma keeps_nonfalse F bits off idxs : keeps_caches (nonfalse F bits off idxs).
Proof.
  induction idxs as [|i idxs IH]; [apply keeps_ret|].
  cbn [nonfalse]. apply keeps_bind; [apply keeps_getbit|intros b].
  apply keeps_bind; [apply IH|intros tl; apply keeps_ret].
Qed.

Lemma keeps_py_max l : keeps_caches (py_max l).
Proof. intros s. by destruct l. Qed.

Lemma keeps_py_invert x : keeps_caches (py_invert x).
Proof. intros s. by destruct x. Qed.

Lemma keeps_py_binop meth f g x y :
  (∀ a b, keeps_caches (meth a b)) -> keeps_caches (py_binop meth f g x y).
Proof.
  intros Hm. unfold py_binop.
  destruct x, y; try apply Hm; try apply keeps_ret; try apply keeps_raise;
    cbn; try apply keeps_ret; try apply keeps_raise.
Qed.

Lemma keeps_constrain_sum_loop idxs a b result max_bit c :
  keeps_caches (constrain_sum_loop idxs a b result max_bit c).
Proof.
  revert c. induction idxs as [|i idxs IH]; intros c; cbn [constrain_sum_loop].
  - apply keeps_bind; [apply keeps_py_invert|intros nc; apply keeps_require].
  - apply keeps_bind; [apply keeps_getbit|intros ai].
    apply keeps_bind; [apply keeps_getbit|intros bi].
    apply keeps_bind; [apply (keeps_BoolVar_op OpXor)|intros d].
    apply keeps_bind; [apply keeps_getbit|intros ri].
    apply keeps_bind; [apply keeps_py_binop, (keeps_BoolVar_op OpXor)|intros dc].
    apply keeps_bind; [apply (keeps_BoolVar_op OpEq)|intros e].
    apply keeps_bind; [apply keeps_require|intros _].
    case_decide; [apply keeps_ret|].
    apply keeps_bind; [apply (keeps_BoolVar_op OpAnd)|intros ab].
    apply keeps_bind; [apply keeps_py_binop, (keeps_BoolVar_op OpAnd)|intros dandc].
    apply keeps_bind; [apply keeps_py_binop, (keeps_BoolVar_op OpOr)|intros c'].
    apply IH.
Qed.

Lemma keeps_constrain_sum a b result : keeps_caches (constrain_sum a b result).
Proof.
  unfold constrain_sum.
  apply keeps_bind; [apply keeps_gets|intros F].
  apply keeps_bind; [apply keeps_gets|intros bits].
  apply keeps_bind; [apply keeps_nonfalse|intros la].
  apply keeps_bind; [apply keeps_nonfalse|intros lb].
  apply keeps_bind; [apply keeps_nonfalse|intros lr].
  apply keeps_bind; [apply keeps_py_max|intros mx].
  apply keeps_bind; [apply keeps_constrain_sum_loop|intros _; apply keeps_ret].
Qed.

Lemma keeps_fmap {A B} (f : A -> B) (m : M A) :
  keeps_caches m -> keeps_caches (f <$> m).
Proof. intros Hm s. specialize (Hm s). unfold fmap, M_fmap. by destruct (m s). Qed.

Lemma keeps_except_TypeError {A} (m h : M A) :
  keeps_caches m -> keeps_caches h -> keeps_caches (except_TypeError m h).
Proof.
  intros Hm Hh s. specialize (Hm s). unfold except_TypeError.
  destruct (m s) as [a s'|e s']; [done|].
  destruct e; try done. cbn in Hm. etrans; [exact Hm|apply Hh].
Qed.

Lemma keeps_converting conv x rest :
  keeps_caches (conv x) -> (∀ b, keeps_caches (rest b)) ->
  keeps_caches (converting conv x rest).
Proof.
  intros Hc Hr. unfold converting. apply keeps_bind.
  - apply keeps_except_TypeError; [by apply keeps_fmap|apply keeps_ret].
  - intros [b|]; [apply Hr|apply keeps_ret].
Qed.

Lemma keeps_fresh_bits : keeps_caches fresh_bits.
Proof.
  apply keeps_bind; [apply keeps_gets|intros bits].
  apply keeps_map_M. intros _.
  apply keeps_bind; [apply keeps_BoolVar_new|apply keeps_index_of].
Qed.

Lemma keeps_low_bit x : keeps_caches (low_bit x).
Proof.
  apply keeps_bind; [apply keeps_gets|intros F].
  apply keeps_bind; [apply keeps_gets|intros bits; apply keeps_ret].
Qed.

Lemma keeps_py_shiftr x n : keeps_caches (py_shiftr x n).
Proof. unfold py_shiftr. case_decide; [apply keeps_raise|apply keeps_ret]. Qed.

Lemma keeps_IntVar_of_const val : keeps_caches (IntVar_of_const val).
Proof.
  destruct val as [| c | z | | | | i | bits |]; try apply keeps_raise; try apply keeps_ret.
  - apply keeps_fresh_bits.
  - apply keeps_bind; [apply keeps_gets|intros T].
    apply keeps_bind; [apply keeps_gets|intros F; apply keeps_low_bit].
  - apply keeps_bind; [apply keeps_gets|intros n].
    apply keeps_bind; [apply keeps_py_shiftr|intros hi].
    case_decide; [|apply keeps_raise].
    apply keeps_bind; [apply keeps_gets|intros T].
    apply keeps_bind; [apply keeps_gets|intros F].
    apply keeps_bind; [apply keeps_gets|intros bits; apply keeps_ret].
  - apply keeps_low_bit.
Qed.

Lemma keeps_imethod f args :
  (∀ a b, keeps_caches (f a b)) -> keeps_caches (imethod f args).
Proof.
  intros Hf. destruct args as [|x [|b [|c rest]]]; try apply keeps_raise;
    destruct x; try apply keeps_raise. apply Hf.
Qed.

Lemma keeps_reduce f xs :
  (∀ a b, keeps_caches (f a b)) -> keeps_caches (reduce f xs).
Proof.
  intros Hf. destruct xs as [|x rest]; [apply keeps_raise|].
  apply keeps_foldl; [|apply keeps_ret].
  intros acc y Hacc. apply keeps_bind; [done|intros a; apply Hf].
Qed.

Lemma keeps_int_eq_with conv self x :
  (∀ v, keeps_caches (conv v)) -> keeps_caches (int_eq_with conv self x).
Proof.
  intros Hc. apply keeps_memo_call. cbn [imethod]. unfold int_eq_func.
  apply keeps_converting; [apply Hc|intros b].
  apply keeps_bind; [apply keeps_gets|intros bits].
  apply keeps_bind.
  - apply keeps_map_M. intros i.
    apply keeps_bind; [apply keeps_getbit|intros si].
    apply keeps_bind; [apply keeps_getbit|intros xi].
    apply (keeps_BoolVar_op OpEq).
  - intros eqs. apply keeps_reduce. intros u v.
    apply keeps_py_binop, (keeps_BoolVar_op OpAnd).
Qed.

Lemma keeps_IntVar_of val : keeps_caches (IntVar_of val).
Proof.
  destruct val; try apply keeps_IntVar_of_const.
  cbn [IntVar_of].
  apply keeps_bind; [apply keeps_fresh_bits|intros self].
  apply keeps_bind.
  { apply keeps_map_M. intros x. apply keeps_int_eq_with, keeps_IntVar_of_const. }
  intros eqs. apply keeps_bind.
  { apply keeps_reduce. intros u v. apply keeps_py_binop, (keeps_BoolVar_op OpOr). }
  intros any. apply keeps_bind; [apply keeps_require|intros _; apply keeps_ret].
Qed.

Lemma keeps_IntVar_add a x : keeps_caches (IntVar_add a x).
Proof.
  apply keeps_memo_call. cbn [imethod]. unfold add_func.
  apply keeps_converting; [apply keeps_IntVar_of|intros b].
  apply keeps_bind; [apply keeps_gets|intros F].
  apply keeps_bind; [apply keeps_gets|intros bits].
  apply keeps_bind; [apply keeps_nonfalse|intros la].
  apply keeps_bind; [apply keeps_nonfalse|intros lb].
  apply keeps_bind; [apply keeps_py_max|intros mx].
  apply keeps_bind; [apply keeps_IntVar_of|intros _].
  apply keeps_bind.
  { apply keeps_map_M. intros i. case_decide; [apply keeps_ret|].
    apply keeps_bind; [apply keeps_BoolVar_new|apply keeps_index_of]. }
  intros result. apply keeps_bind; [apply keeps_constrain_sum|intros _; apply keeps_ret].
Qed.

Lemma keeps_IntVar_sub a x : keeps_caches (IntVar_sub a x).
Proof.
  apply keeps_memo_call. cbn [imethod]. unfold sub_func.
  apply keeps_converting; [apply keeps_IntVar_of|intros b].
  apply keeps_bind; [apply keeps_IntVar_of|intros result].
  apply keeps_bind; [apply keeps_constrain_sum|intros _; apply keeps_ret].
Qed.

Lemma keeps_shift_count i : keeps_caches (shift_count i).
Proof. intros s. by destruct i. Qed.

Lemma keeps_IntVar_lshift a i : keeps_caches (IntVar_lshift a i).
Proof.
  apply keeps_memo_call. cbn [imethod]. unfold lshift_func.
  apply keeps_bind; [apply keeps_shift_count|intros k].
  apply keeps_bind; [apply keeps_gets|intros n].
  repeat case_decide; [apply keeps_ret|apply keeps_fmap, keeps_IntVar_of|].
  apply keeps_bind; [apply keeps_IntVar_of|intros _].
  apply keeps_bind; [apply keeps_gets|intros F; apply keeps_ret].
Qed.

Lemma keeps_IntVar_rshift a i : keeps_caches (IntVar_rshift a i).
Proof.
  apply keeps_memo_call. cbn [imethod]. unfold rshift_func.
  apply keeps_bind; [apply keeps_shift_count|intros k].
  apply keeps_bind; [apply keeps_IntVar_of|intros _].
  apply keeps_bind; [apply keeps_gets|intros F; apply keeps_ret].
Qed.

(** Between two resets the memoization dictionaries only grow: the
    decorators (around any function that itself keeps the entries),
    [BoolVar()], the five boolean operators, [require], [IntVar(...)],
    [+], [-] and the shifts leave every entry that was there in place,
    with its value, also when they raise; [reset] empties them. *)
Theorem caches_only_grow :
  (∀ symmetric name func args,
     keeps_caches (func args) -> keeps_caches (decorated symmetric name func args))
  ∧ keeps_caches BoolVar_new
  ∧ (∀ o a y, keeps_caches (BoolVar_op o a y))
  ∧ (∀ x, keeps_caches (require x))
  ∧ (∀ val, keeps_caches (IntVar_of val))
  ∧ (∀ a x, keeps_caches (IntVar_add a x))
  ∧ (∀ a x, keeps_caches (IntVar_sub a x))
  ∧ (∀ a i, keeps_caches (IntVar_lshift a i))
  ∧ (∀ a i, keeps_caches (IntVar_rshift a i))
  ∧ (∀ s, memo_caches (state_of (reset s)) = ∅).
Proof.
  split; [apply keeps_decorated|]. split; [apply keeps_BoolVar_new|].
  split; [apply keeps_BoolVar_op|]. split; [apply keeps_require|].
  split; [apply keeps_IntVar_of|]. split; [apply keeps_IntVar_add|].
  split; [apply keeps_IntVar_sub|]. split; [apply keeps_IntVar_lshift|].
  split; [apply keeps_IntVar_rshift|]. done.
Qed.

Lemma caches_only_grow_witness :
  keeps_caches (decorated true "BoolVar.__and__" (method (and_func BoolVar_of))
                  [OBoolVar 3; OBoolVar 4]).
Proof.
  apply caches_only_grow. apply keeps_method. intros a b.
  apply (keeps_ext _ _ (op_func_folding OpAnd BoolVar_of a b)).
  apply keeps_folding_func, keeps_BoolVar_of.
Defined.

(** ** Runs with answers *)

(** The programs below have answers, found here by exhaustive search, and
    the answers read back as expected: [1 + 2] is 3; with two bits,
    [3 - 1] is 2, [1 - 3] has no answer, and the reflected [1 - a] for
    [a = 3] is 2, the value of [a - 1]. *)
Definition answer_of (run : M obj) : option (obj * option Z) :=
  match run boot with
  | Ok (OIntVar r) s =>
      Some (OIntVar r,
            m ← search (clasp_rules s) (last_bool s); IntVar_value s m r)
  | _ => None
  end.

Example one_plus_two :
  answer_of (a ← IntVar_of (PyInt 1); b ← IntVar_of (PyInt 2); IntVar_add a (OIntVar b))
  = Some (OIntVar [3; 4; 5; -2; -2; -2; -2; -2; -2; -2; -2; -2; -2; -2; -2; -2], Some 3).
Proof. by vm_compute. Qed.

Example three_minus_one :
  answer_of (_ ← set_bits 2; a ← IntVar_of (PyInt 3); b ← IntVar_of (PyInt 1);
             IntVar_sub a (OIntVar b))
  = Some (OIntVar [3; 4], Some 2).
Proof. by vm_compute. Qed.

Example one_minus_three :
  answer_of (_ ← set_bits 2; a ← IntVar_of (PyInt 1); b ← IntVar_of (PyInt 3);
             IntVar_sub a (OIntVar b))
  = Some (OIntVar [3; 4], None).
Proof. by vm_compute. Qed.

Example one_minus_a :
  answer_of (_ ← set_bits 2; a ← IntVar_of (PyInt 3); py_sub (PyInt 1) (OIntVar a))
  = Some (OIntVar [3; 4], Some 2).
Proof. by vm_compute. Qed.

